(** * Tiered audio cache and dependency failover: a shallow embedding

    The development follows two source files of the backend:
    - [services/smartAudioCache.mjs]   (class [SmartAudioCache])
    - [services/failoverMonitoring.mjs] (class [FailoverMonitoringService])

    JavaScript [async] methods are embedded as terms of a small free monad
    [Async]: every interaction with mutable state, with the file system, with
    the clock and with a remote service is an operation of the monad, and an
    [await] is a point where the task can be suspended.  The same term is
    given a sequential semantics ([run]) and an interleaving semantics
    ([resume], one event-loop turn of one task). *)

From Stdlib Require Import ZArith String Ascii List Lia Bool.
From stdpp Require Import gmap strings list.

Local Open Scope string_scope.
Local Open Scope list_scope.

(** ** JavaScript values used by the two classes *)

(** A [Buffer] is a byte string. *)
Definition Buffer : Type := string.

Record JsError := mkError { name : string; message : string }.

(** The settled state of a promise, or the result of a synchronous call that
    may throw. *)
Inductive Outcome (A : Type) : Type :=
| Resolved (a : A)
| Rejected (e : JsError).
Arguments Resolved {A} a.
Arguments Rejected {A} e.

(** ** [Map]: insertion-ordered, at most one entry per key

    [set] on a key that is present replaces the value and keeps the
    position; [keys] iterates in insertion order. *)
Module JsMap.
Section Ops.
Context {V : Type}.

Fixpoint get (k : string) (m : list (string * V)) : option V :=
match m with
| [] => None
| (k', v) :: m' => if String.eqb k k' then Some v else get k m'
end.

Fixpoint set (k : string) (v : V) (m : list (string * V)) : list (string * V) :=
match m with
| [] => [(k, v)]
| (k', v') :: m' =>
  if String.eqb k k' then (k', v) :: m' else (k', v') :: set k v m'
end.

Fixpoint delete (k : string) (m : list (string * V)) : list (string * V) :=
match m with
| [] => []
| (k', v') :: m' =>
  if String.eqb k k' then m' else (k', v') :: delete k m'
end.

Definition size (m : list (string * V)) : nat := length m.

Definition keys (m : list (string * V)) : list string := map fst m.

Definition entries (m : list (string * V)) : list (string * V) := m.
End Ops.
End JsMap.

Abbreviation JsMapOf V := (list (string * V)).

(** ** The cache object *)

Record MemEntry := mkMemEntry { data : Buffer; timestamp : Z }.

Record Stats := mkStats {
  memoryHits : nat;
  diskHits : nat;
  s3Hits : nat;
  misses : nat;
  totalRequests : nat
}.

Record SmartAudioCache := mkCache {
  memoryCache : JsMapOf MemEntry;   (* Level 1: Memory *)
  diskCache : JsMapOf Z;            (* Level 2: index of the disk tier *)
  s3Cache : bool;                   (* Level 3: S3 enabled *)
  maxMemoryCache : nat;
  maxDiskCache : nat;
  cacheExpiry : Z;
  diskCachePath : string;
  stats : Stats
}.

(** The state the constructor leaves behind. *)
Definition new_SmartAudioCache : SmartAudioCache :=
  {| memoryCache := [];
     diskCache := [];
     s3Cache := true;
     maxMemoryCache := 50;
     maxDiskCache := 200;
     cacheExpiry := (24 * 60 * 60 * 1000)%Z;
     diskCachePath := "./cache/audio/";
     stats := mkStats 0 0 0 0 0 |}.

Definition with_memoryCache (f : JsMapOf MemEntry -> JsMapOf MemEntry)
    (c : SmartAudioCache) : SmartAudioCache :=
  {| memoryCache := f (memoryCache c); diskCache := diskCache c;
     s3Cache := s3Cache c; maxMemoryCache := maxMemoryCache c;
     maxDiskCache := maxDiskCache c; cacheExpiry := cacheExpiry c;
     diskCachePath := diskCachePath c; stats := stats c |}.

Definition with_diskCache (f : JsMapOf Z -> JsMapOf Z)
    (c : SmartAudioCache) : SmartAudioCache :=
  {| memoryCache := memoryCache c; diskCache := f (diskCache c);
     s3Cache := s3Cache c; maxMemoryCache := maxMemoryCache c;
     maxDiskCache := maxDiskCache c; cacheExpiry := cacheExpiry c;
     diskCachePath := diskCachePath c; stats := stats c |}.

Definition with_stats (f : Stats -> Stats) (c : SmartAudioCache) : SmartAudioCache :=
  {| memoryCache := memoryCache c; diskCache := diskCache c;
     s3Cache := s3Cache c; maxMemoryCache := maxMemoryCache c;
     maxDiskCache := maxDiskCache c; cacheExpiry := cacheExpiry c;
     diskCachePath := diskCachePath c; stats := f (stats c) |}.

Definition incr_totalRequests (s : Stats) : Stats :=
  mkStats (memoryHits s) (diskHits s) (s3Hits s) (misses s) (S (totalRequests s)).
Definition incr_memoryHits (s : Stats) : Stats :=
  mkStats (S (memoryHits s)) (diskHits s) (s3Hits s) (misses s) (totalRequests s).
Definition incr_diskHits (s : Stats) : Stats :=
  mkStats (memoryHits s) (S (diskHits s)) (s3Hits s) (misses s) (totalRequests s).
Definition incr_s3Hits (s : Stats) : Stats :=
  mkStats (memoryHits s) (diskHits s) (S (s3Hits s)) (misses s) (totalRequests s).
Definition incr_misses (s : Stats) : Stats :=
  mkStats (memoryHits s) (diskHits s) (s3Hits s) (S (misses s)) (totalRequests s).

(** ** The monitoring object *)

(** The strings ['healthy'], ['degraded'] and ['failed']. *)
Inductive Status := Healthy | Degraded | Failed.

(** A failure counter read back from a [Map]: [get] of a key that was never
    set is [undefined], and [undefined + 1] is [NaN]. *)
Inductive JsNum := Num (n : nat) | NaN.

Definition js_succ (x : option JsNum) : JsNum :=
  match x with
  | Some (Num n) => Num (n + 1)
  | _ => NaN
  end.

(** [x >= t]; every comparison with [NaN] is false. *)
Definition js_ge (x : JsNum) (t : nat) : bool :=
  match x with
  | Num n => Nat.leb t n
  | NaN => false
  end.

Record FailoverMonitoringService := mkMonitor {
  failoverThreshold : nat;
  consecutiveFailures : JsMapOf JsNum;
  serviceStatus : JsMapOf Status
}.

Definition with_consecutiveFailures (f : JsMapOf JsNum -> JsMapOf JsNum)
    (m : FailoverMonitoringService) : FailoverMonitoringService :=
  mkMonitor (failoverThreshold m) (f (consecutiveFailures m)) (serviceStatus m).

Definition with_serviceStatus (f : JsMapOf Status -> JsMapOf Status)
    (m : FailoverMonitoringService) : FailoverMonitoringService :=
  mkMonitor (failoverThreshold m) (consecutiveFailures m) (f (serviceStatus m)).

(** ** The world outside the two objects *)

(** The metadata record the disk tier keeps beside each payload. *)
Record DiskMeta := mkMeta {
  meta_timestamp : Z;
  meta_size : nat;
  meta_cacheKey : string
}.

(** The cache directory.  Payload files are read and written as buffers;
    metadata files are written with [JSON.stringify] and read back with
    [JSON.parse], so a metadata file is kept as the object it encodes, and
    [None] stands for a file whose text does not parse. *)
Record Disk := mkDisk {
  payloads : gmap string Buffer;
  metas : gmap string (option DiskMeta)
}.

(** A byte stream as produced by a remote service: the chunks it yields and
    the error, if any, with which it ends. *)
Record Stream := mkStream { chunks : list Buffer; stream_error : option JsError }.

Record SynthParams := mkSynth {
  Text : string;
  VoiceId : string;
  OutputFormat : string;
  Engine : option string
}.

(** The requests the two classes send to remote services. *)
Inductive Command :=
| SynthesizeSpeech (region : string) (p : SynthParams)
| HeadObject (Bucket Key : string)
| GetObject (Bucket Key : string)
| PutObject (Bucket Key : string) (Body : Buffer)
| HeadBucket (Bucket : string)
| PutMetricData (MetricName : string) (Value : Z) (Unit : string)
    (Dimensions : list (string * string))
| Publish (TopicArn Subject service : string) (error : string)
| FetchHead (url : string).

(** The fields the code reads from a response object. *)
Record Response := mkResponse {
  LastModified : Z;
  Body : Stream;
  AudioStream : Stream;
  status : nat
}.

Record World := mkWorld {
  cache : SmartAudioCache;
  monitor : FailoverMonitoringService;
  process_env : gmap string string;
  files : Disk;
  console : list string;
  requests : list Command        (* remote requests answered so far, oldest first *)
}.

Definition with_cache (f : SmartAudioCache -> SmartAudioCache) (w : World) : World :=
  mkWorld (f (cache w)) (monitor w) (process_env w) (files w) (console w) (requests w).
Definition with_monitor (f : FailoverMonitoringService -> FailoverMonitoringService)
    (w : World) : World :=
  mkWorld (cache w) (f (monitor w)) (process_env w) (files w) (console w) (requests w).
Definition with_process_env (f : gmap string string -> gmap string string)
    (w : World) : World :=
  mkWorld (cache w) (monitor w) (f (process_env w)) (files w) (console w) (requests w).
Definition with_files (f : Disk -> Disk) (w : World) : World :=
  mkWorld (cache w) (monitor w) (process_env w) (f (files w)) (console w) (requests w).
Definition with_console (f : list string -> list string) (w : World) : World :=
  mkWorld (cache w) (monitor w) (process_env w) (files w) (f (console w)) (requests w).
Definition with_requests (f : list Command -> list Command) (w : World) : World :=
  mkWorld (cache w) (monitor w) (process_env w) (files w) (console w) (f (requests w)).

(** What the code cannot control: the clock, the remote services and the
    faults of the file system.  One environment stands for one moment: it
    answers the operations of one turn of the event loop, or of one run that
    no other task interrupts. *)
Inductive FsCall := FsRead (path : string) | FsWrite (path : string) | FsUnlink (path : string).

Record Env := mkEnv {
  now : Z;
  service : Command -> Outcome Response;
  fs_fault : FsCall -> option JsError
}.

(** ** Operations *)

Inductive Op : Type -> Type :=
| ReadCache : Op SmartAudioCache
| UpdateCache (f : SmartAudioCache -> SmartAudioCache) : Op unit
| ReadMonitor : Op FailoverMonitoringService
| UpdateMonitor (f : FailoverMonitoringService -> FailoverMonitoringService) : Op unit
| ProcessEnvGet (var : string) : Op (option string)
| ProcessEnvSet (var value : string) : Op unit
| DateNow : Op Z
| Console (line : string) : Op unit
| ExistsSync (path : string) : Op bool
| ReadFileSync (path : string) : Op Buffer
| ReadJsonSync (path : string) : Op DiskMeta
| WriteFileSync (path : string) (b : Buffer) : Op unit
| WriteJsonSync (path : string) (m : DiskMeta) : Op unit
| UnlinkSync (path : string) : Op unit
| Tick : Op unit
| Send (c : Command) : Op Response.

(** The operations at which a task is suspended until a later turn of the
    event loop: awaiting a settled promise ([Tick]) and awaiting the answer of
    a remote service ([Send]). *)
Definition is_async {R} (op : Op R) : bool :=
  match op with
  | Tick | Send _ => true
  | _ => false
  end.

Definition ENOENT : JsError := mkError "Error" "ENOENT: no such file or directory".
Definition SyntaxError : JsError := mkError "SyntaxError" "Unexpected token in JSON".

Definition exists_on_disk (d : Disk) (path : string) : bool :=
  bool_decide (is_Some (payloads d !! path)) || bool_decide (is_Some (metas d !! path)).

Definition unlink (path : string) (d : Disk) : Disk :=
  mkDisk (delete path (payloads d)) (delete path (metas d)).

Definition faulty {R} (env : Env) (call : FsCall) (ok : Outcome R) : Outcome R :=
  match fs_fault env call with
  | Some e => Rejected e
  | None => ok
  end.

(** The answer to an operation in a given world. *)
Definition response (env : Env) {R} (op : Op R) (w : World) : Outcome R :=
  match op in Op R return Outcome R with
  | ReadCache => Resolved (cache w)
  | UpdateCache _ => Resolved tt
  | ReadMonitor => Resolved (monitor w)
  | UpdateMonitor _ => Resolved tt
  | ProcessEnvGet var => Resolved (process_env w !! var)
  | ProcessEnvSet _ _ => Resolved tt
  | DateNow => Resolved (now env)
  | Console _ => Resolved tt
  | ExistsSync path => Resolved (exists_on_disk (files w) path)
  | ReadFileSync path =>
      faulty env (FsRead path)
        match payloads (files w) !! path with
        | Some b => Resolved b
        | None => Rejected ENOENT
        end
  | ReadJsonSync path =>
      faulty env (FsRead path)
        match metas (files w) !! path with
        | Some (Some m) => Resolved m
        | Some None => Rejected SyntaxError
        | None => Rejected ENOENT
        end
  | WriteFileSync path _ => faulty env (FsWrite path) (Resolved tt)
  | WriteJsonSync path _ => faulty env (FsWrite path) (Resolved tt)
  | UnlinkSync path =>
      faulty env (FsUnlink path)
        (if exists_on_disk (files w) path then Resolved tt else Rejected ENOENT)
  | Tick => Resolved tt
  | Send c => service env c
  end.

(** The world after an operation. *)
Definition effect (env : Env) {R} (op : Op R) (w : World) : World :=
  match op with
  | UpdateCache f => with_cache f w
  | UpdateMonitor f => with_monitor f w
  | ProcessEnvSet var value => with_process_env (insert var value) w
  | Console line => with_console (fun l => l ++ [line]) w
  | WriteFileSync path b =>
      match fs_fault env (FsWrite path) with
      | Some _ => w
      | None => with_files (fun d => mkDisk (<[path := b]> (payloads d)) (metas d)) w
      end
  | WriteJsonSync path m =>
      match fs_fault env (FsWrite path) with
      | Some _ => w
      | None => with_files (fun d => mkDisk (payloads d) (<[path := Some m]> (metas d))) w
      end
  | UnlinkSync path =>
      match fs_fault env (FsUnlink path) with
      | Some _ => w
      | None => with_files (unlink path) w
      end
  | Send c => with_requests (fun l => l ++ [c]) w
  | _ => w
  end.

(** ** Asynchronous computations *)

Inductive Async (A : Type) : Type :=
| Return (a : A)
| Throw (e : JsError)
| Perform {R : Type} (op : Op R) (k : Outcome R -> Async A)
| Spawn (bg : Async unit) (k : Async A).
Arguments Return {A} a.
Arguments Throw {A} e.
Arguments Perform {A R} op k.
Arguments Spawn {A} bg k.

Fixpoint bind {A B} (m : Async A) (f : A -> Async B) : Async B :=
  match m with
  | Return a => f a
  | Throw e => Throw e
  | Perform op k => Perform op (fun r => bind (k r) f)
  | Spawn bg k => Spawn bg (bind k f)
  end.

(** [try { m } catch (error) { h error }] *)
Fixpoint try_catch {A} (m : Async A) (h : JsError -> Async A) : Async A :=
  match m with
  | Return a => Return a
  | Throw e => h e
  | Perform op k => Perform op (fun r => try_catch (k r) h)
  | Spawn bg k => Spawn bg (try_catch k h)
  end.

Definition perform {R} (op : Op R) : Async R :=
  Perform op (fun r => match r with Resolved x => Return x | Rejected e => Throw e end).

(** [await p] for a promise [p] returned by an [async] method: the method's
    body has run as far as it can, and the caller continues one turn after it
    has settled. *)
Fixpoint await {A} (m : Async A) : Async A :=
  match m with
  | Return a => Perform Tick (fun _ => Return a)
  | Throw e => Perform Tick (fun _ => Throw e)
  | Perform op k => Perform op (fun r => await (k r))
  | Spawn bg k => Spawn bg (await k)
  end.

Notation "'do' x <- m ;; k" := (bind m (fun x => k))
  (at level 10, x name, m at level 99, k at level 200, only parsing).
Notation "m ;;; k" := (bind m (fun _ => k))
  (at level 200, right associativity, only parsing).

(** ** [crypto.createHash('md5')]

    MD5 as in RFC 1321, on bytes given as integers in [0, 256). *)
Module MD5.
Local Open Scope Z_scope.

Definition mask32 (x : Z) : Z := Z.land x 4294967295.

Definition add32 (x y : Z) : Z := mask32 (x + y).

Definition not32 (x : Z) : Z := Z.lxor x 4294967295.

Definition rotl32 (x c : Z) : Z :=
  mask32 (Z.lor (Z.shiftl x c) (Z.shiftr x (32 - c))).

Definition shifts : list Z :=
  [7; 12; 17; 22; 7; 12; 17; 22; 7; 12; 17; 22; 7; 12; 17; 22;
   5; 9; 14; 20; 5; 9; 14; 20; 5; 9; 14; 20; 5; 9; 14; 20;
   4; 11; 16; 23; 4; 11; 16; 23; 4; 11; 16; 23; 4; 11; 16; 23;
   6; 10; 15; 21; 6; 10; 15; 21; 6; 10; 15; 21; 6; 10; 15; 21].

(** [floor (abs (sin (i + 1)) * 2^32)] for [i] in [0, 64). *)
Definition sines : list Z :=
  [3614090360; 3905402710; 606105819; 3250441966;
   4118548399; 1200080426; 2821735955; 4249261313;
   1770035416; 2336552879; 4294925233; 2304563134;
   1804603682; 4254626195; 2792965006; 1236535329;
   4129170786; 3225465664; 643717713; 3921069994;
   3593408605; 38016083; 3634488961; 3889429448;
   568446438; 3275163606; 4107603335; 1163531501;
   2850285829; 4243563512; 1735328473; 2368359562;
   4294588738; 2272392833; 1839030562; 4259657740;
   2763975236; 1272893353; 4139469664; 3200236656;
   681279174; 3936430074; 3572445317; 76029189;
   3654602809; 3873151461; 530742520; 3299628645;
   4096336452; 1126891415; 2878612391; 4237533241;
   1700485571; 2399980690; 4293915773; 2240044497;
   1873313359; 4264355552; 2734768916; 1309151649;
   4149444226; 3174756917; 718787259; 3951481745].

Record State := mkState { sA : Z; sB : Z; sC : Z; sD : Z }.

Definition init : State := mkState 1732584193 4023233417 2562383102 271733878.

(** Four bytes, least significant first, as one word. *)
Definition word_of_bytes (bs : list Z) : Z :=
  fold_right (fun b acc => b + 256 * acc) 0 bs.

Fixpoint words_of_block (n : nat) (bs : list Z) : list Z :=
  match n with
  | O => []
  | S n' => word_of_bytes (firstn 4 bs) :: words_of_block n' (skipn 4 bs)
  end.

Definition round (M : list Z) (st : State) (i : nat) : State :=
  let i' := Z.of_nat i in
  let '(f, g) :=
    if i' <? 16 then
      (Z.lor (Z.land (sB st) (sC st)) (Z.land (not32 (sB st)) (sD st)), i')
    else if i' <? 32 then
      (Z.lor (Z.land (sD st) (sB st)) (Z.land (not32 (sD st)) (sC st)),
       (5 * i' + 1) mod 16)
    else if i' <? 48 then
      (Z.lxor (sB st) (Z.lxor (sC st) (sD st)), (3 * i' + 5) mod 16)
    else
      (Z.lxor (sC st) (Z.lor (sB st) (not32 (sD st))), (7 * i') mod 16) in
  let f' := add32 (add32 (add32 f (sA st)) (nth i sines 0))
              (nth (Z.to_nat g) M 0) in
  mkState (sD st) (add32 (sB st) (rotl32 f' (nth i shifts 0))) (sB st) (sC st).

Definition compress (st : State) (block : list Z) : State :=
  let M := words_of_block 16 block in
  let st' := fold_left (round M) (seq 0 64) st in
  mkState (add32 (sA st) (sA st')) (add32 (sB st) (sB st'))
          (add32 (sC st) (sC st')) (add32 (sD st) (sD st')).

Fixpoint bytes_le (n : nat) (x : Z) : list Z :=
  match n with
  | O => []
  | S n' => (x mod 256) :: bytes_le n' (x / 256)
  end.

(** The message, a [1] bit, zeros up to 56 modulo 64, and the length in
    bits on 8 bytes. *)
Definition pad (msg : list Z) : list Z :=
  let len := Z.of_nat (length msg) in
  let zeros := Z.to_nat ((55 - len) mod 64) in
  msg ++ [128] ++ repeat 0 zeros ++ bytes_le 8 ((8 * len) mod 2 ^ 64).

Fixpoint absorb (nblocks : nat) (st : State) (bs : list Z) : State :=
  match nblocks with
  | O => st
  | S n' => absorb n' (compress st (firstn 64 bs)) (skipn 64 bs)
  end.

Definition digest (msg : list Z) : list Z :=
  let padded := pad msg in
  let st := absorb (length padded / 64)%nat init padded in
  bytes_le 4 (sA st) ++ bytes_le 4 (sB st) ++ bytes_le 4 (sC st) ++ bytes_le 4 (sD st).

Definition hex_digit (d : Z) : ascii :=
  ascii_of_nat (Z.to_nat (if d <? 10 then 48 + d else 87 + d)).

Definition hex_of_byte (b : Z) : list ascii := [hex_digit (b / 16); hex_digit (b mod 16)].

Definition bytes_of_string (s : string) : list Z :=
  map (fun c => Z.of_nat (nat_of_ascii c)) (list_ascii_of_string s).

(** [createHash('md5').update(s).digest('hex')] *)
Definition hex (s : string) : string :=
  string_of_list_ascii (concat (map hex_of_byte (digest (bytes_of_string s)))).
End MD5.

(** ** Strings: [trim], [toLowerCase] and [JSON.stringify]

    A JavaScript string is kept as the bytes of its UTF-8 encoding, which is
    what the hash is fed.  [trim] and [toLowerCase] are given on the ASCII
    range, the range of the alert texts; bytes from 128 on are left as they
    are, so that on a text with such bytes the two functions are not the
    built-ins: they strip no white space and lower-case no letter outside
    ASCII.  What is stated of the normal form of a text is therefore stated
    of the texts of the ASCII range, [ascii_text]. *)
Definition is_space (c : ascii) : bool :=
  let n := nat_of_ascii c in
  (Nat.leb 9 n && Nat.leb n 13) || Nat.eqb n 32.

Fixpoint trimStart (s : list ascii) : list ascii :=
  match s with
  | c :: s' => if is_space c then trimStart s' else s
  | [] => []
  end.

Definition trim (s : string) : string :=
  string_of_list_ascii
    (rev (trimStart (rev (trimStart (list_ascii_of_string s))))).

Definition lower_ascii (c : ascii) : ascii :=
  let n := nat_of_ascii c in
  if Nat.leb 65 n && Nat.leb n 90 then ascii_of_nat (n + 32) else c.

Definition toLowerCase (s : string) : string :=
  string_of_list_ascii (map lower_ascii (list_ascii_of_string s)).

(** A text of the ASCII range: every byte is below 128.  On such a text
    [trim] and [toLowerCase] are the built-ins of the language. *)
Definition ascii_text (s : string) : bool :=
  forallb (fun c => Nat.ltb (nat_of_ascii c) 128) (list_ascii_of_string s).

(** A string of white space of the ASCII range. *)
Definition white_space (s : string) : bool :=
  forallb is_space (list_ascii_of_string s).

(** [toUpperCase] on the ASCII range, against which the lower-casing of
    the key is stated. *)
Definition upper_ascii (c : ascii) : ascii :=
  let n := nat_of_ascii c in
  if Nat.leb 97 n && Nat.leb n 122 then ascii_of_nat (n - 32) else c.

Definition toUpperCase (s : string) : string :=
  string_of_list_ascii (map upper_ascii (list_ascii_of_string s)).


Definition quote_char : ascii := ascii_of_nat 34.
Definition backslash : ascii := ascii_of_nat 92.

(** One character inside a JSON string literal. *)
Definition json_char (c : ascii) : list ascii :=
  let n := nat_of_ascii c in
  if Nat.eqb n 34 then [backslash; quote_char]
  else if Nat.eqb n 92 then [backslash; backslash]
  else if Nat.eqb n 8 then [backslash; "b"%char]
  else if Nat.eqb n 9 then [backslash; "t"%char]
  else if Nat.eqb n 10 then [backslash; "n"%char]
  else if Nat.eqb n 12 then [backslash; "f"%char]
  else if Nat.eqb n 13 then [backslash; "r"%char]
  else if Nat.ltb n 32 then
    [backslash; "u"%char; "0"%char; "0"%char;
     MD5.hex_digit (Z.of_nat (n / 16)); MD5.hex_digit (Z.of_nat (n mod 16))]
  else [c].

Definition json_string (s : string) : list ascii :=
  [quote_char] ++ concat (map json_char (list_ascii_of_string s)) ++ [quote_char].

(** [JSON.stringify] of an object whose values are strings, keys in order. *)
Fixpoint json_members (fields : list (string * string)) : list ascii :=
  match fields with
  | [] => []
  | [(k, v)] => json_string k ++ [":"%char] ++ json_string v
  | (k, v) :: rest =>
      json_string k ++ [":"%char] ++ json_string v ++ [","%char] ++ json_members rest
  end.

Definition JSON_stringify (fields : list (string * string)) : string :=
  string_of_list_ascii (["{"%char] ++ json_members fields ++ ["}"%char]).

(** The [options] argument: [{ engine, format }], either of which may be
    absent. *)
Record Options := mkOptions { engine : option string; format : option string }.

Definition no_options : Options := mkOptions None None.

(** [x || d] on a possibly absent string: [undefined] and the empty string
    are falsy. *)
Definition or_default (x : option string) (d : string) : string :=
  match x with
  | Some EmptyString | None => d
  | Some s => s
  end.

(** Generate unique cache key *)
Definition generateCacheKey (text voiceId : string) (options : Options) : string :=
  let data := JSON_stringify
    [("text", toLowerCase (trim text));
     ("voiceId", voiceId);
     ("engine", or_default (engine options) "neural");
     ("format", or_default (format options) "mp3")] in
  MD5.hex data.

(** ** Semantics *)

(** One turn of a task: where it stopped, the world it left, and the
    background tasks started so far. *)
Record Turn (A : Type) := mkTurn {
  task : Async A;
  world : World;
  spawned : list (Async unit)
}.
Arguments mkTurn {A} task world spawned.
Arguments task {A} t.
Arguments world {A} t.
Arguments spawned {A} t.

(** Run a task up to its next suspension point.  A call that is not awaited
    ([Spawn]) runs the callee up to its first suspension point and leaves the
    rest in the background. *)
Fixpoint run_sync {A : Type} (env : Env) (m : Async A) (w : World)
    (pool : list (Async unit)) : Turn A :=
  match m with
  | Perform op k =>
      if is_async op then mkTurn m w pool
      else run_sync env (k (response env op w)) (effect env op w) pool
  | Spawn bg k =>
      let t := run_sync env bg w pool in
      run_sync env k (world t) (spawned t ++ [task t])
  | _ => mkTurn m w pool
  end.

(** One turn of the event loop given to a suspended task: the operation it
    waits for is answered and the task runs to its next suspension point. *)
Definition resume {A : Type} (env : Env) (m : Async A) (w : World)
    (pool : list (Async unit)) : Turn A :=
  match m with
  | Perform op k => run_sync env (k (response env op w)) (effect env op w) pool
  | _ => run_sync env m w pool
  end.

Record Final (A : Type) := mkFinal {
  outcome : Outcome A;
  final : World;
  pending : list (Async unit)
}.
Arguments mkFinal {A} outcome final pending.
Arguments outcome {A} f.
Arguments final {A} f.
Arguments pending {A} f.

(** A task run to completion with no other task taking a turn in between:
    every operation is answered as soon as it is issued. *)
Fixpoint run {A : Type} (env : Env) (m : Async A) (w : World)
    (pool : list (Async unit)) : Final A :=
  match m with
  | Return a => mkFinal (Resolved a) w pool
  | Throw e => mkFinal (Rejected e) w pool
  | Perform op k => run env (k (response env op w)) (effect env op w) pool
  | Spawn bg k =>
      let t := run_sync env bg w pool in
      run env k (world t) (spawned t ++ [task t])
  end.

(** ** [SmartAudioCache] *)

Inductive Source := memory | disk | s3 | generated.

Record AudioResult := mkResult {
  audioBuffer : Buffer;
  source : Source;
  cacheKey : string;
  fromCache : bool
}.

(** [path.join] of the cache directory and the name of a file in it.  The
    built-in normalises its result.  For a name without a separator, as is
    a cache key followed by an extension, this changes the directory part
    only, and in the same way for every name, so that the path is kept as
    the directory and the name put together.  Two keys that are no such
    names could name one file; what is stated of the files of two different
    keys is therefore stated of keys as [generateCacheKey] makes them,
    [is_cache_key]. *)
Definition path_join (dir file : string) : string := dir +:+ file.

(** How a value that may be [undefined] prints inside a template literal. *)
Definition template (k : option string) : string := default "undefined" k.

(** [map.delete(k)] where [k] may be [undefined], which is no key of a map
    of strings. *)
Definition delete_key {V} (k : option string) (m : JsMapOf V) : JsMapOf V :=
  match k with
  | Some k => JsMap.delete k m
  | None => m
  end.

Definition Buffer_concat (chunks : list Buffer) : Buffer := String.concat "" chunks.

(** [for await (const chunk of stream) chunks.push(chunk)] *)
Fixpoint for_await (rest : list Buffer) (end_error : option JsError)
    (chunks : list Buffer) : Async (list Buffer) :=
  perform Tick ;;;
  match rest with
  | [] =>
      match end_error with
      | Some e => Throw e
      | None => Return chunks
      end
  | chunk :: rest' => for_await rest' end_error (chunks ++ [chunk])
  end.

Definition collect (s : Stream) : Async (list Buffer) :=
  for_await (chunks s) (stream_error s) [].

(** Memory cache operations *)
Definition checkMemoryCache (cacheKey : string) : Async (option Buffer) :=
  do this <- perform ReadCache ;;
  let cached := JsMap.get cacheKey (memoryCache this) in
  match cached with
  | Some entry =>
      do now <- perform DateNow ;;
      if (now - timestamp entry <? cacheExpiry this)%Z then Return (Some (data entry))
      else
        perform (UpdateCache (with_memoryCache (JsMap.delete cacheKey))) ;;;
        Return None
  | None => Return None
  end.

Definition storeInMemoryCache (cacheKey : string) (audioBuffer : Buffer) : Async unit :=
  do this <- perform ReadCache ;;
  (* LRU eviction *)
  (if Nat.leb (maxMemoryCache this) (JsMap.size (memoryCache this)) then
     let firstKey := head (JsMap.keys (memoryCache this)) in
     perform (UpdateCache (with_memoryCache (delete_key firstKey)))
   else Return tt) ;;;
  do now <- perform DateNow ;;
  perform (UpdateCache
             (with_memoryCache (JsMap.set cacheKey (mkMemEntry audioBuffer now)))).

Definition removeDiskCacheEntry (cacheKey : option string) : Async unit :=
  try_catch
    (do this <- perform ReadCache ;;
     let filePath := path_join (diskCachePath this) (template cacheKey +:+ ".mp3") in
     let metaPath := path_join (diskCachePath this) (template cacheKey +:+ ".meta") in
     do hasFile <- perform (ExistsSync filePath) ;;
     (if hasFile then perform (UnlinkSync filePath) else Return tt) ;;;
     do hasMeta <- perform (ExistsSync metaPath) ;;
     (if hasMeta then perform (UnlinkSync metaPath) else Return tt) ;;;
     perform (UpdateCache (with_diskCache (delete_key cacheKey))))
    (fun error => perform (Console "Error removing disk cache entry")).

(** Disk cache operations *)
Definition checkDiskCache (cacheKey : string) : Async (option Buffer) :=
  try_catch
    (do this <- perform ReadCache ;;
     let filePath := path_join (diskCachePath this) (cacheKey +:+ ".mp3") in
     let metaPath := path_join (diskCachePath this) (cacheKey +:+ ".meta") in
     (* Check if files exist *)
     do hasFile <- perform (ExistsSync filePath) ;;
     do hasMeta <- (if hasFile then perform (ExistsSync metaPath) else Return false) ;;
     if negb hasFile || negb hasMeta then Return None
     else
       (* Check if expired *)
       do meta <- perform (ReadJsonSync metaPath) ;;
       do now <- perform DateNow ;;
       if (cacheExpiry this <? now - meta_timestamp meta)%Z then
         perform (UnlinkSync filePath) ;;;
         perform (UnlinkSync metaPath) ;;;
         Return None
       else
         do content <- perform (ReadFileSync filePath) ;;
         Return (Some content))
    (fun error =>
       perform (Console "Disk cache read error") ;;;
       Return None).

Definition storeToDiskCache (cacheKey : string) (audioBuffer : Buffer) : Async unit :=
  try_catch
    (do this <- perform ReadCache ;;
     (* LRU eviction for disk cache *)
     (if Nat.leb (maxDiskCache this) (JsMap.size (diskCache this)) then
        let oldestKey := head (JsMap.keys (diskCache this)) in
        removeDiskCacheEntry oldestKey ;;;
        perform Tick
      else Return tt) ;;;
     let filePath := path_join (diskCachePath this) (cacheKey +:+ ".mp3") in
     let metaPath := path_join (diskCachePath this) (cacheKey +:+ ".meta") in
     (* Write audio file *)
     perform (WriteFileSync filePath audioBuffer) ;;;
     (* Write metadata *)
     do now <- perform DateNow ;;
     let meta := mkMeta now (String.length audioBuffer) cacheKey in
     perform (WriteJsonSync metaPath meta) ;;;
     do now' <- perform DateNow ;;
     perform (UpdateCache (with_diskCache (JsMap.set cacheKey now'))))
    (fun error => perform (Console "Disk cache write error")).

Definition bucketName_of (configured : option string) : string :=
  or_default configured "safety-alert-audio-cache".

(** S3 cache operations *)
Definition checkS3Cache (cacheKey : string) : Async (option Buffer) :=
  try_catch
    (do configured <- perform (ProcessEnvGet "AUDIO_CACHE_BUCKET") ;;
     let bucketName := bucketName_of configured in
     let key := "audio-cache/" +:+ cacheKey +:+ ".mp3" in
     (* Check if object exists and is not expired *)
     do headResponse <- perform (Send (HeadObject bucketName key)) ;;
     do now <- perform DateNow ;;
     do this <- perform ReadCache ;;
     let age := (now - LastModified headResponse)%Z in
     if (cacheExpiry this <? age)%Z then Return None
     else
       (* Get the audio data *)
       do response <- perform (Send (GetObject bucketName key)) ;;
       do chunks <- collect (Body response) ;;
       Return (Some (Buffer_concat chunks)))
    (fun error =>
       if String.eqb (name error) "NoSuchKey" || String.eqb (name error) "NotFound"
       then Return None
       else
         perform (Console "S3 cache error") ;;;
         Return None).

Definition storeToS3Cache (cacheKey : string) (audioBuffer : Buffer) : Async unit :=
  try_catch
    (do configured <- perform (ProcessEnvGet "AUDIO_CACHE_BUCKET") ;;
     let bucketName := bucketName_of configured in
     let key := "audio-cache/" +:+ cacheKey +:+ ".mp3" in
     perform (Send (PutObject bucketName key audioBuffer)) ;;;
     Return tt)
    (fun error => perform (Console "S3 cache store error")).

(** Store in all cache levels *)
Definition storeInAllCaches (cacheKey : string) (audioBuffer : Buffer) : Async unit :=
  (* Store in memory *)
  storeInMemoryCache cacheKey audioBuffer ;;;
  (* Store on disk *)
  await (storeToDiskCache cacheKey audioBuffer) ;;;
  (* Store in S3 (async, don't wait) *)
  do this <- perform ReadCache ;;
  if s3Cache this then
    Spawn (try_catch (storeToS3Cache cacheKey audioBuffer)
             (fun err => perform (Console "S3 cache store failed")))
          (Return tt)
  else Return tt.

(** Generate audio using Polly *)
Definition generatePollyAudio (text voiceId : string) (options : Options) : Async Buffer :=
  try_catch
    (let params :=
       mkSynth text voiceId (or_default (format options) "mp3")
               (Some (or_default (engine options) "neural")) in
     do response <- perform (Send (SynthesizeSpeech "ap-south-1" params)) ;;
     (* Convert stream to buffer *)
     do chunks <- collect (AudioStream response) ;;
     Return (Buffer_concat chunks))
    (fun error =>
       perform (Console "Polly generation error") ;;;
       Throw error).

(** MAIN FUNCTION: Get cached audio or generate new.  An early [return]
    inside the S3 block is the [Some] of [s3Hit]. *)
Definition getAudioWithCache (text voiceId : string) (options : Options)
    : Async AudioResult :=
  perform (UpdateCache (with_stats incr_totalRequests)) ;;;
  let cacheKey := generateCacheKey text voiceId options in
  try_catch
    ((* Level 1: Check memory cache (fastest) *)
     do memoryResult <- checkMemoryCache cacheKey ;;
     match memoryResult with
     | Some memoryResult =>
         perform (UpdateCache (with_stats incr_memoryHits)) ;;;
         perform (Console "Memory cache hit") ;;;
         Return (mkResult memoryResult memory cacheKey true)
     | None =>
     (* Level 2: Check disk cache (fast) *)
     do diskResult <- await (checkDiskCache cacheKey) ;;
     match diskResult with
     | Some diskResult =>
         perform (UpdateCache (with_stats incr_diskHits)) ;;;
         perform (Console "Disk cache hit") ;;;
         (* Store in memory for next time *)
         storeInMemoryCache cacheKey diskResult ;;;
         Return (mkResult diskResult disk cacheKey true)
     | None =>
     (* Level 3: Check S3 cache (network) *)
     do this <- perform ReadCache ;;
     do s3Hit <-
       (if s3Cache this then
          do s3Result <- await (checkS3Cache cacheKey) ;;
          match s3Result with
          | Some s3Result =>
              perform (UpdateCache (with_stats incr_s3Hits)) ;;;
              perform (Console "S3 cache hit") ;;;
              (* Store in memory and disk for next time *)
              storeInMemoryCache cacheKey s3Result ;;;
              await (storeToDiskCache cacheKey s3Result) ;;;
              Return (Some (mkResult s3Result s3 cacheKey true))
          | None => Return None
          end
        else Return None) ;;
     match s3Hit with
     | Some result => Return result
     | None =>
     (* Cache miss - generate new audio *)
     perform (UpdateCache (with_stats incr_misses)) ;;;
     perform (Console "Generating new audio") ;;;
     do audioBuffer <- await (generatePollyAudio text voiceId options) ;;
     (* Store in all cache levels *)
     await (storeInAllCaches cacheKey audioBuffer) ;;;
     Return (mkResult audioBuffer generated cacheKey false)
     end end end)
    (fun error =>
       perform (Console "Audio caching error") ;;;
       Throw error).

(** Cleanup of expired entries, run by the hourly timer. *)
Definition cleanupExpiredEntries : Async unit :=
  do now <- perform DateNow ;;
  do this <- perform ReadCache ;;
  (* Cleanup memory cache *)
  fold_right
    (fun '(key, value) rest =>
       (if (cacheExpiry this <? now - timestamp value)%Z then
          perform (UpdateCache (with_memoryCache (JsMap.delete key)))
        else Return tt) ;;; rest)
    (Return tt) (JsMap.entries (memoryCache this)) ;;;
  (* Cleanup disk cache *)
  fold_right
    (fun '(key, timestamp) rest =>
       (if (cacheExpiry this <? now - timestamp)%Z then
          removeDiskCacheEntry (Some key)
        else Return tt) ;;; rest)
    (Return tt) (JsMap.entries (diskCache this)) ;;;
  perform (Console "Cache cleanup completed").

(** ** [FailoverMonitoringService] *)

Definition monitor_region : string := "ap-south-1".
Definition serviceName : string := "SafetyAlertSystem".

(** What a health check returns: [{ healthy, responseTime, error, ... }]. *)
Record HealthResult := mkHealth {
  healthy : bool;
  responseTime : option Z;
  error : option string;
  note : option string
}.

Definition health_ok (responseTime : Z) : HealthResult :=
  mkHealth true (Some responseTime) None None.
Definition health_failed (e : JsError) : HealthResult :=
  mkHealth false None (Some (message e)) None.

(** Record metrics to CloudWatch *)
Definition recordMetric (metricName : string) (value : Z) (unitName : string)
    (dimensions : list (string * string)) : Async unit :=
  try_catch
    (perform (Send (PutMetricData metricName value unitName
                      ([("Environment", "Production"); ("Region", monitor_region)]
                       ++ dimensions))) ;;;
     Return tt)
    (fun error => perform (Console "Error recording metric")).

Definition health_check_params (text : string) : SynthParams :=
  mkSynth text "Joanna" "mp3" None.

(** Health check for individual services *)
Definition checkPollyHealth : Async HealthResult :=
  try_catch
    (do startTime <- perform DateNow ;;
     perform Tick ;;;      (* await import("@aws-sdk/client-polly") *)
     perform (Send (SynthesizeSpeech monitor_region (health_check_params "Health check"))) ;;;
     do endTime <- perform DateNow ;;
     let responseTime := (endTime - startTime)%Z in
     await (recordMetric "PollyResponseTime" responseTime "Milliseconds" []) ;;;
     await (recordMetric "PollyHealthCheck" 1 "Count" []) ;;;
     Return (health_ok responseTime))
    (fun error =>
       perform (Console "Polly health check failed") ;;;
       await (recordMetric "PollyHealthCheck" 0 "Count" []) ;;;
       Return (health_failed error)).

Definition checkTranscribeHealth : Async HealthResult :=
  try_catch
    (do startTime <- perform DateNow ;;
     do endTime <- perform DateNow ;;
     let responseTime := (endTime - startTime)%Z in
     await (recordMetric "TranscribeResponseTime" responseTime "Milliseconds" []) ;;;
     await (recordMetric "TranscribeHealthCheck" 1 "Count" []) ;;;
     Return (health_ok responseTime))
    (fun error =>
       perform (Console "Transcribe health check failed") ;;;
       await (recordMetric "TranscribeHealthCheck" 0 "Count" []) ;;;
       Return (health_failed error)).

Definition checkS3Health : Async HealthResult :=
  try_catch
    (perform Tick ;;;      (* await import("@aws-sdk/client-s3") *)
     do startTime <- perform DateNow ;;
     do configured <- perform (ProcessEnvGet "AUDIO_CACHE_BUCKET") ;;
     perform (Send (HeadBucket (bucketName_of configured))) ;;;
     do endTime <- perform DateNow ;;
     let responseTime := (endTime - startTime)%Z in
     await (recordMetric "S3ResponseTime" responseTime "Milliseconds" []) ;;;
     await (recordMetric "S3HealthCheck" 1 "Count" []) ;;;
     Return (health_ok responseTime))
    (fun error =>
       perform (Console "S3 health check failed") ;;;
       await (recordMetric "S3HealthCheck" 0 "Count" []) ;;;
       Return (health_failed error)).

Definition checkCloudFrontHealth : Async HealthResult :=
  try_catch
    (do cdnDomain <- perform (ProcessEnvGet "CLOUDFRONT_DOMAIN") ;;
     match cdnDomain with
     | None | Some EmptyString =>
         Return (mkHealth true (Some 0%Z) None (Some "CDN not configured"))
     | Some cdnDomain =>
         do startTime <- perform DateNow ;;
         do response <-
           perform (Send (FetchHead ("https://" +:+ cdnDomain +:+ "/health-check"))) ;;
         do endTime <- perform DateNow ;;
         let responseTime := (endTime - startTime)%Z in
         let healthy := Nat.ltb (status response) 500 in
         await (recordMetric "CloudFrontResponseTime" responseTime "Milliseconds" []) ;;;
         await (recordMetric "CloudFrontHealthCheck" (if healthy then 1 else 0)%Z "Count" []) ;;;
         Return (mkHealth healthy (Some responseTime) None None)
     end)
    (fun error =>
       perform (Console "CloudFront health check failed") ;;;
       await (recordMetric "CloudFrontHealthCheck" 0 "Count" []) ;;;
       Return (health_failed error)).

(** What a failover action returns: [{ success, mode, fallbackRegion }]. *)
Record FailoverResult := mkFailover {
  success : bool;
  mode : option string;
  fallbackRegion : option string
}.

Definition pollyFailover (error : option string) : Async FailoverResult :=
  perform (Console "Implementing Polly failover...") ;;;
  try_catch
    ((* Try alternative region *)
     let fallbackRegion := "us-east-1" in
     perform Tick ;;;      (* await import("@aws-sdk/client-polly") *)
     perform (Send (SynthesizeSpeech fallbackRegion (health_check_params "Failover test"))) ;;;
     perform (Console "Polly failover successful") ;;;
     (* Update configuration to use fallback region *)
     perform (ProcessEnvSet "POLLY_FALLBACK_REGION" fallbackRegion) ;;;
     Return (mkFailover true None (Some fallbackRegion)))
    (fun fallbackError =>
       perform (Console "Polly failover failed") ;;;
       (* Ultimate fallback: use cached audio only *)
       perform (ProcessEnvSet "POLLY_FALLBACK_MODE" "cache_only") ;;;
       Return (mkFailover false (Some "cache_only") None)).

Definition transcribeFailover (error : option string) : Async FailoverResult :=
  perform (Console "Implementing Transcribe failover...") ;;;
  try_catch
    ((* Switch to alternative region *)
     let fallbackRegion := "us-east-1" in
     perform (Console "Transcribe failover successful") ;;;
     perform (ProcessEnvSet "TRANSCRIBE_FALLBACK_REGION" fallbackRegion) ;;;
     Return (mkFailover true None (Some fallbackRegion)))
    (fun fallbackError =>
       perform (Console "Transcribe failover failed") ;;;
       (* Disable voice command processing temporarily *)
       perform (ProcessEnvSet "VOICE_COMMANDS_ENABLED" "false") ;;;
       Return (mkFailover false (Some "disabled") None)).

Definition s3Failover (error : option string) : Async FailoverResult :=
  perform (Console "Implementing S3 failover...") ;;;
  try_catch
    ((* Use in-memory cache only *)
     perform (ProcessEnvSet "USE_S3_CACHE" "false") ;;;
     perform (ProcessEnvSet "CACHE_MODE" "memory_only") ;;;
     perform (Console "S3 failover: switched to memory-only caching") ;;;
     Return (mkFailover true (Some "memory_only") None))
    (fun fallbackError =>
       perform (Console "S3 failover failed") ;;;
       Return (mkFailover false None None)).

Definition cloudFrontFailover (error : option string) : Async FailoverResult :=
  perform (Console "Implementing CloudFront failover...") ;;;
  try_catch
    ((* Switch to direct S3 access *)
     perform (ProcessEnvSet "USE_CLOUDFRONT" "false") ;;;
     perform (ProcessEnvSet "AUDIO_DELIVERY_MODE" "direct_s3") ;;;
     perform (Console "CloudFront failover: switched to direct S3 delivery") ;;;
     Return (mkFailover true (Some "direct_s3") None))
    (fun fallbackError =>
       perform (Console "CloudFront failover failed") ;;;
       Return (mkFailover false None None)).

(** Send failover alert *)
Definition sendFailoverAlert (service : string) (error : option string) : Async unit :=
  try_catch
    (do topicArn <- perform (ProcessEnvGet "SNS_ALERT_TOPIC_ARN") ;;
     match topicArn with
     | None | Some EmptyString =>
         perform (Console "SNS topic not configured for alerts")
     | Some topicArn =>
         perform (Send (Publish topicArn
                          ("Safety Alert System - Service Failover: " +:+ service)
                          service (template error))) ;;;
         perform (Console "Failover alert sent")
     end)
    (fun error => perform (Console "Error sending failover alert")).

(** The own properties of the object literal [failoverActions]. *)
Definition failoverActions (service : string)
    : option (option string -> Async FailoverResult) :=
  if String.eqb service "polly" then Some pollyFailover
  else if String.eqb service "transcribe" then Some transcribeFailover
  else if String.eqb service "s3-cache" then Some s3Failover
  else if String.eqb service "cloudfront" then Some cloudFrontFailover
  else None.

Definition TypeError (message : string) : JsError := mkError "TypeError" message.

(** The properties [failoverActions] inherits from [Object.prototype], each
    with the outcome of calling it as [failoverActions[service](error)] on
    a string or [undefined].  All of them are truthy.  [__proto__] is an
    object and no function; [__defineGetter__] and [__defineSetter__] want
    a function as their second argument; the others return a value that is
    no promise. *)
Definition Object_prototype (name : string) : option (Outcome unit) :=
  if String.eqb name "__proto__" then
    Some (Rejected (TypeError "failoverActions[service] is not a function"))
  else if String.eqb name "__defineGetter__" then
    Some (Rejected (TypeError "Object.prototype.__defineGetter__: Expecting function"))
  else if String.eqb name "__defineSetter__" then
    Some (Rejected (TypeError "Object.prototype.__defineSetter__: Expecting function"))
  else if existsb (String.eqb name)
            ["constructor"; "hasOwnProperty"; "isPrototypeOf"; "propertyIsEnumerable";
             "toLocaleString"; "toString"; "valueOf";
             "__lookupGetter__"; "__lookupSetter__"] then
    Some (Resolved tt)
  else None.

(** Failover logic for different services *)
Definition triggerFailover (service : string) (error : option string) : Async unit :=
  perform (Console ("Triggering failover for service: " +:+ service)) ;;;
  match failoverActions service with
  | Some action => await (action error) ;;; Return tt
  | None =>
      match Object_prototype service with
      | Some (Resolved _) => await (Return tt)
      | Some (Rejected e) => Throw e
      | None => Return tt
      end
  end ;;;
  (* Send alert notification *)
  await (sendFailoverAlert service error) ;;;
  (* Record failover event *)
  await (recordMetric "ServiceFailover" 1 "Count" [("ServiceName", service)]).

(** The [switch] over the service name. *)
Definition check_of (service : string) : Async HealthResult :=
  if String.eqb service "polly" then await checkPollyHealth
  else if String.eqb service "transcribe" then await checkTranscribeHealth
  else if String.eqb service "s3-cache" then await checkS3Health
  else if String.eqb service "cloudfront" then await checkCloudFrontHealth
  else Throw (mkError "TypeError" "Cannot read properties of undefined").

Definition probed_services : list string :=
  ["polly"; "transcribe"; "s3-cache"; "cloudfront"].

(** The body of the loop of [performHealthCheck] for one service. *)
Definition checkService (service : string) (healthResults : JsMapOf HealthResult)
    : Async (JsMapOf HealthResult) :=
  try_catch
    (do result <- check_of service ;;
     let healthResults := JsMap.set service result healthResults in
     (* Update service status *)
     (if healthy result then
        perform (UpdateMonitor (with_consecutiveFailures (JsMap.set service (Num 0)))) ;;;
        perform (UpdateMonitor (with_serviceStatus (JsMap.set service Healthy)))
      else
        do this <- perform ReadMonitor ;;
        let failures := js_succ (JsMap.get service (consecutiveFailures this)) in
        perform (UpdateMonitor (with_consecutiveFailures (JsMap.set service failures))) ;;;
        if js_ge failures (failoverThreshold this) then
          perform (UpdateMonitor (with_serviceStatus (JsMap.set service Failed))) ;;;
          await (triggerFailover service (error result))
        else
          perform (UpdateMonitor (with_serviceStatus (JsMap.set service Degraded)))) ;;;
     Return healthResults)
    (fun error =>
       perform (Console ("Health check failed for " +:+ service)) ;;;
       Return (JsMap.set service (health_failed error) healthResults)).

(** Comprehensive health check *)
Definition performHealthCheck : Async (JsMapOf HealthResult) :=
  fold_left
    (fun acc service => do healthResults <- acc ;; checkService service healthResults)
    probed_services (Return []).

(** Manual failover trigger *)
Definition manualFailover (service : string) (reason : string) : Async unit :=
  perform (Console ("Manual failover triggered for " +:+ service)) ;;;
  await (triggerFailover service (Some reason)).

(** The state [initializeServices] sets up before the first health check. *)
Definition new_FailoverMonitoringService : FailoverMonitoringService :=
  let services := ["polly"; "transcribe"; "s3-cache"; "cloudfront"; "websocket"; "kafka"] in
  {| failoverThreshold := 3;
     consecutiveFailures :=
       fold_left (fun m service => JsMap.set service (Num 0) m) services [];
     serviceStatus :=
       fold_left (fun m service => JsMap.set service Healthy m) services [] |}.

(** The process right after both objects are constructed. *)
Definition initial_world : World :=
  {| cache := new_SmartAudioCache;
     monitor := new_FailoverMonitoringService;
     process_env := ∅;
     files := mkDisk ∅ ∅;
     console := [];
     requests := [] |}.

(** ** Scenarios and summaries used in the statements below *)

Definition with_maxMemoryCache (n : nat) (c : SmartAudioCache) : SmartAudioCache :=
  {| memoryCache := memoryCache c; diskCache := diskCache c;
     s3Cache := s3Cache c; maxMemoryCache := n;
     maxDiskCache := maxDiskCache c; cacheExpiry := cacheExpiry c;
     diskCachePath := diskCachePath c; stats := stats c |}.

(** What [storeInMemoryCache] leaves in [this.memoryCache]. *)
Definition memory_after_store (cacheKey : string) (entry : MemEntry)
    (c : SmartAudioCache) : JsMapOf MemEntry :=
  JsMap.set cacheKey entry
    (if Nat.leb (maxMemoryCache c) (JsMap.size (memoryCache c))
     then delete_key (head (JsMap.keys (memoryCache c))) (memoryCache c)
     else memoryCache c).

(** A sequence of puts into the memory tier, each at its own time. *)
Definition puts (ops : list (Env * (string * Buffer))) (w : World) : World :=
  fold_left
    (fun w '(env, (cacheKey, audioBuffer)) =>
       final (run env (storeInMemoryCache cacheKey audioBuffer) w []))
    ops w.

(** Capacity 2: put A, put B, get A, put C. *)
Definition lru_scenario : Async (option Buffer) :=
  storeInMemoryCache "A" "a" ;;;
  storeInMemoryCache "B" "b" ;;;
  do hit <- checkMemoryCache "A" ;;
  storeInMemoryCache "C" "c" ;;;
  Return hit.

(** The probes a lookup makes, in order, each in the world its predecessor
    left. *)
Section Lookup.
Variables (env : Env) (text voiceId : string) (options : Options) (w : World).

Let key := generateCacheKey text voiceId options.

Definition memory_probe : Final (option Buffer) :=
  run env (checkMemoryCache key) (with_cache (with_stats incr_totalRequests) w) [].

Definition disk_probe : Final (option Buffer) :=
  run env (checkDiskCache key) (final memory_probe) (pending memory_probe).

Definition remote_probe : Final (option Buffer) :=
  run env (checkS3Cache key) (final disk_probe) (pending disk_probe).

(** The lookup found nothing: memory and disk miss, and the remote tier
    is switched off or misses too. *)
Definition all_tiers_miss : Prop :=
  outcome memory_probe = Resolved None /\
  outcome disk_probe = Resolved None /\
  (s3Cache (cache (final disk_probe)) = false \/
   outcome remote_probe = Resolved None).

(** The world in which generation starts after such a lookup. *)
Definition world_at_generation : World :=
  with_console (fun l => l ++ ["Generating new audio"])
    (with_cache (with_stats incr_misses)
       (if s3Cache (cache (final disk_probe)) then final remote_probe
        else final disk_probe)).

Definition generation : Final Buffer :=
  run env (generatePollyAudio text voiceId options) world_at_generation
    (if s3Cache (cache (final disk_probe)) then pending remote_probe
     else pending disk_probe).
End Lookup.

(** ** Path conditions

    [spec Q m] holds when, whatever a [good] environment answers and whatever
    world satisfying [Inv] the task finds at each operation, every operation
    of [m] keeps [Inv], every call that is not awaited starts a task
    satisfying [spec Qbg], and [m] ends with an outcome [o] after remote
    requests of total weight [n] such that [Q n o]. *)
Section Spec.
Variable good : Env -> Prop.
Variable cw : Command -> nat.
Variable Inv : World -> Prop.
Variable Qbg : nat -> Outcome unit -> Prop.

Definition weight {R} (op : Op R) : nat :=
  match op with
  | Send c => cw c
  | _ => 0
  end.

Definition cost (l : list Command) : nat := list_sum (map cw l).

Fixpoint spec {A : Type} (Q : nat -> Outcome A -> Prop) (m : Async A) : Prop :=
  match m with
  | Return a => Q 0 (Resolved a)
  | Throw e => Q 0 (Rejected e)
  | Perform op k =>
      forall env w, good env -> Inv w ->
        Inv (effect env op w) /\
        spec (fun n o => Q (weight op + n) o) (k (response env op w))
  | Spawn bg k => spec Qbg bg /\ spec Q k
  end.
End Spec.

(** ** The event loop: several callers in flight *)

Record Loop := mkLoop {
  loop_world : World;
  callers : list (Async AudioResult);
  background : list (Async unit)
}.

(** Calls made one after another within one turn: each runs to its first
    suspension point before the next one starts. *)
Fixpoint launch (env : Env) (calls : list (Async AudioResult)) (l : Loop) : Loop :=
  match calls with
  | [] => l
  | m :: rest =>
      let t := run_sync env m (loop_world l) (background l) in
      launch env rest (mkLoop (world t) (callers l ++ [task t]) (spawned t))
  end.

Inductive Who := Caller (i : nat) | Background (j : nat).

(** A later turn of the loop, given to one suspended task. *)
Definition turn (env : Env) (who : Who) (l : Loop) : Loop :=
  match who with
  | Caller i =>
      match callers l !! i with
      | Some m =>
          let t := resume env m (loop_world l) (background l) in
          mkLoop (world t) (<[i := task t]> (callers l)) (spawned t)
      | None => l
      end
  | Background j =>
      match background l !! j with
      | Some m =>
          let t := resume env m (loop_world l) (background l) in
          mkLoop (world t) (callers l) (<[j := task t]> (spawned t))
      | None => l
      end
  end.

Definition play (schedule : list (Env * Who)) (l : Loop) : Loop :=
  fold_left (fun l '(env, who) => turn env who l) schedule l.

Definition settled {A} (m : Async A) : bool :=
  match m with
  | Return _ | Throw _ => true
  | _ => false
  end.

(** Invocations of the generator are the speech requests sent to Polly. *)
Definition is_synthesis (c : Command) : nat :=
  match c with
  | SynthesizeSpeech _ _ => 1
  | _ => 0
  end.

Definition generator_calls (w : World) : nat := cost is_synthesis (requests w).

(** An environment in which the remote tier has no object and Polly
    synthesizes [audio]. *)
Definition cold_remote (audio : Buffer) (env : Env) : Prop :=
  (forall bucket key, exists e, service env (HeadObject bucket key) = Rejected e) /\
  (forall region params, exists r,
      service env (SynthesizeSpeech region params) = Resolved r /\
      stream_error (AudioStream r) = None /\
      Buffer_concat (chunks (AudioStream r)) = audio).

(** A caller that still has to end as a generated result, [d] of its
    generator calls being already answered. *)
Definition generates (result : AudioResult) (n : nat) (o : Outcome AudioResult) : Prop :=
  n = 1 /\ o = Resolved result.

Definition quiet (n : nat) (_ : Outcome unit) : Prop := n = 0.

(** What is known of the callers in flight: [issued] tells, for each, how
    many of its generator calls have been answered. *)
Definition in_flight (audio : Buffer) (result : AudioResult) (base : nat)
    (issued : list nat) (l : Loop) : Prop :=
  Forall2
    (fun d m =>
       spec (cold_remote audio) is_synthesis (fun _ => True) quiet
         (fun n o => generates result (d + n) o) m)
    issued (callers l) /\
  Forall (spec (cold_remote audio) is_synthesis (fun _ => True) quiet quiet) (background l) /\
  generator_calls (loop_world l) = base + list_sum issued.

(** ** Concrete environments and runs *)

Definition no_stream : Stream := mkStream [] None.
Definition empty_response : Response := mkResponse 0 no_stream no_stream 200.
Definition NotFound : JsError := mkError "NotFound" "The specified key does not exist.".

(** At time [t]: the bucket is empty, Polly answers "abc" in two chunks,
    every other service answers, and the file system has no fault. *)
Definition cold_env (t : Z) : Env :=
  {| now := t;
     service := fun c =>
       match c with
       | SynthesizeSpeech _ _ =>
           Resolved (mkResponse 0 no_stream (mkStream ["ab"; "c"] None) 200)
       | HeadObject _ _ | GetObject _ _ => Rejected NotFound
       | _ => Resolved empty_response
       end;
     fs_fault := fun _ => None |}.

(** Two callers ask for the same alert in the same turn and are then
    resumed in alternation. *)
Definition two_callers : Loop :=
  launch (cold_env 0)
    (repeat (getAudioWithCache "Emergency alert" "Joanna" no_options) 2)
    (mkLoop initial_world [] []).

Definition alternate : list (Env * Who) :=
  concat (repeat [(cold_env 1, Caller 0); (cold_env 1, Caller 1)] 12).

(** A read of the remote tier that fails: the metadata request, the object
    request or the object's stream. *)
Definition remote_read_error (env : Env) (w : World) (cacheKey : string) : Prop :=
  let bucketName := bucketName_of (process_env w !! "AUDIO_CACHE_BUCKET") in
  let key := "audio-cache/" +:+ cacheKey +:+ ".mp3" in
  (exists e, service env (HeadObject bucketName key) = Rejected e) \/
  (exists e, service env (GetObject bucketName key) = Rejected e) \/
  (exists r e, service env (GetObject bucketName key) = Resolved r /\
               stream_error (Body r) = Some e).

(** A background task that absorbs whatever happens to it. *)
Definition absorbed (_ : nat) (o : Outcome unit) : Prop := o = Resolved tt.

Definition anything {A} (_ : nat) (_ : Outcome A) : Prop := True.

(** At time [t]: every request to S3 fails with an error that is not a
    missing key, no file can be written, and Polly answers "abc". *)
Definition ServiceUnavailable : JsError := mkError "ServiceUnavailable" "Please reduce your request rate.".
Definition ENOSPC : JsError := mkError "Error" "ENOSPC: no space left on device".

Definition broken_env (t : Z) : Env :=
  {| now := t;
     service := fun c =>
       match c with
       | SynthesizeSpeech _ _ =>
           Resolved (mkResponse 0 no_stream (mkStream ["ab"; "c"] None) 200)
       | HeadObject _ _ | GetObject _ _ | PutObject _ _ _ | HeadBucket _ =>
           Rejected ServiceUnavailable
       | _ => Resolved empty_response
       end;
     fs_fault := fun call =>
       match call with
       | FsWrite _ => Some ENOSPC
       | _ => None
       end |}.

(** A lookup that hits at a tier slower than memory. *)
Definition hits_below_memory (env : Env) (text voiceId : string) (options : Options)
    (w : World) (tier : Source) (payload : Buffer) : Prop :=
  outcome (memory_probe env text voiceId options w) = Resolved None /\
  match tier with
  | disk => outcome (disk_probe env text voiceId options w) = Resolved (Some payload)
  | s3 =>
      outcome (disk_probe env text voiceId options w) = Resolved None /\
      s3Cache (cache (final (disk_probe env text voiceId options w))) = true /\
      outcome (remote_probe env text voiceId options w) = Resolved (Some payload)
  | _ => False
  end.

(** The parts of the cache object that writing to disk leaves alone. *)
Definition same_memory (w0 w : World) : Prop :=
  memoryCache (cache w) = memoryCache (cache w0) /\
  cacheExpiry (cache w) = cacheExpiry (cache w0) /\
  diskCachePath (cache w) = diskCachePath (cache w0).

(** At time [t]: the bucket holds "abc", last modified at time 0. *)
Definition warm_env (t : Z) : Env :=
  {| now := t;
     service := fun c =>
       match c with
       | GetObject _ _ => Resolved (mkResponse 0 (mkStream ["a"; "bc"] None) no_stream 200)
       | _ => Resolved empty_response
       end;
     fs_fault := fun _ => None |}.

(** A world whose disk tier holds "abc" for the alert, written at time 0,
    and whose memory tier is empty. *)
Definition disk_only_world : World :=
  final (run (cold_env 0)
           (storeToDiskCache (generateCacheKey "Emergency alert" "Joanna" no_options) "abc")
           initial_world []).

(** The alert of the running examples and its key. *)
Definition alert_key : string := generateCacheKey "Emergency alert" "Joanna" no_options.

(** Memory and disk hold "abc" for the alert, stored at time 0. *)
Definition stocked_world : World :=
  final (run (cold_env 0) (storeInAllCaches alert_key "abc") initial_world []).

(** The configured time to live, in milliseconds. *)
Definition TTL : Z := cacheExpiry new_SmartAudioCache.

(** ** Health of one dependency *)

Definition trigger_line (service : string) : string :=
  "Triggering failover for service: " +:+ service.

(** How often the failover of [service] has been triggered so far. *)
Definition failovers (service : string) (w : World) : nat :=
  length (filter (fun line => String.eqb line (trigger_line service) = true) (console w)).

Definition counter (service : string) (w : World) : option JsNum :=
  JsMap.get service (consecutiveFailures (monitor w)).

Definition status_of (service : string) (w : World) : option Status :=
  JsMap.get service (serviceStatus (monitor w)).

(** [n] health checks in a row, the [i]-th at time [i], in an environment
    in which S3 is down. *)
Fixpoint checks_with_s3_down (n : nat) (w : World) : World :=
  match n with
  | O => w
  | S n' =>
      final (run (broken_env (Z.of_nat n)) performHealthCheck (checks_with_s3_down n' w) [])
  end.

(** Whether a lookup asked the remote tier for an object. *)
Definition probes_remote (l : list Command) : bool :=
  existsb (fun c => match c with HeadObject _ _ | GetObject _ _ => true | _ => false end) l.

(** What a health probe and the actions of a failover leave alone: the
    monitoring object, the cache object and the number of failovers
    triggered. *)
Definition untouched (service : string) (w0 w : World) : Prop :=
  monitor w = monitor w0 /\ cache w = cache w0 /\
  failovers service w = failovers service w0.

Definition resolved {A} (_ : nat) (o : Outcome A) : Prop := exists a, o = Resolved a.

(** The probe of one health check. *)
Definition probe (env : Env) (service : string) (w : World) : Final HealthResult :=
  run env (check_of service) w [].

(** ** Shape of a key *)

Definition is_hex (c : ascii) : bool :=
  existsb (Ascii.eqb c) (list_ascii_of_string "0123456789abcdef").

(** A key as [generateCacheKey] makes it: 32 hexadecimal digits. *)
Definition is_cache_key (key : string) : bool :=
  Nat.eqb (String.length key) 32 && forallb is_hex (list_ascii_of_string key).

(** The alerts [preCacheCommonAlerts] caches at startup. *)
Definition commonAlerts : list string :=
  ["Emergency alert activated";
   "Weather warning issued";
   "Traffic alert in your area";
   "System maintenance notification";
   "Alert acknowledged";
   "Emergency services contacted"].

(** * The rest of the two services

    Pre-caching, the disk tier and its clean-up, the data that is hashed
    into a key, the monitoring round and the status report. *)

Definition voices : list string := ["Joanna"; "Matthew"; "Amy"].

(** The body of the inner loop of [preCacheCommonAlerts]. *)
Definition preCacheAlert (alert voice : string) : Async unit :=
  try_catch
    (await (getAudioWithCache alert voice no_options) ;;; Return tt)
    (fun error => perform (Console "Pre-cache failed")).

(** Pre-cache common alerts *)
Definition preCacheCommonAlerts : Async unit :=
  perform (Console "Pre-caching common alerts...") ;;;
  fold_right
    (fun alert rest =>
       fold_right (fun voice inner => preCacheAlert alert voice ;;; inner)
         (Return tt) voices ;;;
       rest)
    (Return tt) commonAlerts ;;;
  perform (Console "Pre-caching completed").

(** The counters after a lookup that ended with [o]. *)
Definition counted (o : Outcome AudioResult) (s : Stats) : Stats :=
  match o with
  | Resolved r =>
      match source r with
      | memory => incr_memoryHits
      | disk => incr_diskHits
      | s3 => incr_s3Hits
      | generated => incr_misses
      end (incr_totalRequests s)
  | Rejected _ => incr_misses (incr_totalRequests s)
  end.

(** The stores of [storeInAllCaches] that follow the store in memory. *)
Definition slower_stores (cacheKey : string) (audioBuffer : Buffer) : Async unit :=
  await (storeToDiskCache cacheKey audioBuffer) ;;;
  do this <- perform ReadCache ;;
  if s3Cache this then
    Spawn (try_catch (storeToS3Cache cacheKey audioBuffer)
             (fun err => perform (Console "S3 cache store failed")))
          (Return tt)
  else Return tt.

(** Lookups answered so far, from a tier or by generation. *)
Definition answered (s : Stats) : nat :=
  memoryHits s + diskHits s + s3Hits s + misses s.

(** The memory tier holds no more than its capacity, which is positive. *)
Definition memory_bounded (w : World) : Prop :=
  0 < maxMemoryCache (cache w) /\
  JsMap.size (memoryCache (cache w)) <= maxMemoryCache (cache w).

(** A task that resolves from every world, its effect on the world being
    related to the world before by [P d]. *)
Definition steps (env : Env) (P : nat -> World -> World -> Prop) (d : nat)
    (m : Async unit) : Prop :=
  forall w pool,
    outcome (run env m w pool) = Resolved tt /\ P d w (final (run env m w pool)).

(** The world [w'] after [n] more lookups than [w] has seen. *)
Definition after_lookups (n : nat) (w w' : World) : Prop :=
  totalRequests (stats (cache w')) = totalRequests (stats (cache w)) + n /\
  answered (stats (cache w')) = answered (stats (cache w)) + n /\
  (memory_bounded w -> memory_bounded w').

(** A file system that refuses nothing. *)
Definition healthy_fs (env : Env) : Prop := forall call, fs_fault env call = None.

(** A file system that lets every file be removed. *)
Definition unlinks (env : Env) : Prop := forall path, fs_fault env (FsUnlink path) = None.

(** The two files the disk tier keeps for a key. *)
Definition filePath_of (w : World) (cacheKey : string) : string :=
  path_join (diskCachePath (cache w)) (cacheKey +:+ ".mp3").
Definition metaPath_of (w : World) (cacheKey : string) : string :=
  path_join (diskCachePath (cache w)) (cacheKey +:+ ".meta").

Definition with_maxDiskCache (n : nat) (c : SmartAudioCache) : SmartAudioCache :=
  {| memoryCache := memoryCache c; diskCache := diskCache c;
     s3Cache := s3Cache c; maxMemoryCache := maxMemoryCache c;
     maxDiskCache := n; cacheExpiry := cacheExpiry c;
     diskCachePath := diskCachePath c; stats := stats c |}.

(** A sequence of puts into the disk tier, each at its own time. *)
Definition disk_puts (ops : list (Env * (string * Buffer))) (w : World) : World :=
  fold_left
    (fun w '(env, (cacheKey, audioBuffer)) =>
       final (run env (storeToDiskCache cacheKey audioBuffer) w []))
    ops w.

(** The comparison of [cleanupExpiredEntries]: older than the time to live. *)
Definition outlived (env : Env) (w : World) (t : Z) : bool :=
  (cacheExpiry (cache w) <? now env - t)%Z.

(** What a loop of [delete]s over the entries [es] leaves of a map. *)
Definition sweep {V} (dead : V -> bool) (es : list (string * V)) (m : JsMapOf V)
    : JsMapOf V :=
  fold_left (fun m kv => if dead (snd kv) then JsMap.delete (fst kv) m else m) es m.

(** Memory and disk hold "abc" for the alert, stored at time 0, and "xyz"
    for a second key, stored a little later than the time to live. *)
Definition second_key : string := generateCacheKey "Weather warning issued" "Amy" no_options.
Definition restocked_world : World :=
  final (run (cold_env (TTL + 5)) (storeInAllCaches second_key "xyz") stocked_world []).

(** The string [generateCacheKey] feeds to the hash: [data]. *)
Definition cacheKeyData (text voiceId : string) (options : Options) : string :=
  JSON_stringify
    [("text", toLowerCase (trim text));
     ("voiceId", voiceId);
     ("engine", or_default (engine options) "neural");
     ("format", or_default (format options) "mp3")].

(** The value of a hexadecimal digit. *)
Definition hex_value (c : ascii) : nat :=
  let n := nat_of_ascii c in
  if Nat.leb 97 n then n - 87 else n - 48.

(** Reads back one character of a JSON string literal: the inverse of
    [json_char]. *)
Definition read_char (l : list ascii) : option (ascii * list ascii) :=
  match l with
  | [] => None
  | c :: rest =>
      if Ascii.eqb c backslash then
        match rest with
        | [] => None
        | t :: rest' =>
            if Ascii.eqb t "b" then Some (ascii_of_nat 8, rest')
            else if Ascii.eqb t "t" then Some (ascii_of_nat 9, rest')
            else if Ascii.eqb t "n" then Some (ascii_of_nat 10, rest')
            else if Ascii.eqb t "f" then Some (ascii_of_nat 12, rest')
            else if Ascii.eqb t "r" then Some (ascii_of_nat 13, rest')
            else if Ascii.eqb t "u" then
              match rest' with
              | _ :: _ :: h :: l :: rest'' =>
                  Some (ascii_of_nat (16 * hex_value h + hex_value l), rest'')
              | _ => None
              end
            else Some (t, rest')
        end
      else Some (c, rest)
  end.

(** The settings the failover actions write to [process.env]. *)
Definition failover_settings : list (string * string) :=
  [("POLLY_FALLBACK_REGION", "us-east-1");
   ("POLLY_FALLBACK_MODE", "cache_only");
   ("TRANSCRIBE_FALLBACK_REGION", "us-east-1");
   ("VOICE_COMMANDS_ENABLED", "false");
   ("USE_S3_CACHE", "false");
   ("CACHE_MODE", "memory_only");
   ("USE_CLOUDFRONT", "false");
   ("AUDIO_DELIVERY_MODE", "direct_s3")].

(** [process.env] in [w] differs from [process.env] in [w0] at most by
    failover settings that have been written. *)
Definition settings_between (w0 w : World) : Prop :=
  forall var,
    process_env w !! var = process_env w0 !! var \/
    exists value, In (var, value) failover_settings /\ process_env w !! var = Some value.

Definition answers {R} (o : Outcome R) : bool :=
  match o with
  | Resolved _ => true
  | Rejected _ => false
  end.

(** Whether the dependency behind a probed service answers its probe. *)
Definition reachable (env : Env) (w : World) (dependency : string) : bool :=
  if String.eqb dependency "polly" then
    answers (service env
               (SynthesizeSpeech monitor_region (health_check_params "Health check")))
  else if String.eqb dependency "transcribe" then true
  else if String.eqb dependency "s3-cache" then
    answers (service env
               (HeadBucket (bucketName_of (process_env w !! "AUDIO_CACHE_BUCKET"))))
  else if String.eqb dependency "cloudfront" then
    match process_env w !! "CLOUDFRONT_DOMAIN" with
    | None | Some EmptyString => true
    | Some cdnDomain =>
        match service env (FetchHead ("https://" +:+ cdnDomain +:+ "/health-check")) with
        | Resolved response => Nat.ltb (status response) 500
        | Rejected _ => false
        end
    end
  else false.

(** The callback [startHealthMonitoring] hands to [setInterval]. *)
Definition healthMonitoringRound : Async unit :=
  try_catch
    (do healthResults <- await performHealthCheck ;;
     perform (Console "Health check completed:") ;;;
     (* Record overall system health *)
     let overallHealth := forallb (fun entry => healthy (snd entry)) healthResults in
     await (recordMetric "SystemHealth" (if overallHealth then 1 else 0)%Z "Count" []))
    (fun error => perform (Console "Health monitoring error:")).

(** What [getSystemStatus] returns; the time stamp is kept as the instant
    its ISO string denotes. *)
Record SystemStatus := mkStatus {
  status_timestamp : Z;
  status_region : string;
  services : JsMapOf (Status * option JsNum)
}.

(** Get current system status *)
Definition getSystemStatus : Async SystemStatus :=
  do now <- perform DateNow ;;
  do this <- perform ReadMonitor ;;
  Return
    (mkStatus now monitor_region
       (fold_left
          (fun services '(service, serviceStatus) =>
             JsMap.set service
               (serviceStatus, JsMap.get service (consecutiveFailures this)) services)
          (JsMap.entries (serviceStatus this)) [])).

(** Rounds of the health monitor, one after the other, each at its own
    time. *)
Definition health_rounds (envs : list Env) (w : World) : World :=
  fold_left (fun w env => final (run env healthMonitoringRound w [])) envs w.

(** The services [initializeServices] registers. *)
Definition registered_services : list string :=
  ["polly"; "transcribe"; "s3-cache"; "cloudfront"; "websocket"; "kafka"].

(** The services whose status no health check can change: nothing probes
    the last two, and the probe of the first makes no request. *)
Definition never_failing : list string := ["transcribe"; "websocket"; "kafka"].

(** The properties the table of failover actions inherits that cannot be
    called as a failover action is called. *)
Definition uncallable_members : list string :=
  ["__proto__"; "__defineGetter__"; "__defineSetter__"].

(** A monitoring object that tracks the registered services, those that
    cannot fail being healthy. *)
Definition steady (m : FailoverMonitoringService) : Prop :=
  JsMap.keys (serviceStatus m) = registered_services /\
  JsMap.keys (consecutiveFailures m) = registered_services /\
  Forall
    (fun service =>
       JsMap.get service (serviceStatus m) = Some Healthy /\
       JsMap.get service (consecutiveFailures m) = Some (Num 0))
    never_failing.

(** A sequence of lookups, each run to completion at its own time. *)
Definition lookups (calls : list (Env * (string * string * Options))) (w : World) : World :=
  fold_left
    (fun w '(env, (text, voiceId, options)) =>
       final (run env (getAudioWithCache text voiceId options) w []))
    calls w.

(** The parts of the world that belong to the monitor, and those that belong
    to the cache. *)
Definition monitor_side (w : World) : FailoverMonitoringService * gmap string string :=
  (monitor w, process_env w).
Definition cache_side (w : World) : SmartAudioCache * Disk := (cache w, files w).

(** A task that has not asked for a synthesis. *)
Definition unbilled {A} (n : nat) (_ : Outcome A) : Prop := n = 0.

(** A task that has resolved without asking for a synthesis. *)
Definition free {A} (n : nat) (o : Outcome A) : Prop := n = 0 /\ exists a, o = Resolved a.

(** How often a lookup that ends with [o] has asked for a synthesis. *)
Definition billed (n : nat) (o : Outcome AudioResult) : Prop :=
  n = match o with
      | Resolved r => if fromCache r then 0 else 1
      | Rejected _ => 1
      end.

(** Polly answers every request with a stream that ends without an error. *)
Definition polly_answers (env : Env) : Prop :=
  forall region params, exists r,
    service env (SynthesizeSpeech region params) = Resolved r /\
    stream_error (AudioStream r) = None.

(** The memory tier: the map, its capacity and the time to live. *)
Definition memory_tier (w : World) : JsMapOf MemEntry * nat * Z :=
  (memoryCache (cache w), maxMemoryCache (cache w), cacheExpiry (cache w)).

(** While the cache warms up at time [t]: every entry of the memory tier
    was stored at [t], there are no more entries than lookups so far, and
    every key looked up so far has its entry. *)
Definition warming (t : Z) (done : list string) (w : World) : Prop :=
  Forall (fun entry => timestamp (snd entry) = t) (memoryCache (cache w)) /\
  JsMap.size (memoryCache (cache w)) <= length done /\
  Forall (fun key => JsMap.get key (memoryCache (cache w)) <> None) done.

(** The keys of the alerts [preCacheCommonAlerts] asks for, in the order
    of its two loops. *)
Definition commonKeys : list string :=
  flat_map (fun alert => map (fun voice => generateCacheKey alert voice no_options) voices)
    commonAlerts.


(** * Properties *)

(** ** Runs compose *)

Lemma run_bind : forall A (m : Async A) B (f : A -> Async B) env w pool,
  run env (bind m f) w pool =
  match outcome (run env m w pool) with
  | Resolved a => run env (f a) (final (run env m w pool)) (pending (run env m w pool))
  | Rejected e => mkFinal (Rejected e) (final (run env m w pool)) (pending (run env m w pool))
  end.
Proof.
  induction m as [A a | A e | A R op k IH | A bg IHbg k IHk]; intros; cbn; auto.
Qed.

Lemma run_try_catch : forall A (m : Async A) (h : JsError -> Async A) env w pool,
  run env (try_catch m h) w pool =
  match outcome (run env m w pool) with
  | Resolved a => run env m w pool
  | Rejected e => run env (h e) (final (run env m w pool)) (pending (run env m w pool))
  end.
Proof.
  induction m as [A a | A e | A R op k IH | A bg IHbg k IHk]; intros; cbn; auto.
Qed.

Lemma run_await : forall A (m : Async A) env w pool,
  run env (await m) w pool = run env m w pool.
Proof.
  induction m as [A a | A e | A R op k IH | A bg IHbg k IHk]; intros; cbn; auto.
Qed.

(** ** [Map] *)

Module JsMapFacts.
Section Facts.
Context {V : Type}.
Implicit Types (m : JsMapOf V) (k : string) (v : V).

Lemma get_set_eq k v m : JsMap.get k (JsMap.set k v m) = Some v.
Proof.
induction m as [|[k' v'] m IH]; cbn.
- now rewrite String.eqb_refl.
- destruct (String.eqb k k') eqn:E; cbn; rewrite E; auto.
Qed.

Lemma get_set_ne k k' v m :
k <> k' -> JsMap.get k' (JsMap.set k v m) = JsMap.get k' m.
Proof.
intros Hne. induction m as [|[k0 v0] m IH]; cbn.
- destruct (String.eqb k' k) eqn:E; auto.
apply String.eqb_eq in E. congruence.
- destruct (String.eqb k k0) eqn:E; cbn.
+ apply String.eqb_eq in E. subst k0.
  destruct (String.eqb k' k) eqn:E'; auto.
  apply String.eqb_eq in E'. congruence.
+ now rewrite IH.
Qed.

Lemma size_set_le k v m : JsMap.size (JsMap.set k v m) <= S (JsMap.size m).
Proof.
unfold JsMap.size. induction m as [|[k' v'] m IH]; cbn; [lia|].
destruct (String.eqb k k'); cbn; lia.
Qed.

(** Deleting the first key in iteration order drops the oldest entry. *)
Lemma delete_first_key m : delete_key (head (JsMap.keys m)) m = tail m.
Proof.
destruct m as [|[k v] m]; cbn; auto. now rewrite String.eqb_refl.
Qed.

Lemma get_delete_eq_head k v m : JsMap.get k (JsMap.delete k ((k, v) :: m)) = JsMap.get k m.
Proof. cbn. now rewrite String.eqb_refl. Qed.
End Facts.
End JsMapFacts.

(** ** Memory tier *)

Lemma run_storeInMemoryCache env cacheKey audioBuffer w pool :
  run env (storeInMemoryCache cacheKey audioBuffer) w pool =
  mkFinal (Resolved tt)
    (with_cache
       (fun c => with_memoryCache
          (fun _ => memory_after_store cacheKey (mkMemEntry audioBuffer (now env)) c) c)
       w)
    pool.
Proof.
  unfold storeInMemoryCache, memory_after_store. cbn.
  destruct (Nat.leb _ _) eqn:E; cbn;
    unfold with_cache, with_memoryCache; cbn; rewrite E; reflexivity.
Qed.

Lemma memory_after_store_size cacheKey entry c :
  0 < maxMemoryCache c ->
  JsMap.size (memoryCache c) <= maxMemoryCache c ->
  JsMap.size (memory_after_store cacheKey entry c) <= maxMemoryCache c.
Proof.
  intros Hpos Hinv. unfold memory_after_store.
  destruct (Nat.leb _ _) eqn:E.
  - apply Nat.leb_le in E.
    rewrite JsMapFacts.delete_first_key.
    etransitivity; [apply JsMapFacts.size_set_le|].
    unfold JsMap.size in *. destruct (memoryCache c); cbn in *; lia.
  - apply Nat.leb_gt in E.
    etransitivity; [apply JsMapFacts.size_set_le|]. lia.
Qed.

Lemma puts_cons env cacheKey audioBuffer ops w :
  puts ((env, (cacheKey, audioBuffer)) :: ops) w =
  puts ops (final (run env (storeInMemoryCache cacheKey audioBuffer) w [])).
Proof. reflexivity. Qed.

Lemma puts_capacity ops : forall w,
  maxMemoryCache (cache (puts ops w)) = maxMemoryCache (cache w).
Proof.
  induction ops as [|[env [k b]] ops IH]; intros w; [reflexivity|].
  rewrite puts_cons, run_storeInMemoryCache, IH. reflexivity.
Qed.

Lemma puts_bounded ops : forall w,
  0 < maxMemoryCache (cache w) ->
  JsMap.size (memoryCache (cache w)) <= maxMemoryCache (cache w) ->
  JsMap.size (memoryCache (cache (puts ops w))) <= maxMemoryCache (cache w).
Proof.
  induction ops as [|[env [k b]] ops IH]; intros w Hpos Hinv; [exact Hinv|].
  rewrite puts_cons, run_storeInMemoryCache.
  etransitivity; [apply IH|]; cbn; auto.
  now apply memory_after_store_size.
Qed.

(** C5.  Starting from an empty memory tier of positive capacity, after any
    sequence of [storeInMemoryCache] calls the number of entries in
    [memoryCache] is at most [maxMemoryCache]. *)
Theorem C5_memory_occupancy_bounded (w : World) (ops : list (Env * (string * Buffer))) :
  memoryCache (cache w) = [] ->
  0 < maxMemoryCache (cache w) ->
  JsMap.size (memoryCache (cache (puts ops w))) <= maxMemoryCache (cache (puts ops w)).
Proof.
  intros Hempty Hpos. rewrite puts_capacity.
  apply puts_bounded; auto. rewrite Hempty. cbn. lia.
Qed.

(** C5, at capacity 2 with three puts. *)
Lemma C5_memory_occupancy_bounded_witness :
  let w2 := with_cache (with_maxMemoryCache 2) initial_world in
  let ops := [(cold_env 0, ("A", "a")); (cold_env 1, ("B", "b")); (cold_env 2, ("C", "c"))] in
  JsMap.size (memoryCache (cache (puts ops w2))) <= maxMemoryCache (cache (puts ops w2)).
Proof.
  apply C5_memory_occupancy_bounded; [reflexivity | cbn; lia].
Defined.

(** A hit leaves the map as it is: the entry keeps its place in the
    iteration order. *)
Lemma checkMemoryCache_hit_keeps_world env cacheKey w pool payload :
  outcome (run env (checkMemoryCache cacheKey) w pool) = Resolved (Some payload) ->
  final (run env (checkMemoryCache cacheKey) w pool) = w.
Proof.
  unfold checkMemoryCache. cbn.
  destruct (JsMap.get _ _); cbn; [|discriminate].
  destruct (Z.ltb _ _); cbn; [auto|discriminate].
Qed.

(** C2.  With capacity 2, after put A, put B, get A (a hit), put C, the
    entry evicted is A, the one that was just read; B and C remain. *)
Theorem C2_eviction_drops_touched_entry (env : Env) :
  let w2 := with_cache (with_maxMemoryCache 2) initial_world in
  let r := run env lru_scenario w2 [] in
  outcome r = Resolved (Some "a") /\
  JsMap.keys (memoryCache (cache (final r))) = ["B"; "C"] /\
  JsMap.get "A" (memoryCache (cache (final r))) = None.
Proof.
  cbn. rewrite Z.sub_diag. cbn. auto.
Qed.

(** ** Key derivation *)

Lemma length_string_of_list_ascii (l : list ascii) :
  String.length (string_of_list_ascii l) = length l.
Proof. induction l; cbn; auto. Qed.

Lemma length_bytes_le n : forall x, length (MD5.bytes_le n x) = n.
Proof. induction n; intros x; cbn; auto. Qed.

Lemma bytes_le_range n : forall x,
  Forall (fun b => 0 <= b < 256)%Z (MD5.bytes_le n x).
Proof.
  induction n; intros x; cbn; constructor; auto.
  apply Z.mod_pos_bound. lia.
Qed.

Lemma digest_length msg : length (MD5.digest msg) = 16.
Proof. unfold MD5.digest. rewrite !length_app, !length_bytes_le. reflexivity. Qed.

Lemma digest_range msg : Forall (fun b => 0 <= b < 256)%Z (MD5.digest msg).
Proof. unfold MD5.digest. rewrite !Forall_app. repeat split; apply bytes_le_range. Qed.

Lemma hex_digit_is_hex d : (0 <= d < 16)%Z -> is_hex (MD5.hex_digit d) = true.
Proof.
  intros Hd.
  assert (H : In d [0; 1; 2; 3; 4; 5; 6; 7; 8; 9; 10; 11; 12; 13; 14; 15]%Z).
  { cbn. lia. }
  cbn in H. repeat (destruct H as [<-|H]; [reflexivity|]). contradiction.
Qed.

Lemma hex_of_bytes_length (bs : list Z) :
  length (concat (map MD5.hex_of_byte bs)) = 2 * length bs.
Proof. induction bs; cbn; auto. rewrite IHbs. lia. Qed.

Lemma hex_of_bytes_is_hex (bs : list Z) :
  Forall (fun b => 0 <= b < 256)%Z bs ->
  Forall (fun c => is_hex c = true) (concat (map MD5.hex_of_byte bs)).
Proof.
  induction 1 as [|b bs Hb _ IH]; cbn; constructor; [|constructor]; auto.
  - apply hex_digit_is_hex. split.
    + apply Z.div_pos; lia.
    + apply Z.div_lt_upper_bound; lia.
  - apply hex_digit_is_hex. apply Z.mod_pos_bound. lia.
Qed.

Lemma list_ascii_of_string_of_list_ascii (l : list ascii) :
  list_ascii_of_string (string_of_list_ascii l) = l.
Proof. induction l; cbn; congruence. Qed.

(** ** Strings and lists of characters *)

Lemma list_ascii_of_string_app (s t : string) :
  list_ascii_of_string (s +:+ t) = list_ascii_of_string s ++ list_ascii_of_string t.
Proof.
  induction s as [|c s IH]; [reflexivity|].
  change (String c s +:+ t) with (String c (s +:+ t)). cbn. now rewrite IH.
Qed.

Lemma list_ascii_of_string_inj (s t : string) :
  list_ascii_of_string s = list_ascii_of_string t -> s = t.
Proof.
  intros H. rewrite <- (string_of_list_ascii_of_string s), H.
  apply string_of_list_ascii_of_string.
Qed.

Lemma string_of_list_ascii_inj (l l' : list ascii) :
  string_of_list_ascii l = string_of_list_ascii l' -> l = l'.
Proof.
  intros H. rewrite <- (list_ascii_of_string_of_list_ascii l), H.
  apply list_ascii_of_string_of_list_ascii.
Qed.

(** ** [JSON.stringify] can be read back *)

Lemma read_char_json_char (c : ascii) (rest : list ascii) :
  read_char (json_char c ++ rest) = Some (c, rest).
Proof.
  destruct c as [[] [] [] [] [] [] [] []]; reflexivity.
Qed.

Lemma json_char_inj c c' rest rest' :
  json_char c ++ rest = json_char c' ++ rest' -> c = c' /\ rest = rest'.
Proof.
  intros H. apply (f_equal read_char) in H.
  rewrite !read_char_json_char in H. now injection H.
Qed.

Lemma json_char_is_no_quote (c : ascii) (rest : list ascii) :
  forall tail, json_char c ++ rest <> quote_char :: tail.
Proof.
  destruct c as [[] [] [] [] [] [] [] []]; intros tail; cbn; discriminate.
Qed.

Lemma json_chars_inj : forall (s s' : list ascii) rest rest',
  concat (map json_char s) ++ quote_char :: rest
  = concat (map json_char s') ++ quote_char :: rest' ->
  s = s' /\ rest = rest'.
Proof.
  induction s as [|c s IH]; intros [|c' s'] rest rest' H; cbn [map concat] in H.
  - cbn in H. injection H as ->. auto.
  - cbn [app] in H. rewrite <- app_assoc in H. symmetry in H.
    now apply json_char_is_no_quote in H.
  - cbn [app] in H. rewrite <- app_assoc in H.
    now apply json_char_is_no_quote in H.
  - rewrite <- !app_assoc in H. apply json_char_inj in H. destruct H as [-> H].
    apply IH in H. destruct H as [-> ->]. auto.
Qed.


(** ** [trim] and [toLowerCase] *)

Lemma trimStart_white (ws l : list ascii) :
  forallb is_space ws = true -> trimStart (ws ++ l) = trimStart l.
Proof.
  induction ws as [|c ws IH]; cbn; [reflexivity|].
  intros H. apply andb_prop in H. destruct H as [Hc Hws]. rewrite Hc. auto.
Qed.

Lemma trimStart_app (l x : list ascii) :
  (trimStart l = [] /\ trimStart (l ++ x) = trimStart x) \/
  (trimStart l <> [] /\ trimStart (l ++ x) = trimStart l ++ x).
Proof.
  induction l as [|c l IH]; cbn; [auto|].
  destruct (is_space c); [exact IH|]. right. split; [discriminate|reflexivity].
Qed.

Lemma trim_padded (before text after : string) :
  white_space before = true -> white_space after = true ->
  trim (before +:+ text +:+ after) = trim text.
Proof.
  unfold white_space, trim. intros Hb Ha.
  rewrite !list_ascii_of_string_app, trimStart_white by exact Hb.
  f_equal. f_equal.
  destruct (trimStart_app (list_ascii_of_string text) (list_ascii_of_string after))
    as [[Hnil ->]|[_ ->]].
  - rewrite Hnil. rewrite <- (app_nil_r (list_ascii_of_string after)).
    now rewrite trimStart_white.
  - rewrite rev_app_distr. apply trimStart_white.
    rewrite forallb_forall in *. intros c Hc. apply Ha. now apply in_rev.
Qed.

Lemma trimStart_map (f : ascii -> ascii) (l : list ascii) :
  (forall c, is_space (f c) = is_space c) ->
  trimStart (map f l) = map f (trimStart l).
Proof.
  intros Hf. induction l as [|c l IH]; cbn; [reflexivity|].
  rewrite Hf. destruct (is_space c); [exact IH|reflexivity].
Qed.

Lemma is_space_upper (c : ascii) : is_space (upper_ascii c) = is_space c.
Proof. destruct c as [[] [] [] [] [] [] [] []]; reflexivity. Qed.

Lemma is_space_lower (c : ascii) : is_space (lower_ascii c) = is_space c.
Proof. destruct c as [[] [] [] [] [] [] [] []]; reflexivity. Qed.

Lemma lower_upper (c : ascii) : lower_ascii (upper_ascii c) = lower_ascii c.
Proof. destruct c as [[] [] [] [] [] [] [] []]; reflexivity. Qed.

Lemma lower_lower (c : ascii) : lower_ascii (lower_ascii c) = lower_ascii c.
Proof. destruct c as [[] [] [] [] [] [] [] []]; reflexivity. Qed.

(** Changing the case of letters before the text is normalised changes
    nothing. *)
Lemma normalise_recased (f : ascii -> ascii) (text : string) :
  (forall c, is_space (f c) = is_space c) ->
  (forall c, lower_ascii (f c) = lower_ascii c) ->
  toLowerCase (trim (string_of_list_ascii (map f (list_ascii_of_string text))))
  = toLowerCase (trim text).
Proof.
  intros Hspace Hlower. unfold toLowerCase, trim.
  rewrite !list_ascii_of_string_of_list_ascii.
  rewrite (trimStart_map f), <- map_rev, (trimStart_map f), <- map_rev by exact Hspace.
  rewrite map_map. f_equal. apply map_ext. exact Hlower.
Qed.

(** ** What is hashed *)

Lemma cacheKeyData_inj text voiceId options text' voiceId' options' :
  cacheKeyData text voiceId options = cacheKeyData text' voiceId' options' ->
  toLowerCase (trim text) = toLowerCase (trim text') /\
  voiceId = voiceId' /\
  or_default (engine options) "neural" = or_default (engine options') "neural" /\
  or_default (format options) "mp3" = or_default (format options') "mp3".
Proof.
  unfold cacheKeyData, JSON_stringify. intros H.
  apply string_of_list_ascii_inj in H.
  unfold json_members, json_string in H.
  repeat (rewrite <- ?app_assoc in H; cbn [app] in H).
  injection H as H.
  apply json_chars_inj in H. destruct H as [Htext H]. injection H as H.
  apply json_chars_inj in H. destruct H as [Hvoice H]. injection H as H.
  apply json_chars_inj in H. destruct H as [Hengine H]. injection H as H.
  apply json_chars_inj in H. destruct H as [Hformat _].
  repeat split; now apply list_ascii_of_string_inj.
Qed.

Lemma or_default_given (s d : string) : s <> "" -> or_default (Some s) d = s.
Proof. destruct s; [congruence|reflexivity]. Qed.



(** Texts that differ in case and in surrounding white space share a key,
    and the key is the MD5 digest Node computes. *)
Example normalised_texts_share_a_key :
  generateCacheKey "  EMERGENCY Alert  " "Joanna" no_options
  = generateCacheKey "emergency alert" "Joanna" no_options /\
  generateCacheKey "Emergency alert" "Joanna" no_options = "1f8104e0401776a8d65ed9204ce519a5" /\
  MD5.hex "" = "d41d8cd98f00b204e9800998ecf8427e" /\
  MD5.hex "abc" = "900150983cd24fb0d6963f7d28e17f72".
Proof. vm_compute. auto. Qed.

(** ** Expiry *)

Lemma checkMemoryCache_expired env cacheKey w pool entry :
  JsMap.get cacheKey (memoryCache (cache w)) = Some entry ->
  (cacheExpiry (cache w) <= now env - timestamp entry)%Z ->
  outcome (run env (checkMemoryCache cacheKey) w pool) = Resolved None /\
  memoryCache (cache (final (run env (checkMemoryCache cacheKey) w pool)))
    = JsMap.delete cacheKey (memoryCache (cache w)).
Proof.
  intros Hget Hold. unfold checkMemoryCache. cbn. rewrite Hget. cbn.
  apply Z.ltb_ge in Hold. rewrite Hold. cbn. auto.
Qed.

(** An entry older than the time to live is a miss in every tier; memory and
    disk drop it, and the remote tier is only asked for its metadata. *)
Example older_than_ttl_is_a_miss :
  let env := warm_env (TTL + 1) in
  let m := run env (checkMemoryCache alert_key) stocked_world [] in
  let d := run env (checkDiskCache alert_key) stocked_world [] in
  let r := run env (checkS3Cache alert_key) stocked_world [] in
  outcome m = Resolved None /\ memoryCache (cache (final m)) = [] /\
  outcome d = Resolved None /\
  exists_on_disk (files (final d)) ("./cache/audio/" +:+ alert_key +:+ ".mp3") = false /\
  exists_on_disk (files (final d)) ("./cache/audio/" +:+ alert_key +:+ ".meta") = false /\
  outcome r = Resolved None /\
  requests (final r) =
    requests stocked_world ++
    [HeadObject "safety-alert-audio-cache" ("audio-cache/" +:+ alert_key +:+ ".mp3")].
Proof. vm_compute. repeat split. Qed.

(** C6.  An entry whose age equals the time to live is a miss in memory but
    is still served by the disk tier and by the remote tier, which compare
    with [>] where memory compares with [<]. *)
Theorem C6_age_equal_to_ttl_is_served_by_disk_and_remote :
  let env := warm_env TTL in
  outcome (run env (checkMemoryCache alert_key) stocked_world []) = Resolved None /\
  outcome (run env (checkDiskCache alert_key) stocked_world []) = Resolved (Some "abc") /\
  outcome (run env (checkS3Cache alert_key) stocked_world []) = Resolved (Some "abc").
Proof. vm_compute. repeat split. Qed.

(** ** The three probes never reject *)

Arguments checkMemoryCache : simpl never.
Arguments storeInMemoryCache : simpl never.
Arguments checkDiskCache : simpl never.
Arguments storeToDiskCache : simpl never.
Arguments checkS3Cache : simpl never.
Arguments storeToS3Cache : simpl never.
Arguments storeInAllCaches : simpl never.
Arguments generatePollyAudio : simpl never.
Arguments generateCacheKey : simpl never.

Lemma checkMemoryCache_resolves env cacheKey w pool :
  exists r, outcome (run env (checkMemoryCache cacheKey) w pool) = Resolved r.
Proof.
  unfold checkMemoryCache. cbn.
  destruct (JsMap.get _ _); cbn; eauto.
  destruct (Z.ltb _ _); cbn; eauto.
Qed.

Lemma checkDiskCache_resolves env cacheKey w pool :
  exists r, outcome (run env (checkDiskCache cacheKey) w pool) = Resolved r.
Proof.
  unfold checkDiskCache. rewrite run_try_catch.
  destruct (outcome (run _ _ _ _)) eqn:E; eauto.
Qed.

Lemma checkS3Cache_resolves env cacheKey w pool :
  exists r, outcome (run env (checkS3Cache cacheKey) w pool) = Resolved r.
Proof.
  unfold checkS3Cache. rewrite run_try_catch.
  destruct (outcome (run _ _ _ _)) eqn:E; eauto.
  destruct (_ || _); cbn; eauto.
Qed.

Lemma storeToDiskCache_resolves env cacheKey audioBuffer w pool :
  outcome (run env (storeToDiskCache cacheKey audioBuffer) w pool) = Resolved tt.
Proof.
  unfold storeToDiskCache. rewrite run_try_catch.
  destruct (outcome (run _ _ _ _)) as [[]|e] eqn:E; auto.
Qed.

Lemma storeToS3Cache_resolves env cacheKey audioBuffer w pool :
  outcome (run env (storeToS3Cache cacheKey audioBuffer) w pool) = Resolved tt.
Proof.
  unfold storeToS3Cache. rewrite run_try_catch.
  destruct (outcome (run _ _ _ _)) as [[]|e] eqn:E; auto.
Qed.

Lemma storeInAllCaches_resolves env cacheKey audioBuffer w pool :
  outcome (run env (storeInAllCaches cacheKey audioBuffer) w pool) = Resolved tt.
Proof.
  unfold storeInAllCaches.
  rewrite run_bind, run_storeInMemoryCache. cbn [outcome final pending].
  rewrite run_bind, run_await, storeToDiskCache_resolves.
  cbn. destruct (s3Cache _); reflexivity.
Qed.

(** ** The four ways a lookup can go *)

Section Paths.
Variables (env : Env) (text voiceId : string) (options : Options) (w : World).
Let key := generateCacheKey text voiceId options.
Let lookup := run env (getAudioWithCache text voiceId options) w [].
Let probeM := memory_probe env text voiceId options w.
Let probeD := disk_probe env text voiceId options w.
Let probeR := remote_probe env text voiceId options w.

Lemma lookup_memory_hit payload :
  outcome probeM = Resolved (Some payload) ->
  lookup =
  mkFinal (Resolved (mkResult payload memory key true))
    (with_console (fun l => l ++ ["Memory cache hit"])
       (with_cache (with_stats incr_memoryHits) (final probeM)))
    (pending probeM).
Proof.
  intros H. subst lookup probeM. unfold getAudioWithCache. cbn.
  rewrite run_try_catch, run_bind.
  fold key. unfold memory_probe in H. fold key in H. rewrite H.
  cbn. reflexivity.
Qed.

Lemma lookup_disk_hit payload :
  outcome probeM = Resolved None ->
  outcome probeD = Resolved (Some payload) ->
  lookup =
  mkFinal (Resolved (mkResult payload disk key true))
    (final (run env (storeInMemoryCache key payload)
              (with_console (fun l => l ++ ["Disk cache hit"])
                 (with_cache (with_stats incr_diskHits) (final probeD)))
              (pending probeD)))
    (pending probeD).
Proof.
  intros HM HD. subst lookup probeM probeD. unfold getAudioWithCache. cbn.
  rewrite run_try_catch, run_bind.
  fold key. unfold disk_probe, memory_probe in *. fold key in HM, HD. rewrite HM.
  rewrite run_bind, run_await, HD. cbn.
  rewrite run_bind, !run_storeInMemoryCache. cbn. reflexivity.
Qed.

Lemma lookup_remote_hit payload :
  outcome probeM = Resolved None ->
  outcome probeD = Resolved None ->
  s3Cache (cache (final probeD)) = true ->
  outcome probeR = Resolved (Some payload) ->
  lookup =
  mkFinal (Resolved (mkResult payload s3 key true))
    (final (run env (storeToDiskCache key payload)
              (final (run env (storeInMemoryCache key payload)
                 (with_console (fun l => l ++ ["S3 cache hit"])
                    (with_cache (with_stats incr_s3Hits) (final probeR)))
                 (pending probeR)))
              (pending probeR)))
    (pending (run env (storeToDiskCache key payload)
              (final (run env (storeInMemoryCache key payload)
                 (with_console (fun l => l ++ ["S3 cache hit"])
                    (with_cache (with_stats incr_s3Hits) (final probeR)))
                 (pending probeR)))
              (pending probeR))).
Proof.
  intros HM HD Hon HR. subst lookup probeM probeD probeR.
  unfold getAudioWithCache. cbn.
  rewrite run_try_catch, run_bind.
  fold key. unfold remote_probe, disk_probe, memory_probe in *.
  fold key in HM, HD, HR, Hon. rewrite HM.
  rewrite run_bind, run_await, HD. cbn. rewrite Hon.
  rewrite run_bind, run_bind, run_await, HR. cbn.
  rewrite run_bind, !run_storeInMemoryCache. cbn [outcome final pending].
  rewrite run_bind, run_await, !storeToDiskCache_resolves. cbn. reflexivity.
Qed.

Lemma lookup_all_miss :
  all_tiers_miss env text voiceId options w ->
  outcome lookup =
  match outcome (generation env text voiceId options w) with
  | Resolved audio => Resolved (mkResult audio generated key false)
  | Rejected e => Rejected e
  end.
Proof.
  intros (HM & HD & HR). subst lookup.
  unfold getAudioWithCache. cbn.
  rewrite run_try_catch, run_bind.
  unfold generation, world_at_generation, remote_probe, disk_probe, memory_probe in *.
  fold key in HM, HD, HR |- *. rewrite HM.
  rewrite run_bind, run_await, HD. cbn.
  destruct (s3Cache _) eqn:Hon.
  - destruct HR as [HR|HR]; [discriminate|].
    rewrite run_bind, run_bind, run_await, HR. cbn.
    rewrite run_bind, run_await.
    destruct (outcome (run env (generatePollyAudio _ _ _) _ _)) eqn:HG; cbn.
    + rewrite run_bind, run_await, storeInAllCaches_resolves. reflexivity.
    + reflexivity.
  - cbn. rewrite run_bind, run_await.
    destruct (outcome (run env (generatePollyAudio _ _ _) _ _)) eqn:HG; cbn.
    + rewrite run_bind, run_await, storeInAllCaches_resolves. reflexivity.
    + reflexivity.
Qed.
End Paths.

(** ** Remote reads *)

Lemma run_for_await env rest end_error : forall acc w pool,
  run env (for_await rest end_error acc) w pool =
  mkFinal
    match end_error with
    | Some e => Rejected e
    | None => Resolved (acc ++ rest)
    end w pool.
Proof.
  induction rest as [|c rest IH]; intros acc w pool; cbn.
  - destruct end_error; cbn; auto. now rewrite app_nil_r.
  - rewrite IH. destruct end_error; auto. now rewrite <- app_assoc.
Qed.

Lemma checkS3Cache_error_is_miss env w cacheKey pool :
  remote_read_error env w cacheKey ->
  outcome (run env (checkS3Cache cacheKey) w pool) = Resolved None.
Proof.
  intros Herr. unfold checkS3Cache. rewrite run_try_catch. cbn.
  destruct (service env (HeadObject _ _)) as [h|e] eqn:Hhead; cbn.
  - destruct (Z.ltb _ _); cbn; auto.
    destruct (service env (GetObject _ _)) as [g|e] eqn:Hget; cbn.
    + unfold collect. rewrite run_bind, run_for_await. cbn.
      destruct Herr as [[e He]|[[e He]|(r & e & Hr & He)]]; try congruence.
      replace r with g in He by congruence. rewrite He. cbn.
      destruct (_ || _); reflexivity.
    + destruct (_ || _); reflexivity.
  - destruct (_ || _); reflexivity.
Qed.

(** C10.  A lookup that misses memory and disk and whose remote read fails,
    at the metadata request, at the object request or in the object's
    stream, sees a remote miss and goes on to generation: its outcome is the
    outcome of the generation, and no remote read error reaches the caller.
    [checkS3Cache] never rejects. *)
Theorem C10_remote_read_errors_fall_through
    (env : Env) (text voiceId : string) (options : Options) (w : World) :
  let key := generateCacheKey text voiceId options in
  outcome (memory_probe env text voiceId options w) = Resolved None ->
  outcome (disk_probe env text voiceId options w) = Resolved None ->
  remote_read_error env (final (disk_probe env text voiceId options w)) key ->
  outcome (remote_probe env text voiceId options w) = Resolved None /\
  outcome (run env (getAudioWithCache text voiceId options) w []) =
    match outcome (generation env text voiceId options w) with
    | Resolved audio => Resolved (mkResult audio generated key false)
    | Rejected e => Rejected e
    end /\
  (forall cacheKey w' pool,
      exists r, outcome (run env (checkS3Cache cacheKey) w' pool) = Resolved r).
Proof.
  intros key HM HD Herr.
  assert (HR : outcome (remote_probe env text voiceId options w) = Resolved None).
  { unfold remote_probe. now apply checkS3Cache_error_is_miss. }
  split; [exact HR|]. split.
  - apply lookup_all_miss. unfold all_tiers_miss. auto.
  - intros. apply checkS3Cache_resolves.
Qed.

Lemma C10_remote_read_errors_fall_through_witness :
  let key := generateCacheKey "Emergency alert" "Joanna" no_options in
  outcome (remote_probe (broken_env 0) "Emergency alert" "Joanna" no_options initial_world)
    = Resolved None /\
  outcome (run (broken_env 0) (getAudioWithCache "Emergency alert" "Joanna" no_options)
             initial_world []) =
    match outcome (generation (broken_env 0) "Emergency alert" "Joanna" no_options
                     initial_world) with
    | Resolved audio => Resolved (mkResult audio generated key false)
    | Rejected e => Rejected e
    end /\
  (forall cacheKey w' pool,
      exists r, outcome (run (broken_env 0) (checkS3Cache cacheKey) w' pool) = Resolved r).
Proof.
  apply (C10_remote_read_errors_fall_through (broken_env 0) "Emergency alert" "Joanna"
           no_options initial_world).
  - vm_compute. reflexivity.
  - vm_compute. reflexivity.
  - left. exists ServiceUnavailable. reflexivity.
Defined.

(** ** Path conditions: rules and soundness *)

Section SpecRules.
Variable good : Env -> Prop.
Variable cw : Command -> nat.
Variable Inv : World -> Prop.
Variable Qbg : nat -> Outcome unit -> Prop.

Local Abbreviation spec := (spec good cw Inv Qbg).

Lemma spec_mono : forall A (m : Async A) (P Q : nat -> Outcome A -> Prop),
  (forall n o, P n o -> Q n o) -> spec P m -> spec Q m.
Proof.
  induction m as [A a | A e | A R op k IH | A bg IHbg k IHk]; intros P Q HPQ; cbn.
  - apply HPQ.
  - apply HPQ.
  - intros H env w Hg Hi. destruct (H env w Hg Hi) as [Hi' Hk]. split; auto.
    eapply IH; [|exact Hk]. cbn. intros. now apply HPQ.
  - intros [Hbg Hk]. split; auto. eapply IHk; eauto.
Qed.

Lemma spec_bind : forall A (m : Async A) B (f : A -> Async B)
    (P : nat -> Outcome A -> Prop) (Q : nat -> Outcome B -> Prop),
  spec P m ->
  (forall n a, P n (Resolved a) -> spec (fun n' o => Q (n + n') o) (f a)) ->
  (forall n e, P n (Rejected e) -> Q n (Rejected e)) ->
  spec Q (bind m f).
Proof.
  induction m as [A a | A e | A R op k IH | A bg IHbg k IHk];
    intros B f P Q Hm Hf He; cbn in *.
  - apply (Hf 0 a Hm).
  - apply (He 0 e Hm).
  - intros env w Hg Hi. destruct (Hm env w Hg Hi) as [Hi' Hk]. split; auto.
    eapply IH; [exact Hk| |].
    + intros n a HP. eapply spec_mono; [|apply (Hf _ _ HP)].
      cbn. intros n' o. now rewrite Nat.add_assoc.
    + intros n e HP. now apply He.
  - destruct Hm as [Hbg Hk]. split; auto. eapply IHk; eauto.
Qed.

Lemma spec_try_catch : forall A (m : Async A) (h : JsError -> Async A)
    (P Q : nat -> Outcome A -> Prop),
  spec P m ->
  (forall n a, P n (Resolved a) -> Q n (Resolved a)) ->
  (forall n e, P n (Rejected e) -> spec (fun n' o => Q (n + n') o) (h e)) ->
  spec Q (try_catch m h).
Proof.
  induction m as [A a | A e | A R op k IH | A bg IHbg k IHk];
    intros h P Q Hm Ha Hh; cbn in *.
  - apply (Ha 0 a Hm).
  - apply (Hh 0 e Hm).
  - intros env w Hg Hi. destruct (Hm env w Hg Hi) as [Hi' Hk]. split; auto.
    eapply IH; [exact Hk| |].
    + intros n a HP. now apply Ha.
    + intros n e HP. eapply spec_mono; [|apply (Hh _ _ HP)].
      cbn. intros n' o. now rewrite Nat.add_assoc.
  - destruct Hm as [Hbg Hk]. split; auto. eapply IHk; eauto.
Qed.

Lemma spec_await : forall A (m : Async A) (Q : nat -> Outcome A -> Prop),
  spec Q m -> spec Q (await m).
Proof.
  induction m as [A a | A e | A R op k IH | A bg IHbg k IHk]; intros Q Hm; cbn in *.
  - intros env w Hg Hi. auto.
  - intros env w Hg Hi. auto.
  - intros env w Hg Hi. destruct (Hm env w Hg Hi) as [Hi' Hk]. split; auto.
  - destruct Hm as [Hbg Hk]. split; auto.
Qed.

Lemma weight_sync R (op : Op R) : is_async op = false -> weight cw op = 0.
Proof. destruct op; cbn; auto; discriminate. Qed.

Lemma cost_effect env R (op : Op R) w :
  cost cw (requests (effect env op w)) = cost cw (requests w) + weight cw op.
Proof.
  unfold cost.
  destruct op; cbn [effect weight];
    try (rewrite Nat.add_0_r; reflexivity);
    try (rewrite Nat.add_0_r; destruct (fs_fault env _); reflexivity).
  cbn [requests with_requests].
  rewrite map_app, list_sum_app. cbn. lia.
Qed.

(** A turn keeps the path condition of the task, the invariant and the
    cost, and leaves in the background only tasks that satisfy theirs. *)
Lemma spec_run_sync : forall A (m : Async A) (Q : nat -> Outcome A -> Prop) env w pool,
  good env -> spec Q m -> Inv w ->
  spec Q (task (run_sync env m w pool)) /\
  Inv (world (run_sync env m w pool)) /\
  cost cw (requests (world (run_sync env m w pool))) = cost cw (requests w) /\
  (Forall (spec Qbg) pool -> Forall (spec Qbg) (spawned (run_sync env m w pool))).
Proof.
  induction m as [A a | A e | A R op k IH | A bg IHbg k IHk];
    intros Q env w pool Hg Hm Hi; cbn [run_sync].
  - cbn. auto.
  - cbn. auto.
  - destruct (is_async op) eqn:Ha.
    + cbn [task world spawned]. auto.
    + cbn in Hm. destruct (Hm env w Hg Hi) as [Hi' Hk].
      rewrite (weight_sync _ _ Ha) in Hk.
      destruct (IH _ _ env (effect env op w) pool Hg Hk Hi') as (H1 & H2 & H3 & H4).
      repeat split; auto.
      rewrite H3, cost_effect, (weight_sync _ _ Ha). lia.
  - destruct Hm as [Hbg Hk].
    destruct (IHbg _ env w pool Hg Hbg Hi) as (B1 & B2 & B3 & B4).
    destruct (IHk _ env (world (run_sync env bg w pool))
                (spawned (run_sync env bg w pool) ++ [task (run_sync env bg w pool)])
                Hg Hk B2) as (K1 & K2 & K3 & K4).
    repeat split; auto.
    + now rewrite K3.
    + intros Hp. apply K4, Forall_app. split; auto.
Qed.

(** One turn of the event loop given to a task. *)
Lemma spec_resume A (m : Async A) (Q : nat -> Outcome A -> Prop) env w pool :
  good env -> spec Q m -> Inv w ->
  exists d,
    spec (fun n o => Q (d + n) o) (task (resume env m w pool)) /\
    Inv (world (resume env m w pool)) /\
    cost cw (requests (world (resume env m w pool))) = cost cw (requests w) + d /\
    (Forall (spec Qbg) pool -> Forall (spec Qbg) (spawned (resume env m w pool))).
Proof.
  intros Hg Hm Hi. destruct m as [a | e | R op k | bg k]; cbn [resume].
  - exists 0. cbn. rewrite Nat.add_0_r. auto.
  - exists 0. cbn. rewrite Nat.add_0_r. auto.
  - cbn in Hm. destruct (Hm env w Hg Hi) as [Hi' Hk].
    destruct (spec_run_sync _ _ _ env (effect env op w) pool Hg Hk Hi')
      as (H1 & H2 & H3 & H4).
    exists (weight cw op). repeat split; auto.
    rewrite H3, cost_effect. lia.
  - destruct (spec_run_sync _ (Spawn bg k) Q env w pool Hg Hm Hi) as (H1 & H2 & H3 & H4).
    exists 0. repeat split; auto. rewrite H3. lia.
Qed.

(** A task run to completion ends as its path condition says. *)
Lemma spec_run : forall A (m : Async A) (Q : nat -> Outcome A -> Prop) env w pool,
  good env -> spec Q m -> Inv w ->
  exists n,
    Q n (outcome (run env m w pool)) /\
    Inv (final (run env m w pool)) /\
    cost cw (requests (final (run env m w pool))) = cost cw (requests w) + n /\
    (Forall (spec Qbg) pool -> Forall (spec Qbg) (pending (run env m w pool))).
Proof.
  induction m as [A a | A e | A R op k IH | A bg IHbg k IHk];
    intros Q env w pool Hg Hm Hi; cbn [run].
  - exists 0. cbn. auto.
  - exists 0. cbn. auto.
  - cbn in Hm. destruct (Hm env w Hg Hi) as [Hi' Hk].
    destruct (IH _ _ env (effect env op w) pool Hg Hk Hi') as (n & H1 & H2 & H3 & H4).
    exists (weight cw op + n). repeat split; auto.
    rewrite H3, cost_effect. lia.
  - destruct Hm as [Hbg Hk].
    destruct (spec_run_sync _ _ _ env w pool Hg Hbg Hi) as (B1 & B2 & B3 & B4).
    destruct (IHk _ env (world (run_sync env bg w pool))
                (spawned (run_sync env bg w pool) ++ [task (run_sync env bg w pool)])
                Hg Hk B2) as (n & K1 & K2 & K3 & K4).
    exists n. repeat split; auto.
    + now rewrite K3, B3.
    + intros Hp. apply K4, Forall_app. split; auto.
Qed.
End SpecRules.

(** ** Walking the paths of a method *)

Lemma failovers_console service line w :
  failovers service (with_console (fun l => l ++ [line]) w) =
  failovers service w + (if String.eqb line (trigger_line service) then 1 else 0).
Proof.
  unfold failovers. cbn [console with_console].
  rewrite filter_app, length_app. f_equal.
  destruct (String.eqb line (trigger_line service)) eqn:E.
  - rewrite filter_cons_True by exact E. reflexivity.
  - rewrite filter_cons_False by (rewrite E; discriminate). reflexivity.
Qed.

Lemma untouched_console service w0 w line :
  String.eqb line (trigger_line service) = false ->
  untouched service w0 w ->
  untouched service w0 (with_console (fun l => l ++ [line]) w).
Proof.
  intros Hline (Hm & Hc & Hf). split; [exact Hm|]. split; [exact Hc|].
  rewrite failovers_console, Hline. lia.
Qed.

Arguments untouched : simpl never.

(** Walk every path of a term whose shape is known, answering each
    operation in every possible way. *)
Ltac walk :=
  repeat (cbn; unfold faulty, anything, absorbed, resolved;
    match goal with
    | |- forall _, _ => intro
    | H : same_memory _ ?w |- same_memory _ _ => exact H
    | H : untouched _ _ ?w |- untouched _ _ _ =>
        first [exact H | apply untouched_console; [reflexivity|exact H]]
    | |- _ /\ _ => split
    | |- True => exact I
    | |- exists _, Resolved ?a = Resolved _ => exists a; reflexivity
    | |- _ = _ => reflexivity
    | |- context [match fs_fault ?e ?c with _ => _ end] => destruct (fs_fault e c)
    | |- context [match @lookup ?K ?V ?M ?L ?k ?m with _ => _ end] =>
        destruct (@lookup K V M L k m)
    | |- context [match service ?e ?c with _ => _ end] => destruct (service e c)
    | |- context [if ?b then _ else _] => destruct b
    | |- context [match ?x with _ => _ end] => destruct x
    end).

(** ** Promotion *)

Lemma checkMemoryCache_fresh_hit env cacheKey w pool payload t :
  JsMap.get cacheKey (memoryCache (cache w)) = Some (mkMemEntry payload t) ->
  (now env - t < cacheExpiry (cache w))%Z ->
  outcome (run env (checkMemoryCache cacheKey) w pool) = Resolved (Some payload).
Proof.
  intros Hget Hfresh. unfold checkMemoryCache. cbn. rewrite Hget. cbn.
  apply Z.ltb_lt in Hfresh. rewrite Hfresh. reflexivity.
Qed.

Lemma removeDiskCacheEntry_resolves env cacheKey w pool :
  outcome (run env (removeDiskCacheEntry cacheKey) w pool) = Resolved tt.
Proof.
  unfold removeDiskCacheEntry. rewrite run_try_catch.
  destruct (outcome (run _ _ _ _)) as [[]|e] eqn:E; auto.
Qed.

Section KeepsMemory.
Variable w0 : World.

Local Abbreviation kspec :=
  (spec (fun _ => True) (fun _ => 0) (same_memory w0) anything).

Lemma storeToDiskCache_keeps cacheKey audioBuffer :
  kspec anything (storeToDiskCache cacheKey audioBuffer).
Proof.
  unfold storeToDiskCache.
  eapply spec_try_catch with (P := anything); [walk|exact (fun _ _ _ => I)|].
  intros n e _. walk.
Qed.
End KeepsMemory.

Lemma storeToDiskCache_same_memory env cacheKey audioBuffer w pool :
  same_memory w (final (run env (storeToDiskCache cacheKey audioBuffer) w pool)).
Proof.
  destruct (spec_run _ _ _ _ _ _ _ env w pool I
              (storeToDiskCache_keeps w cacheKey audioBuffer)) as (n & _ & H & _).
  - repeat split.
  - exact H.
Qed.

(** When neither write is refused, [storeToDiskCache] leaves the payload
    and its metadata in the cache directory. *)
Lemma storeToDiskCache_writes env cacheKey audioBuffer w pool :
  let filePath := path_join (diskCachePath (cache w)) (cacheKey +:+ ".mp3") in
  let metaPath := path_join (diskCachePath (cache w)) (cacheKey +:+ ".meta") in
  fs_fault env (FsWrite filePath) = None ->
  fs_fault env (FsWrite metaPath) = None ->
  payloads (files (final (run env (storeToDiskCache cacheKey audioBuffer) w pool))) !! filePath
    = Some audioBuffer /\
  metas (files (final (run env (storeToDiskCache cacheKey audioBuffer) w pool))) !! metaPath
    = Some (Some (mkMeta (now env) (String.length audioBuffer) cacheKey)).
Proof.
  intros filePath metaPath Hfile Hmeta.
  unfold storeToDiskCache. rewrite run_try_catch. cbn -[removeDiskCacheEntry].
  match goal with
  | |- context [run env (bind ?m ?f) w pool] => rewrite (run_bind _ m _ f env w pool)
  end.
  set (evicted := run env _ w pool).
  assert (He : outcome evicted = Resolved tt).
  { subst evicted. destruct (Nat.leb _ _); [|reflexivity].
    rewrite run_bind, removeDiskCacheEntry_resolves. reflexivity. }
  rewrite He. cbn. unfold faulty. fold filePath. rewrite Hfile. cbn.
  unfold faulty. fold metaPath. rewrite Hmeta. cbn.
  split.
  - apply lookup_insert_eq.
  - apply lookup_insert_eq.
Qed.

(** C7.  A lookup that misses memory and hits at disk or at S3 returns the
    payload found there, whatever the file system does, and leaves it in the
    memory tier: until the entry expires every later [checkMemoryCache] for
    the key returns it.  After a hit at S3 the payload and its metadata are
    also in the cache directory, unless the file system refused the write. *)
Theorem C7_hit_is_promoted
    (env : Env) (text voiceId : string) (options : Options) (w : World)
    (tier : Source) (payload : Buffer) :
  let key := generateCacheKey text voiceId options in
  let lookup := run env (getAudioWithCache text voiceId options) w [] in
  let filePath := path_join (diskCachePath (cache (final lookup))) (key +:+ ".mp3") in
  let metaPath := path_join (diskCachePath (cache (final lookup))) (key +:+ ".meta") in
  hits_below_memory env text voiceId options w tier payload ->
  outcome lookup = Resolved (mkResult payload tier key true) /\
  (forall env' pool,
      (now env' - now env < cacheExpiry (cache (final lookup)))%Z ->
      outcome (run env' (checkMemoryCache key) (final lookup) pool) = Resolved (Some payload)) /\
  (tier = s3 ->
   fs_fault env (FsWrite filePath) = None ->
   fs_fault env (FsWrite metaPath) = None ->
   payloads (files (final lookup)) !! filePath = Some payload /\
   metas (files (final lookup)) !! metaPath
     = Some (Some (mkMeta (now env) (String.length payload) key))).
Proof.
  intros key lookup filePath metaPath [HM Hhit].
  destruct tier; try contradiction.
  - (* disk *)
    subst filePath metaPath lookup.
    rewrite (lookup_disk_hit env text voiceId options w payload HM Hhit).
    cbn [outcome final]. split; [reflexivity|]. split; [|discriminate].
    intros env' pool Hfresh.
    rewrite run_storeInMemoryCache in Hfresh |- *. cbn [final] in Hfresh |- *.
    eapply checkMemoryCache_fresh_hit; [|exact Hfresh].
    cbn. unfold memory_after_store. apply JsMapFacts.get_set_eq.
  - (* s3 *)
    destruct Hhit as (HD & Hon & HR).
    subst filePath metaPath lookup.
    rewrite (lookup_remote_hit env text voiceId options w payload HM HD Hon HR).
    cbn [outcome final]. split; [reflexivity|].
    rewrite run_storeInMemoryCache. cbn [final].
    set (promoted := with_cache _ _).
    destruct (storeToDiskCache_same_memory env key payload promoted
                (pending (remote_probe env text voiceId options w))) as (Hmem & Hexp & Hpath).
    split.
    + intros env' pool Hfresh.
      eapply checkMemoryCache_fresh_hit; [|exact Hfresh].
      fold key. rewrite Hmem. subst promoted. cbn.
      unfold memory_after_store. apply JsMapFacts.get_set_eq.
    + intros _. fold key. rewrite Hpath. apply storeToDiskCache_writes.
Qed.

Lemma C7_hit_is_promoted_witness :
  let key := generateCacheKey "Emergency alert" "Joanna" no_options in
  let lookup :=
    run (cold_env 5) (getAudioWithCache "Emergency alert" "Joanna" no_options)
      disk_only_world [] in
  let filePath := path_join (diskCachePath (cache (final lookup))) (key +:+ ".mp3") in
  let metaPath := path_join (diskCachePath (cache (final lookup))) (key +:+ ".meta") in
  outcome lookup = Resolved (mkResult "abc" disk key true) /\
  (forall env' pool,
      (now env' - now (cold_env 5) < cacheExpiry (cache (final lookup)))%Z ->
      outcome (run env' (checkMemoryCache key) (final lookup) pool) = Resolved (Some "abc")) /\
  (disk = s3 ->
   fs_fault (cold_env 5) (FsWrite filePath) = None ->
   fs_fault (cold_env 5) (FsWrite metaPath) = None ->
   payloads (files (final lookup)) !! filePath = Some "abc" /\
   metas (files (final lookup)) !! metaPath
     = Some (Some (mkMeta (now (cold_env 5)) (String.length "abc") key))).
Proof.
  apply (C7_hit_is_promoted (cold_env 5) "Emergency alert" "Joanna" no_options
           disk_only_world disk "abc").
  split; vm_compute; reflexivity.
Defined.

(** The same for a hit at S3, read from a bucket that holds the object. *)
Example remote_hit_is_promoted :
  let key := generateCacheKey "Emergency alert" "Joanna" no_options in
  let lookup :=
    run (warm_env 5) (getAudioWithCache "Emergency alert" "Joanna" no_options)
      initial_world [] in
  outcome lookup = Resolved (mkResult "abc" s3 key true) /\
  outcome (run (warm_env 6) (checkMemoryCache key) (final lookup) []) = Resolved (Some "abc") /\
  outcome (run (warm_env 6) (checkDiskCache key) (final lookup) []) = Resolved (Some "abc").
Proof. vm_compute. auto. Qed.

(** ** Calls that are not awaited absorb their own failures *)

Section Absorbing.
Local Abbreviation aspec :=
  (spec (fun _ => True) (fun _ => 0) (fun _ => True) absorbed).

Lemma spec_seq A B (m : Async A) (f : A -> Async B) :
  aspec anything m -> (forall a, aspec anything (f a)) -> aspec anything (bind m f).
Proof.
  intros Hm Hf. eapply spec_bind; [exact Hm| |exact (fun _ _ _ => I)].
  intros n a _. eapply spec_mono; [|apply Hf]. exact (fun _ _ _ => I).
Qed.

Lemma spec_guarded A (m : Async A) (h : JsError -> Async A) :
  aspec anything m -> (forall e, aspec anything (h e)) -> aspec anything (try_catch m h).
Proof.
  intros Hm Hh. eapply spec_try_catch; [exact Hm|exact (fun _ _ _ => I)|].
  intros n e _. eapply spec_mono; [|apply Hh]. exact (fun _ _ _ => I).
Qed.

Lemma for_await_any end_error : forall rest acc,
  aspec anything (for_await rest end_error acc).
Proof.
  induction rest as [|c rest IH]; intros acc; cbn.
  - intros _ _ _ _. split; [exact I|]. destruct end_error; exact I.
  - intros _ _ _ _. split; [exact I|]. apply IH.
Qed.

Lemma checkMemoryCache_any cacheKey : aspec anything (checkMemoryCache cacheKey).
Proof. unfold checkMemoryCache. walk. Qed.

Lemma storeInMemoryCache_any cacheKey audioBuffer :
  aspec anything (storeInMemoryCache cacheKey audioBuffer).
Proof. unfold storeInMemoryCache. walk. Qed.

Lemma checkDiskCache_any cacheKey : aspec anything (checkDiskCache cacheKey).
Proof. unfold checkDiskCache. apply spec_guarded; walk. Qed.

Lemma storeToDiskCache_any cacheKey audioBuffer :
  aspec anything (storeToDiskCache cacheKey audioBuffer).
Proof. unfold storeToDiskCache. apply spec_guarded; walk. Qed.

Lemma checkS3Cache_any cacheKey : aspec anything (checkS3Cache cacheKey).
Proof.
  unfold checkS3Cache. apply spec_guarded; [|walk].
  cbn. intros _ w0 _ _. split; [exact I|]. cbn.
  intros env w _ _. split; [exact I|].
  destruct (service env _) as [h|e]; [|exact I]. cbn.
  intros env1 w1 _ _. split; [exact I|]. cbn.
  intros env2 w2 _ _. split; [exact I|]. cbn.
  destruct (Z.ltb _ _); [exact I|]. cbn.
  intros env3 w3 _ _. split; [exact I|].
  destruct (service env3 _) as [g|e]; [|exact I]. cbn.
  apply spec_seq; [apply for_await_any|]. intros a. exact I.
Qed.

Lemma generatePollyAudio_any text voiceId options :
  aspec anything (generatePollyAudio text voiceId options).
Proof.
  unfold generatePollyAudio. apply spec_guarded; [|walk].
  cbn. intros env w _ _. split; [exact I|].
  destruct (service env _) as [r|e]; [|exact I]. cbn.
  apply spec_seq; [apply for_await_any|]. intros a. exact I.
Qed.

(** The write to S3 that [storeInAllCaches] leaves behind ends well whatever
    S3 answers. *)
Lemma storeToS3Cache_absorbed cacheKey audioBuffer :
  aspec absorbed
    (try_catch (storeToS3Cache cacheKey audioBuffer)
       (fun err => perform (Console "S3 cache store failed"))).
Proof.
  unfold storeToS3Cache.
  eapply spec_try_catch with (P := absorbed).
  - eapply spec_try_catch with (P := anything); [walk| |].
    + intros n [] _. reflexivity.
    + intros n e _. walk.
  - auto.
  - intros n e ?. discriminate.
Qed.

Lemma storeInAllCaches_any cacheKey audioBuffer :
  aspec anything (storeInAllCaches cacheKey audioBuffer).
Proof.
  unfold storeInAllCaches.
  apply spec_seq; [apply storeInMemoryCache_any|]. intros _.
  apply spec_seq; [apply spec_await, storeToDiskCache_any|]. intros _.
  cbn. intros env w _ _. split; [exact I|]. cbn.
  destruct (s3Cache _); cbn; [|exact I].
  split; [apply storeToS3Cache_absorbed|exact I].
Qed.

Lemma getAudioWithCache_any text voiceId options :
  aspec anything (getAudioWithCache text voiceId options).
Proof.
  unfold getAudioWithCache. cbn. intros env0 w0 _ _. split; [exact I|]. cbn.
  apply spec_guarded; [|walk].
  apply spec_seq; [apply checkMemoryCache_any|]. intros [memoryResult|]; [walk|].
  apply spec_seq; [apply spec_await, checkDiskCache_any|]. intros [diskResult|].
  { cbn. intros env1 w1 _ _. split; [exact I|]. cbn.
    intros env2 w2 _ _. split; [exact I|]. cbn.
    apply spec_seq; [apply storeInMemoryCache_any|]. intros _. exact I. }
  cbn. intros env1 w1 _ _. split; [exact I|]. cbn.
  apply spec_seq.
  { destruct (s3Cache _); [|exact I].
    apply spec_seq; [apply spec_await, checkS3Cache_any|]. intros [s3Result|]; [|exact I].
    cbn. intros env2 w2 _ _. split; [exact I|]. cbn.
    intros env3 w3 _ _. split; [exact I|]. cbn.
    apply spec_seq; [apply storeInMemoryCache_any|]. intros _.
    apply spec_seq; [apply spec_await, storeToDiskCache_any|]. intros _. exact I. }
  intros [hit|]; [exact I|].
  cbn. intros env2 w2 _ _. split; [exact I|]. cbn.
  intros env3 w3 _ _. split; [exact I|]. cbn.
  apply spec_seq; [apply spec_await, generatePollyAudio_any|]. intros audioBuffer.
  apply spec_seq; [apply spec_await, storeInAllCaches_any|]. intros _. exact I.
Qed.

(** Every task a lookup leaves in the background resolves, whatever it is
    answered later. *)
Lemma lookup_background_absorbed env text voiceId options w :
  Forall (fun bg => forall env' w' pool, outcome (run env' bg w' pool) = Resolved tt)
    (pending (run env (getAudioWithCache text voiceId options) w [])).
Proof.
  destruct (spec_run _ _ _ _ _ _ _ env w [] I (getAudioWithCache_any text voiceId options) I)
    as (n & _ & _ & _ & Hp).
  specialize (Hp (List.Forall_nil _)).
  eapply Forall_impl; [exact Hp|].
  intros bg Hbg env' w' pool.
  destruct (spec_run _ _ _ _ _ _ _ env' w' pool I Hbg I) as (n' & Hq & _).
  exact Hq.
Qed.
End Absorbing.

(** C8.  A lookup rejects only when every tier misses and the generation
    itself rejects, and then with the generation's error; this holds in every
    environment, so no failure of a write to disk or to S3 fails a lookup
    that holds a payload.  [storeToDiskCache] resolves whatever the file
    system does, and the write to S3, left in the background, resolves
    whatever S3 answers. *)
Theorem C8_only_generation_failure_propagates
    (env : Env) (text voiceId : string) (options : Options) (w : World) :
  let lookup := run env (getAudioWithCache text voiceId options) w [] in
  (forall e,
      outcome lookup = Rejected e <->
      all_tiers_miss env text voiceId options w /\
      outcome (generation env text voiceId options w) = Rejected e) /\
  (forall cacheKey audioBuffer w' pool,
      outcome (run env (storeToDiskCache cacheKey audioBuffer) w' pool) = Resolved tt) /\
  Forall (fun bg => forall env' w' pool, outcome (run env' bg w' pool) = Resolved tt)
    (pending lookup).
Proof.
  intros lookup. split; [|split].
  - intros e. split.
    + intros Hrej.
      destruct (checkMemoryCache_resolves env (generateCacheKey text voiceId options)
                  (with_cache (with_stats incr_totalRequests) w) []) as [[m|] HM].
      { subst lookup. rewrite (lookup_memory_hit env text voiceId options w m HM) in Hrej.
        discriminate. }
      destruct (checkDiskCache_resolves env (generateCacheKey text voiceId options)
                  (final (memory_probe env text voiceId options w))
                  (pending (memory_probe env text voiceId options w))) as [[d|] HD].
      { subst lookup. rewrite (lookup_disk_hit env text voiceId options w d HM HD) in Hrej.
        discriminate. }
      destruct (s3Cache (cache (final (disk_probe env text voiceId options w)))) eqn:Hon.
      * destruct (checkS3Cache_resolves env (generateCacheKey text voiceId options)
                    (final (disk_probe env text voiceId options w))
                    (pending (disk_probe env text voiceId options w))) as [[r|] HR].
        { subst lookup.
          rewrite (lookup_remote_hit env text voiceId options w r HM HD Hon HR) in Hrej.
          discriminate. }
        assert (Hmiss : all_tiers_miss env text voiceId options w).
        { unfold all_tiers_miss. auto. }
        split; [exact Hmiss|].
        subst lookup. rewrite (lookup_all_miss env text voiceId options w Hmiss) in Hrej.
        destruct (outcome (generation env text voiceId options w)); congruence.
      * assert (Hmiss : all_tiers_miss env text voiceId options w).
        { unfold all_tiers_miss. auto. }
        split; [exact Hmiss|].
        subst lookup. rewrite (lookup_all_miss env text voiceId options w Hmiss) in Hrej.
        destruct (outcome (generation env text voiceId options w)); congruence.
    + intros [Hmiss Hgen]. subst lookup.
      rewrite (lookup_all_miss env text voiceId options w Hmiss), Hgen. reflexivity.
  - intros. apply storeToDiskCache_resolves.
  - apply lookup_background_absorbed.
Qed.

(** With a disk that cannot be written and an S3 that rejects every
    request, the lookup still returns what Polly generated; the failures are
    in the log, the last of them written by the background task. *)
Example lookup_survives_failing_stores :
  let lookup :=
    run (broken_env 0) (getAudioWithCache "Emergency alert" "Joanna" no_options)
      initial_world [] in
  outcome lookup = Resolved (mkResult "abc" generated alert_key false) /\
  console (final lookup)
    = ["S3 cache error"; "Generating new audio"; "Disk cache write error"] /\
  JsMap.get alert_key (memoryCache (cache (final lookup))) = Some (mkMemEntry "abc" 0) /\
  match pending lookup with
  | [bg] =>
      let later := run (broken_env 1) bg (final lookup) [] in
      outcome later = Resolved tt /\
      console (final later) = console (final lookup) ++ ["S3 cache store error"]
  | _ => False
  end.
Proof. vm_compute. repeat split. Qed.

(** ** What each method does to the generator count *)

Section Generation.
Variable audio : Buffer.

Local Abbreviation gspec := (spec (cold_remote audio) is_synthesis (fun _ => True) quiet).

Ltac answer := intros ? ? ? _; split; [exact I|]; cbn.

Lemma for_await_spec : forall rest acc,
  gspec (fun n o => n = 0 /\ o = Resolved (acc ++ rest)) (for_await rest None acc).
Proof.
  induction rest as [|c rest IH]; intros acc; cbn.
  - answer. now rewrite app_nil_r.
  - answer. eapply spec_mono; [|apply IH]. cbn.
    intros n o [-> ->]. now rewrite <- app_assoc.
Qed.

Lemma storeInMemoryCache_spec cacheKey audioBuffer :
  gspec (fun n o => n = 0 /\ o = Resolved tt) (storeInMemoryCache cacheKey audioBuffer).
Proof.
  unfold storeInMemoryCache. cbn. answer.
  destruct (Nat.leb _ _); cbn; repeat answer; auto.
Qed.

Lemma removeDiskCacheEntry_spec cacheKey :
  gspec (fun n o => n = 0 /\ o = Resolved tt) (removeDiskCacheEntry cacheKey).
Proof.
  unfold removeDiskCacheEntry.
  eapply spec_try_catch with (P := fun n _ => n = 0).
  - walk.
  - intros n [] ->. auto.
  - intros n e ->. walk.
Qed.

Lemma storeToDiskCache_spec cacheKey audioBuffer :
  gspec (fun n o => n = 0 /\ o = Resolved tt) (storeToDiskCache cacheKey audioBuffer).
Proof.
  unfold storeToDiskCache.
  eapply spec_try_catch with (P := fun n _ => n = 0).
  - walk.
  - intros n [] ->. auto.
  - intros n e ->. walk.
Qed.

Lemma storeToS3Cache_spec cacheKey audioBuffer :
  gspec (fun n o => n = 0 /\ o = Resolved tt) (storeToS3Cache cacheKey audioBuffer).
Proof.
  unfold storeToS3Cache.
  eapply spec_try_catch with (P := fun n _ => n = 0).
  - walk.
  - intros n [] ->. auto.
  - intros n e ->. walk.
Qed.

Lemma storeInAllCaches_spec cacheKey audioBuffer :
  gspec (fun n o => n = 0 /\ o = Resolved tt) (storeInAllCaches cacheKey audioBuffer).
Proof.
  unfold storeInAllCaches.
  eapply spec_bind; [apply storeInMemoryCache_spec| |intros n e [_ ?]; discriminate].
  intros n [] [-> _].
  eapply spec_bind;
    [apply spec_await, storeToDiskCache_spec| |intros n e [_ ?]; discriminate].
  intros n [] [-> _]. cbn. answer.
  destruct (s3Cache _); cbn; auto.
  split; auto.
  eapply spec_try_catch; [apply storeToS3Cache_spec| |].
  - intros n a [-> _]. reflexivity.
  - intros n e [_ ?]. discriminate.
Qed.

(** With nothing in the bucket the remote probe misses. *)
Lemma checkS3Cache_spec cacheKey :
  gspec (fun n o => n = 0 /\ o = Resolved None) (checkS3Cache cacheKey).
Proof.
  unfold checkS3Cache.
  eapply spec_try_catch with (P := fun n o => n = 0 /\ exists e, o = Rejected e).
  - cbn. intros env0 w0 _ _. split; [exact I|]. cbn.
    intros env w [Hhead _] _. split; [exact I|].
    destruct (Hhead (bucketName_of (process_env w0 !! "AUDIO_CACHE_BUCKET"))
                ("audio-cache/" +:+ cacheKey +:+ ".mp3")) as [e He].
    cbn. rewrite He. cbn. eauto.
  - intros n a [_ [e ?]]. discriminate.
  - intros n e [-> _]. walk.
Qed.

(** Polly is asked once and answers [audio]. *)
Lemma generatePollyAudio_spec text voiceId options :
  gspec (fun n o => n = 1 /\ o = Resolved audio) (generatePollyAudio text voiceId options).
Proof.
  unfold generatePollyAudio.
  eapply spec_try_catch with (P := fun n o => n = 1 /\ o = Resolved audio).
  - cbn. intros env w [_ Hsynth] _. split; [exact I|].
    destruct (Hsynth "ap-south-1"
                (mkSynth text voiceId (or_default (format options) "mp3")
                   (Some (or_default (engine options) "neural")))) as (r & Hr & Herr & Haudio).
    rewrite Hr. cbn. unfold collect. rewrite Herr.
    eapply spec_bind; [apply for_await_spec| |intros n e [_ ?]; discriminate].
    intros n a [-> [= ->]]. cbn. now rewrite Haudio.
  - auto.
  - intros n e [_ ?]. discriminate.
Qed.
End Generation.

Section Coalescing.
Variable audio : Buffer.
Variables (text voiceId : string) (options : Options).
Let key := generateCacheKey text voiceId options.

Let result := mkResult audio generated key false.

Local Abbreviation gspec := (spec (cold_remote audio) is_synthesis (fun _ => True) quiet).

Lemma launch_one env w pool :
  JsMap.get key (memoryCache (cache w)) = None ->
  exists_on_disk (files w) (path_join (diskCachePath (cache w)) (key +:+ ".mp3")) = false ->
  world (run_sync env (getAudioWithCache text voiceId options) w pool)
    = with_cache (with_stats incr_totalRequests) w /\
  spawned (run_sync env (getAudioWithCache text voiceId options) w pool) = pool /\
  gspec (generates result) (task (run_sync env (getAudioWithCache text voiceId options) w pool)).
Proof.
  intros Hmem Hdisk.
  unfold getAudioWithCache, checkMemoryCache, checkDiskCache. fold key.
  cbn. rewrite Hmem. cbn. rewrite Hdisk. cbn.
  split; [reflexivity|]. split; [reflexivity|].
  intros env1 w1 _ _. split; [exact I|]. cbn.
  intros env2 w2 _ _. split; [exact I|].
  eapply spec_try_catch with (P := generates result);
    [|auto|intros n e [_ ?]; discriminate].
  eapply spec_bind with (P := fun n o => n = 0 /\ o = Resolved None).
  - destruct (s3Cache (cache w2)); [|cbn; auto].
    eapply spec_bind;
      [apply spec_await, checkS3Cache_spec| |intros n e [_ ?]; discriminate].
    intros n a [-> [= ->]]. cbn. auto.
  - intros n a [-> [= ->]]. cbn.
    intros env3 w3 _ _. split; [exact I|]. cbn.
    intros env4 w4 _ _. split; [exact I|]. cbn.
    eapply spec_bind;
      [apply spec_await, generatePollyAudio_spec| |intros n e [_ ?]; discriminate].
    intros n a [-> [= ->]]. cbn.
    eapply spec_bind;
      [apply spec_await, storeInAllCaches_spec| |intros n e [_ ?]; discriminate].
    intros n [] [-> _]. cbn. unfold generates. auto.
  - intros n e [_ ?]. discriminate.
Qed.

Lemma launch_cons env m rest l :
  launch env (m :: rest) l =
  launch env rest
    (mkLoop (world (run_sync env m (loop_world l) (background l)))
       (callers l ++ [task (run_sync env m (loop_world l) (background l))])
       (spawned (run_sync env m (loop_world l) (background l)))).
Proof. reflexivity. Qed.

Lemma launch_in_flight env N : forall l base issued,
  JsMap.get key (memoryCache (cache (loop_world l))) = None ->
  exists_on_disk (files (loop_world l))
    (path_join (diskCachePath (cache (loop_world l))) (key +:+ ".mp3")) = false ->
  in_flight audio result base issued l ->
  in_flight audio result base (issued ++ repeat 0 N)
    (launch env (repeat (getAudioWithCache text voiceId options) N) l).
Proof.
  induction N as [|N IH]; intros l base issued Hmem Hdisk Hl; cbn [repeat].
  - cbn. now rewrite app_nil_r.
  - destruct (launch_one env (loop_world l) (background l) Hmem Hdisk) as (Hw & Hp & Ht).
    replace (issued ++ 0 :: repeat 0 N) with ((issued ++ [0]) ++ repeat 0 N)
      by now rewrite <- app_assoc.
    rewrite launch_cons, Hw, Hp.
    apply IH; cbn [loop_world callers background]; auto.
    destruct Hl as (Hc & Hb & Hg). repeat split; cbn [loop_world callers background]; auto.
    + apply Forall2_app; auto.
    + unfold generator_calls in *. cbn [requests with_cache].
      rewrite list_sum_app. cbn. lia.
Qed.

Lemma list_sum_insert (l : list nat) i d d' :
  l !! i = Some d -> list_sum (<[i := d + d']> l) = list_sum l + d'.
Proof.
  revert i. induction l as [|x l IH]; intros [|i] H; try discriminate.
  - cbn in H. injection H as ->. cbn. lia.
  - specialize (IH i H).
    change (x + list_sum (<[i := d + d']> l) = x + list_sum l + d').
    rewrite IH. apply Nat.add_assoc.
Qed.

(** A turn given to any task keeps the callers in flight. *)
Lemma turn_in_flight env who l base issued :
  cold_remote audio env ->
  in_flight audio result base issued l ->
  exists issued', in_flight audio result base issued' (turn env who l).
Proof.
  intros Hg (Hc & Hb & Hn). destruct who as [i|j]; cbn [turn].
  - destruct (callers l !! i) as [m|] eqn:Hi; [|exists issued; repeat split; auto].
    destruct (Forall2_lookup_r _ _ _ _ _ Hc Hi) as (d & Hd & Hm).
    destruct (spec_resume _ _ _ _ _ m _ env (loop_world l) (background l) Hg Hm I)
      as (d' & Ht & _ & Hcost & Hp).
    specialize (Hp Hb).
    exists (<[i := d + d']> issued). repeat split; cbn [loop_world callers background]; auto.
    + apply Forall2_insert; auto.
      eapply spec_mono; [|exact Ht]. cbn. intros n o. now rewrite Nat.add_assoc.
    + unfold generator_calls in *. rewrite Hcost, Hn, (list_sum_insert _ _ _ _ Hd). lia.
  - destruct (background l !! j) as [m|] eqn:Hj; [|exists issued; repeat split; auto].
    pose proof (Forall_lookup_1 _ _ _ _ Hb Hj) as Hm.
    destruct (spec_resume _ _ _ _ _ m _ env (loop_world l) (background l) Hg Hm I)
      as (d' & Ht & _ & Hcost & Hp).
    specialize (Hp Hb).
    destruct (spec_run _ _ _ _ _ _ _ env (world (resume env m (loop_world l) (background l)))
                [] Hg Ht I) as (n & Hq & _).
    unfold quiet in Hq. assert (d' = 0) as -> by lia.
    exists issued. repeat split; cbn [loop_world callers background]; auto.
    + apply Forall_insert; auto.
    + unfold generator_calls in *. rewrite Hcost, Hn. lia.
Qed.

Lemma play_in_flight schedule : forall l base issued,
  Forall (fun '(env, _) => cold_remote audio env) schedule ->
  in_flight audio result base issued l ->
  exists issued', in_flight audio result base issued' (play schedule l).
Proof.
  induction schedule as [|[env who] schedule IH]; intros l base issued Hs Hl; cbn.
  - eauto.
  - inversion Hs as [|? ? Hg Hs']; subst.
    destruct (turn_in_flight env who l base issued Hg Hl) as (issued' & Hl').
    apply (IH _ _ _ Hs' Hl').
Qed.

(** Once every caller has settled, each has been answered once. *)
Lemma in_flight_settled base : forall issued l,
  in_flight audio result base issued l ->
  Forall (fun m => settled m = true) (callers l) ->
  callers l = repeat (Return result) (length (callers l)) /\
  generator_calls (loop_world l) = base + length (callers l).
Proof.
  intros issued l (Hc & _ & Hn) Hs. rewrite Hn. clear Hn.
  induction Hc as [|d m issued cs Hm Hc IH]; [cbn; auto|].
  inversion Hs as [|? ? Hm' Hs']; subst.
  destruct (IH Hs') as (IH1 & IH2).
  destruct m as [a | e | R op k | bg k]; cbn in Hm'; try discriminate.
  - destruct Hm as [Hd [= ->]].
    change (list_sum (d :: issued)) with (d + list_sum issued).
    change (length (Return result :: cs)) with (S (length cs)).
    split; [cbn [repeat]; now rewrite <- IH1|lia].
  - destruct Hm as [_ ?]. discriminate.
Qed.
End Coalescing.

Lemma launch_callers_length env calls : forall l,
  length (callers (launch env calls l)) = length (callers l) + length calls.
Proof.
  induction calls as [|m calls IH]; intros l; cbn [launch length]; [lia|].
  rewrite IH. cbn [callers]. rewrite length_app. cbn. lia.
Qed.

Lemma turn_callers_length env who l :
  length (callers (turn env who l)) = length (callers l).
Proof.
  destruct who as [i|j]; cbn [turn].
  - destruct (callers l !! i); cbn [callers]; auto. now rewrite length_insert.
  - destruct (background l !! j); cbn [callers]; auto.
Qed.

Lemma play_callers_length schedule : forall l,
  length (callers (play schedule l)) = length (callers l).
Proof.
  induction schedule as [|[env who] schedule IH]; intros l; cbn; auto.
  unfold play in IH. now rewrite IH, turn_callers_length.
Qed.


Lemma cold_env_cold t : cold_remote "abc" (cold_env t).
Proof.
  split.
  - intros bucket key. exists NotFound. reflexivity.
  - intros region params. eexists. repeat split; reflexivity.
Qed.



(** ** Health transitions *)

Section Probes.
Variables (name : string) (w0 : World).

Local Abbreviation pspec :=
  (spec (fun _ => True) (fun _ => 0) (untouched name w0) anything).

Lemma recordMetric_quiet metricName value unitName dimensions :
  pspec resolved (recordMetric metricName value unitName dimensions).
Proof.
  unfold recordMetric.
  eapply spec_try_catch with (P := anything); [walk| |].
  - intros n a _. exists a. reflexivity.
  - intros n e _. walk.
Qed.

Lemma checkPollyHealth_quiet : pspec resolved checkPollyHealth.
Proof.
  unfold checkPollyHealth.
  eapply spec_try_catch with (P := anything); [walk| |].
  - intros n a _. exists a. reflexivity.
  - intros n e _. walk.
Qed.

Lemma checkTranscribeHealth_quiet : pspec resolved checkTranscribeHealth.
Proof.
  unfold checkTranscribeHealth.
  eapply spec_try_catch with (P := anything); [walk| |].
  - intros n a _. exists a. reflexivity.
  - intros n e _. walk.
Qed.

Lemma checkS3Health_quiet : pspec resolved checkS3Health.
Proof.
  unfold checkS3Health.
  eapply spec_try_catch with (P := anything); [walk| |].
  - intros n a _. exists a. reflexivity.
  - intros n e _. walk.
Qed.

Lemma checkCloudFrontHealth_quiet : pspec resolved checkCloudFrontHealth.
Proof.
  unfold checkCloudFrontHealth.
  eapply spec_try_catch with (P := anything); [walk| |].
  - intros n a _. exists a. reflexivity.
  - intros n e _. walk.
Qed.

(** Every probe resolves and leaves the monitoring object alone. *)
Lemma check_of_quiet service :
  In service probed_services -> pspec resolved (check_of service).
Proof.
  intros [<-|[<-|[<-|[<-|[]]]]]; cbn [check_of String.eqb Ascii.eqb Bool.eqb];
    apply spec_await.
  - apply checkPollyHealth_quiet.
  - apply checkTranscribeHealth_quiet.
  - apply checkS3Health_quiet.
  - apply checkCloudFrontHealth_quiet.
Qed.

(** So does the alert that follows a failover. *)
Lemma sendFailoverAlert_quiet service error :
  pspec resolved (sendFailoverAlert service error).
Proof.
  unfold sendFailoverAlert.
  eapply spec_try_catch with (P := anything); [walk| |].
  - intros n a _. exists a. reflexivity.
  - intros n e _. walk.
Qed.

Lemma pollyFailover_quiet error : pspec resolved (pollyFailover error).
Proof.
  unfold pollyFailover. cbn -[try_catch]. intros env w _ H. split; [walk|].
  eapply spec_try_catch with (P := anything); [walk| |].
  - intros n a _. exists a. reflexivity.
  - intros n e _. walk.
Qed.

Lemma transcribeFailover_quiet error : pspec resolved (transcribeFailover error).
Proof.
  unfold transcribeFailover. cbn -[try_catch]. intros env w _ H. split; [walk|].
  eapply spec_try_catch with (P := anything); [walk| |].
  - intros n a _. exists a. reflexivity.
  - intros n e _. walk.
Qed.

Lemma s3Failover_quiet error : pspec resolved (s3Failover error).
Proof.
  unfold s3Failover. cbn -[try_catch]. intros env w _ H. split; [walk|].
  eapply spec_try_catch with (P := anything); [walk| |].
  - intros n a _. exists a. reflexivity.
  - intros n e _. walk.
Qed.

Lemma cloudFrontFailover_quiet error : pspec resolved (cloudFrontFailover error).
Proof.
  unfold cloudFrontFailover. cbn -[try_catch]. intros env w _ H. split; [walk|].
  eapply spec_try_catch with (P := anything); [walk| |].
  - intros n a _. exists a. reflexivity.
  - intros n e _. walk.
Qed.
End Probes.

Arguments recordMetric : simpl never.
Arguments sendFailoverAlert : simpl never.
Arguments pollyFailover : simpl never.
Arguments transcribeFailover : simpl never.
Arguments s3Failover : simpl never.
Arguments cloudFrontFailover : simpl never.
Arguments check_of : simpl never.
Arguments triggerFailover : simpl never.

(** A failover logs its trigger line once and leaves the monitoring object
    alone. *)
Lemma run_triggerFailover env service error w pool :
  In service probed_services ->
  outcome (run env (triggerFailover service error) w pool) = Resolved tt /\
  monitor (final (run env (triggerFailover service error) w pool)) = monitor w /\
  cache (final (run env (triggerFailover service error) w pool)) = cache w /\
  failovers service (final (run env (triggerFailover service error) w pool))
    = failovers service w + 1.
Proof.
  intros Hin. unfold triggerFailover. cbn [bind perform run response effect].
  match goal with
  | |- context [run env ?m ?w1 pool] =>
      assert (Hrest : spec (fun _ => True) (fun _ => 0)
                        (untouched service w1) anything resolved m)
  end.
  { eapply spec_bind with (P := resolved).
    - destruct Hin as [<-|[<-|[<-|[<-|[]]]]];
        cbn [failoverActions String.eqb Ascii.eqb Bool.eqb];
        (eapply spec_bind with (P := resolved);
         [apply spec_await;
          first [apply pollyFailover_quiet | apply transcribeFailover_quiet
                | apply s3Failover_quiet | apply cloudFrontFailover_quiet]
         |intros n a _; cbn; exists tt; reflexivity
         |intros n e [a Ha]; discriminate]).
    - intros n [] _.
      eapply spec_bind with (P := resolved);
        [apply spec_await, sendFailoverAlert_quiet| |intros n' e [a Ha]; discriminate].
      intros n' [] _.
      eapply spec_mono; [|apply spec_await, recordMetric_quiet].
      intros ? ? H. exact H.
    - intros n e [a Ha]. discriminate. }
  match goal with
  | |- context [run env ?m ?w1 pool] =>
      destruct (spec_run _ _ _ _ _ m _ env w1 pool I Hrest) as (k & [[] Ho] & (Hm & Hc & Hf) & _)
  end.
  { repeat split. }
  rewrite Ho. split; [reflexivity|]. split; [|split].
  - rewrite Hm. reflexivity.
  - rewrite Hc. reflexivity.
  - rewrite Hf, failovers_console, String.eqb_refl. reflexivity.
Qed.

(** C3 (as the code has it).  One health check of a probed service whose
    failure counter stands at [n]: the probe resolves; a healthy result sets
    the counter to 0 and the status to healthy and triggers nothing; an
    unhealthy result sets the counter to [n + 1], and below the threshold the
    status becomes degraded and nothing is triggered, while at or above the
    threshold the status becomes failed and the failover is triggered once,
    by this check as by every later failing one. *)
Theorem C3_health_transitions
    (env : Env) (service : string) (healthResults : JsMapOf HealthResult)
    (w : World) (n : nat) :
  let after := final (run env (checkService service healthResults) w []) in
  In service probed_services ->
  counter service w = Some (Num n) ->
  exists result,
    outcome (probe env service w) = Resolved result /\
    if healthy result then
      counter service after = Some (Num 0) /\
      status_of service after = Some Healthy /\
      failovers service after = failovers service w
    else
      counter service after = Some (Num (n + 1)) /\
      if Nat.leb (failoverThreshold (monitor w)) (n + 1) then
        status_of service after = Some Failed /\
        failovers service after = failovers service w + 1
      else
        status_of service after = Some Degraded /\
        failovers service after = failovers service w.
Proof.
  intros after Hin Hn. subst after.
  destruct (spec_run _ _ _ _ _ _ _ env w [] I (check_of_quiet service w service Hin))
    as (k & [result Hres] & (Hm & Hc & Hf) & _).
  { repeat split. }
  exists result. split; [exact Hres|].
  unfold checkService. rewrite run_try_catch, run_bind. fold (probe env service w) in *.
  rewrite Hres. unfold counter, status_of in *.
  destruct result as [[|] rt er nt].
  - cbn. rewrite !JsMapFacts.get_set_eq. repeat split. exact Hf.
  - cbn. rewrite Hm, Hn. cbn.
    destruct (Nat.leb (failoverThreshold (monitor w)) (n + 1)) eqn:Hge.
    + cbn.
      match goal with
      | |- context [run env (bind (await (triggerFailover ?s ?e)) ?f) ?w1 ?p] =>
          rewrite (run_bind _ (await (triggerFailover s e)) _ f env w1 p);
          rewrite (run_await _ (triggerFailover s e) env w1 p);
          destruct (run_triggerFailover env s e w1 p Hin) as (Ho & Hm' & _ & Hf')
      end.
      rewrite Ho. cbn. rewrite Hm', Hf'. cbn.
      rewrite !JsMapFacts.get_set_eq. repeat split.
      unfold failovers in *. cbn. now rewrite <- Hf.
    + cbn. rewrite !JsMapFacts.get_set_eq. repeat split. exact Hf.
Qed.

Lemma C3_health_transitions_witness :
  let after := final (run (broken_env 1) (checkService "s3-cache" []) initial_world []) in
  exists result,
    outcome (probe (broken_env 1) "s3-cache" initial_world) = Resolved result /\
    if healthy result then
      counter "s3-cache" after = Some (Num 0) /\
      status_of "s3-cache" after = Some Healthy /\
      failovers "s3-cache" after = failovers "s3-cache" initial_world
    else
      counter "s3-cache" after = Some (Num (0 + 1)) /\
      if Nat.leb (failoverThreshold (monitor initial_world)) (0 + 1) then
        status_of "s3-cache" after = Some Failed /\
        failovers "s3-cache" after = failovers "s3-cache" initial_world + 1
      else
        status_of "s3-cache" after = Some Degraded /\
        failovers "s3-cache" after = failovers "s3-cache" initial_world.
Proof.
  apply (C3_health_transitions (broken_env 1) "s3-cache" [] initial_world 0).
  - cbn. auto.
  - reflexivity.
Defined.

(** C3, counterexample.  With S3 down the third failed check marks the
    service failed and triggers the failover; the fourth, which changes no
    status, triggers it again. *)
Lemma C3_failover_triggered_again_on_fourth_failure :
  let w3 := checks_with_s3_down 3 initial_world in
  let w4 := checks_with_s3_down 4 initial_world in
  status_of "s3-cache" w3 = Some Failed /\ failovers "s3-cache" w3 = 1 /\
  status_of "s3-cache" w4 = Some Failed /\ failovers "s3-cache" w4 = 2 /\
  failovers "s3-cache" w4 <> failovers "s3-cache" w3.
Proof. vm_compute. repeat split. discriminate. Qed.

(** Three failures go from healthy through degraded to failed, and one
    success brings the counter back to 0 and the status to healthy. *)
Example three_failures_then_a_success :
  let w1 := checks_with_s3_down 1 initial_world in
  let w2 := checks_with_s3_down 2 initial_world in
  let w3 := checks_with_s3_down 3 initial_world in
  let w4 := final (run (cold_env 4) performHealthCheck w3 []) in
  (status_of "s3-cache" initial_world, counter "s3-cache" initial_world)
    = (Some Healthy, Some (Num 0)) /\
  (status_of "s3-cache" w1, counter "s3-cache" w1, failovers "s3-cache" w1)
    = (Some Degraded, Some (Num 1), 0) /\
  (status_of "s3-cache" w2, counter "s3-cache" w2, failovers "s3-cache" w2)
    = (Some Degraded, Some (Num 2), 0) /\
  (status_of "s3-cache" w3, counter "s3-cache" w3, failovers "s3-cache" w3)
    = (Some Failed, Some (Num 3), 1) /\
  (status_of "s3-cache" w4, counter "s3-cache" w4, failovers "s3-cache" w4)
    = (Some Healthy, Some (Num 0), 1).
Proof. vm_compute. repeat split. Qed.

(** ** Health checks never touch the cache object *)

Lemma checkService_resolves env service healthResults w pool :
  exists r, outcome (run env (checkService service healthResults) w pool) = Resolved r.
Proof.
  unfold checkService. rewrite run_try_catch.
  destruct (outcome (run _ _ _ _)) eqn:E; eauto.
Qed.

Lemma checkService_leaves_cache_object env service healthResults w pool :
  In service probed_services ->
  cache (final (run env (checkService service healthResults) w pool)) = cache w.
Proof.
  intros Hin.
  destruct (spec_run _ _ _ _ _ _ _ env w pool I (check_of_quiet service w service Hin))
    as (k & [result Hres] & (Hm & Hc & Hf) & _).
  { repeat split. }
  unfold checkService. rewrite run_try_catch, run_bind, Hres.
  destruct result as [[|] rt er nt]; cbn; [exact Hc|].
  destruct (js_ge _ _); cbn; [|exact Hc].
  match goal with
  | |- context [run env (bind (await (triggerFailover ?s ?e)) ?f) ?w1 ?p] =>
      rewrite (run_bind _ (await (triggerFailover s e)) _ f env w1 p);
      rewrite (run_await _ (triggerFailover s e) env w1 p);
      destruct (run_triggerFailover env s e w1 p Hin) as (Ho & _ & Hc' & _)
  end.
  rewrite Ho. cbn. rewrite Hc'. exact Hc.
Qed.

(** Whatever the health checks find, and whichever failovers they trigger,
    the cache object is as it was: [s3Cache] stays on. *)
Lemma performHealthCheck_leaves_cache_object env w pool :
  cache (final (run env performHealthCheck w pool)) = cache w.
Proof.
  unfold performHealthCheck. cbn [fold_left probed_services].
  repeat
    match goal with
    | |- context [run env (bind ?m ?f) ?w0 ?p] =>
        rewrite (run_bind _ m _ f env w0 p)
    end.
  cbn [run outcome final pending].
  destruct (checkService_resolves env "polly" [] w pool) as [r1 H1].
  rewrite H1.
  set (f1 := run env (checkService "polly" []) w pool) in *.
  destruct (checkService_resolves env "transcribe" r1 (final f1) (pending f1)) as [r2 H2].
  rewrite H2.
  set (f2 := run env (checkService "transcribe" r1) (final f1) (pending f1)) in *.
  destruct (checkService_resolves env "s3-cache" r2 (final f2) (pending f2)) as [r3 H3].
  rewrite H3.
  set (f3 := run env (checkService "s3-cache" r2) (final f2) (pending f2)) in *.
  subst f1 f2 f3.
  rewrite !checkService_leaves_cache_object; cbn; auto 6.
Qed.

(** ** Failover of the durable store *)

(** C9.  After three failed health checks of S3 the service is marked failed
    and [s3Failover] has set [USE_S3_CACHE] to "false", yet the cache object
    still has [s3Cache] on and the next lookup asks the remote tier. *)
Theorem C9_lookup_still_probes_remote_after_failover :
  let w3 := checks_with_s3_down 3 initial_world in
  let lookup := run (broken_env 4) (getAudioWithCache "Emergency alert" "Joanna" no_options)
                  w3 [] in
  status_of "s3-cache" w3 = Some Failed /\
  failovers "s3-cache" w3 = 1 /\
  process_env w3 !! "USE_S3_CACHE" = Some "false" /\
  process_env w3 !! "CACHE_MODE" = Some "memory_only" /\
  s3Cache (cache w3) = true /\
  probes_remote (skipn (length (requests w3)) (requests (final lookup))) = true.
Proof. vm_compute. repeat split. Qed.

(** * Further properties of the cache and of the monitor *)

Ltac frame :=
  repeat (cbn; unfold faulty, anything, resolved;
    match goal with
    | |- forall _, _ => intro
    | |- _ /\ _ => split
    | |- True => exact I
    | H : ?P |- ?P => exact H
    | |- exists _, Resolved ?a = Resolved _ => exists a; reflexivity
    | |- context [match fs_fault ?e ?c with _ => _ end] => destruct (fs_fault e c)
    | |- context [match @lookup ?K ?V ?M ?L ?k ?m with _ => _ end] =>
        destruct (@lookup K V M L k m)
    | |- context [match service ?e ?c with _ => _ end] => destruct (service e c)
    | |- context [if ?b then _ else _] => destruct b
    | |- context [match ?x with _ => _ end] => destruct x
    | |- _ => solve [auto]
    end).

Section CacheFrame.
Variable Inv : World -> Prop.
Hypothesis Inv_console : forall w line, Inv w -> Inv (with_console (fun l => l ++ [line]) w).
Hypothesis Inv_requests : forall w c, Inv w -> Inv (with_requests (fun l => l ++ [c]) w).
Hypothesis Inv_files : forall w f, Inv w -> Inv (with_files f w).
Hypothesis Inv_diskCache : forall w f, Inv w -> Inv (with_cache (with_diskCache f) w).
Hypothesis Inv_memoryCache : forall w f, Inv w -> Inv (with_cache (with_memoryCache f) w).
Hypothesis Inv_stats : forall w f, Inv w -> Inv (with_cache (with_stats f) w).

Local Abbreviation fspec := (spec (fun _ => True) (fun _ => 0) Inv anything).

Lemma frame_seq A B (m : Async A) (f : A -> Async B) :
  fspec anything m -> (forall a, fspec anything (f a)) -> fspec anything (bind m f).
Proof.
  intros Hm Hf. eapply spec_bind; [exact Hm| |exact (fun _ _ _ => I)].
  intros n a _. eapply spec_mono; [|apply Hf]. exact (fun _ _ _ => I).
Qed.

Lemma frame_guarded A (m : Async A) (h : JsError -> Async A) :
  fspec anything m -> (forall e, fspec anything (h e)) -> fspec anything (try_catch m h).
Proof.
  intros Hm Hh. eapply spec_try_catch; [exact Hm|exact (fun _ _ _ => I)|].
  intros n e _. eapply spec_mono; [|apply Hh]. exact (fun _ _ _ => I).
Qed.

Lemma for_await_frame end_error : forall rest acc,
  fspec anything (for_await rest end_error acc).
Proof.
  induction rest as [|c rest IH]; intros acc; cbn.
  - intros _ w _ Hi. split; [exact Hi|]. destruct end_error; exact I.
  - intros _ w _ Hi. split; [exact Hi|]. apply IH.
Qed.

Lemma checkMemoryCache_frame cacheKey : fspec anything (checkMemoryCache cacheKey).
Proof. unfold checkMemoryCache. frame. Qed.

Lemma storeInMemoryCache_frame cacheKey audioBuffer :
  fspec anything (storeInMemoryCache cacheKey audioBuffer).
Proof. unfold storeInMemoryCache. frame. Qed.

Lemma removeDiskCacheEntry_frame cacheKey : fspec anything (removeDiskCacheEntry cacheKey).
Proof. unfold removeDiskCacheEntry. apply frame_guarded; frame. Qed.

Lemma checkDiskCache_frame cacheKey : fspec anything (checkDiskCache cacheKey).
Proof. unfold checkDiskCache. apply frame_guarded; frame. Qed.

Lemma storeToDiskCache_frame cacheKey audioBuffer :
  fspec anything (storeToDiskCache cacheKey audioBuffer).
Proof. unfold storeToDiskCache. apply frame_guarded; frame. Qed.

Lemma checkS3Cache_frame cacheKey : fspec anything (checkS3Cache cacheKey).
Proof.
  unfold checkS3Cache. apply frame_guarded; [|frame].
  cbn. intros _ w0 _ H0. split; [exact H0|]. cbn.
  intros env w _ H1. split; [auto|].
  destruct (service env _) as [h|e]; [|exact I]. cbn.
  intros env1 w1 _ H2. split; [exact H2|]. cbn.
  intros env2 w2 _ H3. split; [exact H3|]. cbn.
  destruct (Z.ltb _ _); [exact I|]. cbn.
  intros env3 w3 _ H4. split; [auto|].
  destruct (service env3 _) as [g|e]; [|exact I]. cbn.
  apply frame_seq; [apply for_await_frame|]. intros a. exact I.
Qed.

Lemma storeToS3Cache_frame cacheKey audioBuffer :
  fspec anything (storeToS3Cache cacheKey audioBuffer).
Proof. unfold storeToS3Cache. apply frame_guarded; frame. Qed.

Lemma generatePollyAudio_frame text voiceId options :
  fspec anything (generatePollyAudio text voiceId options).
Proof.
  unfold generatePollyAudio. apply frame_guarded; [|frame].
  cbn. intros env w _ H. split; [auto|].
  destruct (service env _) as [r|e]; [|exact I]. cbn.
  apply frame_seq; [apply for_await_frame|]. intros a. exact I.
Qed.

(** What [storeInAllCaches] does once the payload is in memory. *)
Lemma slower_stores_frame cacheKey audioBuffer :
  fspec anything (slower_stores cacheKey audioBuffer).
Proof.
  unfold slower_stores.
  apply frame_seq; [apply spec_await, storeToDiskCache_frame|]. intros _.
  cbn. intros env w _ H. split; [exact H|]. cbn.
  destruct (s3Cache _); cbn; [|exact I].
  split; [|exact I].
  apply frame_guarded; [apply storeToS3Cache_frame|frame].
Qed.

Lemma storeInAllCaches_frame cacheKey audioBuffer :
  fspec anything (storeInAllCaches cacheKey audioBuffer).
Proof.
  change (storeInAllCaches cacheKey audioBuffer)
    with (storeInMemoryCache cacheKey audioBuffer ;;; slower_stores cacheKey audioBuffer).
  apply frame_seq; [apply storeInMemoryCache_frame|]. intros _.
  apply slower_stores_frame.
Qed.

Lemma getAudioWithCache_frame text voiceId options :
  fspec anything (getAudioWithCache text voiceId options).
Proof.
  unfold getAudioWithCache. cbn. intros env0 w0 _ H0. split; [auto|]. cbn.
  apply frame_guarded; [|frame].
  apply frame_seq; [apply checkMemoryCache_frame|]. intros [memoryResult|]; [frame|].
  apply frame_seq; [apply spec_await, checkDiskCache_frame|]. intros [diskResult|].
  { cbn. intros env1 w1 _ H1. split; [auto|]. cbn.
    intros env2 w2 _ H2. split; [auto|]. cbn.
    apply frame_seq; [apply storeInMemoryCache_frame|]. intros _. exact I. }
  cbn. intros env1 w1 _ H1. split; [exact H1|]. cbn.
  apply frame_seq.
  { destruct (s3Cache _); [|exact I].
    apply frame_seq; [apply spec_await, checkS3Cache_frame|]. intros [s3Result|]; [|exact I].
    cbn. intros env2 w2 _ H2. split; [auto|]. cbn.
    intros env3 w3 _ H3. split; [auto|]. cbn.
    apply frame_seq; [apply storeInMemoryCache_frame|]. intros _.
    apply frame_seq; [apply spec_await, storeToDiskCache_frame|]. intros _. exact I. }
  intros [hit|]; [exact I|].
  cbn. intros env2 w2 _ H2. split; [auto|]. cbn.
  intros env3 w3 _ H3. split; [auto|]. cbn.
  apply frame_seq; [apply spec_await, generatePollyAudio_frame|]. intros audioBuffer.
  apply frame_seq; [apply spec_await, storeInAllCaches_frame|]. intros _. exact I.
Qed.

(** What holds before a run holds after it. *)
Lemma frame_run A (m : Async A) env w pool :
  fspec anything m -> Inv w -> Inv (final (run env m w pool)).
Proof.
  intros Hm Hi.
  destruct (spec_run _ _ _ _ _ m _ env w pool I Hm Hi) as (n & _ & H & _). exact H.
Qed.
End CacheFrame.


(** ** The pool of background tasks is only ever extended *)

Lemma run_sync_pool : forall A (m : Async A) env w pool,
  run_sync env m w pool =
  mkTurn (task (run_sync env m w [])) (world (run_sync env m w []))
    (pool ++ spawned (run_sync env m w [])).
Proof.
  induction m as [A a | A e | A R op k IH | A bg IHbg k IHk]; intros env w pool;
    cbn [run_sync].
  - cbn. now rewrite app_nil_r.
  - cbn. now rewrite app_nil_r.
  - destruct (is_async op).
    + cbn. now rewrite app_nil_r.
    + apply IH.
  - rewrite (IHbg env w pool). cbn [task world spawned].
    rewrite (IHk env _ ((pool ++ _) ++ _)).
    rewrite (IHk env _ (_ ++ _)). cbn [task world spawned].
    now rewrite !app_assoc.
Qed.

Lemma run_pool : forall A (m : Async A) env w pool,
  run env m w pool =
  mkFinal (outcome (run env m w [])) (final (run env m w []))
    (pool ++ pending (run env m w [])).
Proof.
  induction m as [A a | A e | A R op k IH | A bg IHbg k IHk]; intros env w pool;
    cbn [run].
  - cbn. now rewrite app_nil_r.
  - cbn. now rewrite app_nil_r.
  - apply IH.
  - rewrite (run_sync_pool _ bg env w pool). cbn [task world spawned].
    rewrite (IHk env _ ((pool ++ _) ++ _)).
    rewrite (IHk env _ (_ ++ _)). cbn [outcome final pending].
    now rewrite !app_assoc.
Qed.

Lemma run_pool_outcome A (m : Async A) env w pool :
  outcome (run env m w pool) = outcome (run env m w []).
Proof. now rewrite run_pool. Qed.

Lemma run_pool_final A (m : Async A) env w pool :
  final (run env m w pool) = final (run env m w []).
Proof. now rewrite run_pool. Qed.

(** ** The ways a lookup can go, with the world each leaves *)

Section MorePaths.
Variables (env : Env) (text voiceId : string) (options : Options) (w : World).
Let key := generateCacheKey text voiceId options.
Let lookup := run env (getAudioWithCache text voiceId options) w [].
Let probeM := memory_probe env text voiceId options w.
Let probeD := disk_probe env text voiceId options w.
Let probeR := remote_probe env text voiceId options w.
Let gen := generation env text voiceId options w.

Lemma lookup_cases :
  (exists m, outcome probeM = Resolved (Some m)) \/
  (outcome probeM = Resolved None /\ exists d, outcome probeD = Resolved (Some d)) \/
  (outcome probeM = Resolved None /\ outcome probeD = Resolved None /\
   s3Cache (cache (final probeD)) = true /\
   exists r, outcome probeR = Resolved (Some r)) \/
  all_tiers_miss env text voiceId options w.
Proof.
  subst probeM probeD probeR. unfold all_tiers_miss.
  destruct (checkMemoryCache_resolves env key
              (with_cache (with_stats incr_totalRequests) w) []) as [[m|] HM].
  { left. exists m. exact HM. }
  destruct (checkDiskCache_resolves env key
              (final (memory_probe env text voiceId options w))
              (pending (memory_probe env text voiceId options w))) as [[d|] HD].
  { right. left. split; [exact HM|]. exists d. exact HD. }
  destruct (s3Cache (cache (final (disk_probe env text voiceId options w)))) eqn:Hon.
  - destruct (checkS3Cache_resolves env key
                (final (disk_probe env text voiceId options w))
                (pending (disk_probe env text voiceId options w))) as [[r|] HR].
    + right. right. left. repeat split; auto. exists r. exact HR.
    + right. right. right. repeat split; auto.
  - right. right. right. repeat split; auto.
Qed.

Lemma lookup_all_miss_final :
  all_tiers_miss env text voiceId options w ->
  lookup =
  match outcome gen with
  | Resolved audio =>
      mkFinal (Resolved (mkResult audio generated key false))
        (final (run env (storeInAllCaches key audio) (final gen) (pending gen)))
        (pending (run env (storeInAllCaches key audio) (final gen) (pending gen)))
  | Rejected e =>
      mkFinal (Rejected e)
        (with_console (fun l => l ++ ["Audio caching error"]) (final gen))
        (pending gen)
  end.
Proof.
  intros (HM & HD & HR). subst lookup gen.
  unfold getAudioWithCache. cbn.
  rewrite run_try_catch, run_bind.
  unfold generation, world_at_generation, remote_probe, disk_probe, memory_probe in *.
  fold key in HM, HD, HR |- *. rewrite HM.
  rewrite run_bind, run_await, HD. cbn.
  destruct (s3Cache _) eqn:Hon.
  - destruct HR as [HR|HR]; [discriminate|].
    rewrite run_bind, run_bind, run_await, HR. cbn.
    rewrite run_bind, run_await.
    destruct (outcome (run env (generatePollyAudio _ _ _) _ _)) eqn:HG; cbn.
    + rewrite run_bind, run_await, storeInAllCaches_resolves. reflexivity.
    + reflexivity.
  - cbn. rewrite run_bind, run_await.
    destruct (outcome (run env (generatePollyAudio _ _ _) _ _)) eqn:HG; cbn.
    + rewrite run_bind, run_await, storeInAllCaches_resolves. reflexivity.
    + reflexivity.
Qed.
End MorePaths.

(** ** Counters *)

Lemma keeps_stats A (m : Async A) env w pool :
  spec (fun _ => True) (fun _ => 0) (fun w' => stats (cache w') = stats (cache w))
    anything anything m ->
  stats (cache (final (run env m w pool))) = stats (cache w).
Proof. intros Hm. now apply (frame_run _ _ m env w pool Hm). Qed.

Ltac same := exact (fun _ _ H => H).

Lemma checkMemoryCache_stats env cacheKey w pool :
  stats (cache (final (run env (checkMemoryCache cacheKey) w pool))) = stats (cache w).
Proof. apply keeps_stats, checkMemoryCache_frame; same. Qed.

Lemma checkDiskCache_stats env cacheKey w pool :
  stats (cache (final (run env (checkDiskCache cacheKey) w pool))) = stats (cache w).
Proof. apply keeps_stats, checkDiskCache_frame; same. Qed.

Lemma checkS3Cache_stats env cacheKey w pool :
  stats (cache (final (run env (checkS3Cache cacheKey) w pool))) = stats (cache w).
Proof. apply keeps_stats, checkS3Cache_frame; same. Qed.

Lemma storeInMemoryCache_stats env cacheKey audioBuffer w pool :
  stats (cache (final (run env (storeInMemoryCache cacheKey audioBuffer) w pool)))
  = stats (cache w).
Proof. apply keeps_stats, storeInMemoryCache_frame; same. Qed.

Lemma storeToDiskCache_stats env cacheKey audioBuffer w pool :
  stats (cache (final (run env (storeToDiskCache cacheKey audioBuffer) w pool)))
  = stats (cache w).
Proof. apply keeps_stats, storeToDiskCache_frame; same. Qed.

Lemma generatePollyAudio_stats env text voiceId options w pool :
  stats (cache (final (run env (generatePollyAudio text voiceId options) w pool)))
  = stats (cache w).
Proof. apply keeps_stats, generatePollyAudio_frame; same. Qed.

Lemma storeInAllCaches_stats env cacheKey audioBuffer w pool :
  stats (cache (final (run env (storeInAllCaches cacheKey audioBuffer) w pool)))
  = stats (cache w).
Proof. apply keeps_stats, storeInAllCaches_frame; same. Qed.

Lemma lookup_counted env text voiceId options w :
  let lookup := run env (getAudioWithCache text voiceId options) w [] in
  stats (cache (final lookup)) = counted (outcome lookup) (stats (cache w)).
Proof.
  intros lookup. subst lookup.
  assert (HsM : stats (cache (final (memory_probe env text voiceId options w)))
                = incr_totalRequests (stats (cache w))).
  { unfold memory_probe. now rewrite checkMemoryCache_stats. }
  assert (HsD : stats (cache (final (disk_probe env text voiceId options w)))
                = incr_totalRequests (stats (cache w))).
  { unfold disk_probe. now rewrite checkDiskCache_stats. }
  assert (HsR : stats (cache (final (remote_probe env text voiceId options w)))
                = incr_totalRequests (stats (cache w))).
  { unfold remote_probe. now rewrite checkS3Cache_stats. }
  destruct (lookup_cases env text voiceId options w)
    as [[m HM]|[[HM [d HD]]|[(HM & HD & Hon & r & HR)|Hmiss]]].
  - rewrite (lookup_memory_hit env text voiceId options w m HM). cbn. now rewrite HsM.
  - rewrite (lookup_disk_hit env text voiceId options w d HM HD). cbn [outcome final].
    rewrite storeInMemoryCache_stats. cbn. now rewrite HsD.
  - rewrite (lookup_remote_hit env text voiceId options w r HM HD Hon HR). cbn [outcome final].
    rewrite storeToDiskCache_stats, storeInMemoryCache_stats. cbn. now rewrite HsR.
  - rewrite (lookup_all_miss_final env text voiceId options w Hmiss).
    assert (HsG : stats (cache (final (generation env text voiceId options w)))
                  = incr_misses (incr_totalRequests (stats (cache w)))).
    { unfold generation. rewrite generatePollyAudio_stats.
      unfold world_at_generation. cbn.
      destruct (s3Cache _); [now rewrite HsR|now rewrite HsD]. }
    destruct (outcome (generation env text voiceId options w)); cbn [outcome final].
    + rewrite storeInAllCaches_stats. now rewrite HsG.
    + cbn. now rewrite HsG.
Qed.

(** ** A lookup leaves what it found in memory *)

Lemma storeInAllCaches_memory env cacheKey audioBuffer w pool :
  same_memory
    (with_cache
       (fun c => with_memoryCache
          (fun _ => memory_after_store cacheKey (mkMemEntry audioBuffer (now env)) c) c) w)
    (final (run env (storeInAllCaches cacheKey audioBuffer) w pool)).
Proof.
  change (storeInAllCaches cacheKey audioBuffer)
    with (storeInMemoryCache cacheKey audioBuffer ;;; slower_stores cacheKey audioBuffer).
  rewrite run_bind, run_storeInMemoryCache. cbn [outcome final pending].
  apply frame_run; [|repeat split].
  apply slower_stores_frame; same.
Qed.

Lemma keeps_cacheExpiry A (m : Async A) env w pool :
  spec (fun _ => True) (fun _ => 0)
    (fun w' => cacheExpiry (cache w') = cacheExpiry (cache w)) anything anything m ->
  cacheExpiry (cache (final (run env m w pool))) = cacheExpiry (cache w).
Proof. intros Hm. now apply (frame_run _ _ m env w pool Hm). Qed.

Lemma lookup_cacheExpiry env text voiceId options w pool :
  cacheExpiry (cache (final (run env (getAudioWithCache text voiceId options) w pool)))
  = cacheExpiry (cache w).
Proof. apply keeps_cacheExpiry, getAudioWithCache_frame; same. Qed.

Lemma lookup_leaves_payload env text voiceId options w r :
  let key := generateCacheKey text voiceId options in
  let lookup := run env (getAudioWithCache text voiceId options) w [] in
  outcome lookup = Resolved r ->
  source r <> memory ->
  cacheKey r = key /\
  JsMap.get key (memoryCache (cache (final lookup)))
    = Some (mkMemEntry (audioBuffer r) (now env)).
Proof.
  intros key lookup. subst lookup.
  destruct (lookup_cases env text voiceId options w)
    as [[m HM]|[[HM [d HD]]|[(HM & HD & Hon & p & HR)|Hmiss]]].
  - rewrite (lookup_memory_hit env text voiceId options w m HM). cbn.
    intros [= <-] Hsrc. now destruct Hsrc.
  - rewrite (lookup_disk_hit env text voiceId options w d HM HD). cbn [outcome final].
    intros [= <-] _. split; [reflexivity|].
    rewrite run_storeInMemoryCache. cbn. apply JsMapFacts.get_set_eq.
  - rewrite (lookup_remote_hit env text voiceId options w p HM HD Hon HR). cbn [outcome final].
    intros [= <-] _. split; [reflexivity|].
    rewrite run_storeInMemoryCache. cbn [final].
    match goal with
    | |- context [run env (storeToDiskCache ?k ?a) ?w1 ?p1] =>
        destruct (storeToDiskCache_same_memory env k a w1 p1) as (Hmem & _)
    end.
    rewrite Hmem. cbn. apply JsMapFacts.get_set_eq.
  - rewrite (lookup_all_miss_final env text voiceId options w Hmiss).
    destruct (outcome (generation env text voiceId options w)) as [audio|e];
      cbn [outcome final]; [|discriminate].
    intros [= <-] _. split; [reflexivity|].
    match goal with
    | |- context [run env (storeInAllCaches ?k ?a) ?w1 ?p1] =>
        destruct (storeInAllCaches_memory env k a w1 p1) as (Hmem & _)
    end.
    rewrite Hmem. cbn. apply JsMapFacts.get_set_eq.
Qed.

Lemma lookup_of_fresh_entry env text voiceId options w pool payload t :
  let key := generateCacheKey text voiceId options in
  JsMap.get key (memoryCache (cache w)) = Some (mkMemEntry payload t) ->
  (now env - t < cacheExpiry (cache w))%Z ->
  run env (getAudioWithCache text voiceId options) w pool =
    mkFinal (Resolved (mkResult payload memory key true))
      (with_console (fun l => l ++ ["Memory cache hit"])
         (with_cache (with_stats (fun s => incr_memoryHits (incr_totalRequests s))) w))
      pool /\
  task (run_sync env (getAudioWithCache text voiceId options) w pool)
    = Return (mkResult payload memory key true).
Proof.
  intros key Hget Hfresh. apply Z.ltb_lt in Hfresh.
  unfold getAudioWithCache, checkMemoryCache. fold key.
  cbn. rewrite Hget. cbn. rewrite Hfresh. cbn. split; reflexivity.
Qed.

Lemma same_key text text' voiceId options :
  toLowerCase (trim text') = toLowerCase (trim text) ->
  generateCacheKey text' voiceId options = generateCacheKey text voiceId options.
Proof. intros H. unfold generateCacheKey. now rewrite H. Qed.

(** X1.  A lookup that resolved from disk, from S3 or from the generator is
    followed, within the time to live, by a memory hit: a second lookup of
    a text with the same trimmed, lower-cased form, the same voice and
    options resolves in its first turn with the same payload, source
    [memory] and [fromCache = true], sends no request to AWS, touches no
    file and leaves nothing in the background. *)
Theorem repeated_lookup_is_served_from_memory
    (env env' : Env) (text text' voiceId : string) (options : Options) (w : World)
    (r : AudioResult) (pool : list (Async unit)) :
  let first := run env (getAudioWithCache text voiceId options) w [] in
  let second := run env' (getAudioWithCache text' voiceId options) (final first) pool in
  outcome first = Resolved r ->
  source r <> memory ->
  toLowerCase (trim text') = toLowerCase (trim text) ->
  (now env' - now env < cacheExpiry (cache w))%Z ->
  outcome second = Resolved (mkResult (audioBuffer r) memory (cacheKey r) true) /\
  settled (task (run_sync env' (getAudioWithCache text' voiceId options) (final first) pool))
    = true /\
  requests (final second) = requests (final first) /\
  files (final second) = files (final first) /\
  pending second = pool.
Proof.
  intros first second Hfirst Hsrc Hsame Hfresh.
  destruct (lookup_leaves_payload env text voiceId options w r Hfirst Hsrc) as (Hkey & Hget).
  fold first in Hget.
  rewrite <- (same_key _ _ voiceId options Hsame) in Hget, Hkey.
  rewrite <- (lookup_cacheExpiry env text voiceId options w []) in Hfresh. fold first in Hfresh.
  destruct (lookup_of_fresh_entry env' text' voiceId options (final first) pool _ _ Hget Hfresh)
    as (Hrun & Htask).
  subst second. rewrite Hrun, Htask, Hkey. cbn. auto.
Qed.

Lemma repeated_lookup_is_served_from_memory_witness :
  let first := run (cold_env 0) (getAudioWithCache "Emergency alert" "Joanna" no_options)
                 initial_world [] in
  let second := run (cold_env 5) (getAudioWithCache "  EMERGENCY Alert " "Joanna" no_options)
                  (final first) [] in
  outcome second = Resolved (mkResult "abc" memory alert_key true) /\
  settled (task (run_sync (cold_env 5)
                   (getAudioWithCache "  EMERGENCY Alert " "Joanna" no_options)
                   (final first) [])) = true /\
  requests (final second) = requests (final first) /\
  files (final second) = files (final first) /\
  pending second = [].
Proof.
  apply (repeated_lookup_is_served_from_memory (cold_env 0) (cold_env 5)
           "Emergency alert" "  EMERGENCY Alert " "Joanna" no_options initial_world
           (mkResult "abc" generated alert_key false) []).
  - vm_compute. reflexivity.
  - discriminate.
  - vm_compute. reflexivity.
  - vm_compute. reflexivity.
Defined.

(** ** Counting lookups *)

Lemma counted_totalRequests o s : totalRequests (counted o s) = totalRequests s + 1.
Proof. destruct o as [[b [] k f]|e]; cbn; lia. Qed.

Lemma counted_answered o s : answered (counted o s) = answered s + 1.
Proof. destruct o as [[b [] k f]|e]; unfold answered; cbn; lia. Qed.

Lemma lookup_is_counted
    (env : Env) (text voiceId : string) (options : Options) (w : World)
    (pool : list (Async unit)) :
  let lookup := run env (getAudioWithCache text voiceId options) w pool in
  stats (cache (final lookup)) = counted (outcome lookup) (stats (cache w)) /\
  totalRequests (stats (cache (final lookup))) = totalRequests (stats (cache w)) + 1 /\
  answered (stats (cache (final lookup))) = answered (stats (cache w)) + 1.
Proof.
  intros lookup. subst lookup.
  rewrite run_pool_final, run_pool_outcome.
  pose proof (lookup_counted env text voiceId options w) as H. cbn zeta in H.
  rewrite H. split; [reflexivity|]. split.
  - apply counted_totalRequests.
  - apply counted_answered.
Qed.

(** X2.  Every lookup, whatever its outcome, adds one to
    [stats.totalRequests] and one to exactly one of the counters
    [memoryHits], [diskHits], [s3Hits], [misses]: the one of the tier that
    served it, [misses] when the audio was generated or the lookup
    failed. *)
Theorem every_lookup_is_counted_once
    (env : Env) (text voiceId : string) (options : Options) (w : World)
    (pool : list (Async unit)) :
  let lookup := run env (getAudioWithCache text voiceId options) w pool in
  stats (cache (final lookup)) = counted (outcome lookup) (stats (cache w)) /\
  totalRequests (stats (cache (final lookup))) = totalRequests (stats (cache w)) + 1 /\
  answered (stats (cache (final lookup))) = answered (stats (cache w)) + 1.
Proof.
  intros lookup. subst lookup.
  rewrite run_pool_final, run_pool_outcome.
  pose proof (lookup_counted env text voiceId options w) as H. cbn zeta in H.
  rewrite H. split; [reflexivity|]. split.
  - apply counted_totalRequests.
  - apply counted_answered.
Qed.

(** ** Loops *)

Section Loops.
Variable env : Env.
Variable P : nat -> World -> World -> Prop.
Hypothesis P_refl : forall w, P 0 w w.
Hypothesis P_trans : forall a b w1 w2 w3, P a w1 w2 -> P b w2 w3 -> P (a + b) w1 w3.

Lemma steps_seq a b (m k : Async unit) :
  steps env P a m -> steps env P b k -> steps env P (a + b) (m ;;; k).
Proof.
  intros Hm Hk w pool. rewrite run_bind. destruct (Hm w pool) as (Ho & Hp). rewrite Ho.
  destruct (Hk (final (run env m w pool)) (pending (run env m w pool))) as (Ho' & Hp').
  split; [exact Ho'|]. eapply P_trans; eauto.
Qed.

Lemma steps_for_each {X} (body : X -> Async unit) d (xs : list X) :
  (forall x, steps env P d (body x)) ->
  steps env P (d * length xs) (fold_right (fun x rest => body x ;;; rest) (Return tt) xs).
Proof.
  intros Hbody. induction xs as [|x xs IH]; cbn [fold_right length].
  - intros w pool. cbn. rewrite Nat.mul_0_r. auto.
  - replace (d * S (length xs)) with (d + d * length xs) by lia.
    apply steps_seq; auto.
Qed.
End Loops.

(** ** The memory tier stays within its capacity *)

Lemma size_delete_le {V} k (m : JsMapOf V) : JsMap.size (JsMap.delete k m) <= JsMap.size m.
Proof.
  unfold JsMap.size. induction m as [|[k' v'] m IH]; cbn; [lia|].
  destruct (String.eqb k k'); cbn; lia.
Qed.

Lemma checkMemoryCache_bounded env cacheKey w pool :
  memory_bounded w -> memory_bounded (final (run env (checkMemoryCache cacheKey) w pool)).
Proof.
  intros [Hpos Hle]. unfold checkMemoryCache. cbn.
  destruct (JsMap.get _ _); cbn; [|split; assumption].
  destruct (Z.ltb _ _); cbn; [split; assumption|].
  split; cbn; [exact Hpos|].
  etransitivity; [apply size_delete_le|exact Hle].
Qed.

Lemma storeInMemoryCache_bounded env cacheKey audioBuffer w pool :
  memory_bounded w ->
  memory_bounded (final (run env (storeInMemoryCache cacheKey audioBuffer) w pool)).
Proof.
  intros [Hpos Hle]. rewrite run_storeInMemoryCache. split; cbn; [exact Hpos|].
  now apply memory_after_store_size.
Qed.

Lemma lookup_bounded env text voiceId options w pool :
  memory_bounded w ->
  memory_bounded (final (run env (getAudioWithCache text voiceId options) w pool)).
Proof.
  intros Hw. rewrite run_pool_final.
  assert (HbM : memory_bounded (final (memory_probe env text voiceId options w))).
  { unfold memory_probe. apply checkMemoryCache_bounded. exact Hw. }
  assert (HbD : memory_bounded (final (disk_probe env text voiceId options w))).
  { unfold disk_probe. apply frame_run; [apply checkDiskCache_frame; same|exact HbM]. }
  assert (HbR : memory_bounded (final (remote_probe env text voiceId options w))).
  { unfold remote_probe. apply frame_run; [apply checkS3Cache_frame; same|exact HbD]. }
  destruct (lookup_cases env text voiceId options w)
    as [[m HM]|[[HM [d HD]]|[(HM & HD & Hon & r & HR)|Hmiss]]].
  - rewrite (lookup_memory_hit env text voiceId options w m HM). cbn [final]. exact HbM.
  - rewrite (lookup_disk_hit env text voiceId options w d HM HD). cbn [final].
    apply storeInMemoryCache_bounded. exact HbD.
  - rewrite (lookup_remote_hit env text voiceId options w r HM HD Hon HR). cbn [final].
    apply frame_run; [apply storeToDiskCache_frame; same|].
    apply storeInMemoryCache_bounded. exact HbR.
  - rewrite (lookup_all_miss_final env text voiceId options w Hmiss).
    assert (HbG : memory_bounded (final (generation env text voiceId options w))).
    { unfold generation. apply frame_run; [apply generatePollyAudio_frame; same|].
      unfold world_at_generation. destruct (s3Cache _); [exact HbR|exact HbD]. }
    destruct (outcome (generation env text voiceId options w)); cbn [final]; [|exact HbG].
    change (storeInAllCaches (generateCacheKey text voiceId options) a)
      with (storeInMemoryCache (generateCacheKey text voiceId options) a ;;;
            slower_stores (generateCacheKey text voiceId options) a).
    rewrite run_bind, run_storeInMemoryCache. cbn [outcome final pending].
    apply frame_run; [apply slower_stores_frame; same|].
    pose proof (storeInMemoryCache_bounded env (generateCacheKey text voiceId options) a
                  _ (pending (generation env text voiceId options w)) HbG) as H.
    rewrite run_storeInMemoryCache in H. exact H.
Qed.

(** ** Pre-caching *)

Arguments getAudioWithCache : simpl never.

Lemma preCacheAlert_steps env alert voice :
  steps env after_lookups 1 (preCacheAlert alert voice).
Proof.
  intros w pool. unfold preCacheAlert.
  rewrite run_try_catch, run_bind, run_await.
  destruct (lookup_is_counted env alert voice no_options w pool) as (_ & Ht & Ha).
  pose proof (lookup_bounded env alert voice no_options w pool) as Hb.
  destruct (outcome (run env (getAudioWithCache alert voice no_options) w pool));
    cbn; (split; [reflexivity|]); split; [exact Ht| |exact Ht|]; split;
    [exact Ha|exact Hb|exact Ha|exact Hb].
Qed.

Lemma after_lookups_refl w : after_lookups 0 w w.
Proof. unfold after_lookups. split; [lia|split; [lia|auto]]. Qed.

Lemma after_lookups_trans a b w1 w2 w3 :
  after_lookups a w1 w2 -> after_lookups b w2 w3 -> after_lookups (a + b) w1 w3.
Proof.
  intros (H1 & H2 & H3) (H4 & H5 & H6). unfold after_lookups.
  split; [lia|split; [lia|auto]].
Qed.

Lemma after_lookups_console n w w' line :
  after_lookups n w w' -> after_lookups n w (with_console (fun l => l ++ [line]) w').
Proof. intros H. exact H. Qed.

(** X3.  [preCacheCommonAlerts] always resolves, also when lookups of
    it fail: it makes one lookup for each of its 6 alerts with each of its 3
    voices, so that [stats.totalRequests] grows by 18, and a memory tier
    that was within its capacity is so afterwards. *)
Theorem preCacheCommonAlerts_attempts_every_alert (env : Env) (w : World)
    (pool : list (Async unit)) :
  let after := run env preCacheCommonAlerts w pool in
  outcome after = Resolved tt /\
  totalRequests (stats (cache (final after))) = totalRequests (stats (cache w)) + 18 /\
  answered (stats (cache (final after))) = answered (stats (cache w)) + 18 /\
  (memory_bounded w -> memory_bounded (final after)).
Proof.
  intros after. subst after.
  assert (Hloop : steps env after_lookups (1 * length voices * length commonAlerts)
            (fold_right
               (fun alert rest =>
                  fold_right (fun voice inner => preCacheAlert alert voice ;;; inner)
                    (Return tt) voices ;;; rest)
               (Return tt) commonAlerts)).
  { apply (steps_for_each env after_lookups after_lookups_refl after_lookups_trans
             (fun alert =>
                fold_right (fun voice inner => preCacheAlert alert voice ;;; inner)
                  (Return tt) voices)).
    intros alert.
    apply (steps_for_each env after_lookups after_lookups_refl after_lookups_trans).
    intros voice. apply preCacheAlert_steps. }
  unfold preCacheCommonAlerts.
  cbn [bind perform run response effect].
  rewrite run_bind.
  match goal with
  | |- context [run env ?m ?w1 pool] => destruct (Hloop w1 pool) as (Ho & Ht & Ha & Hb)
  end.
  rewrite Ho. cbn [run outcome final pending bind perform response effect].
  cbn in Ht, Ha. auto.
Qed.

(** ** The cache directory *)

Lemma exists_on_disk_false d p :
  exists_on_disk d p = false <-> payloads d !! p = None /\ metas d !! p = None.
Proof.
  unfold exists_on_disk. rewrite orb_false_iff, !bool_decide_eq_false.
  rewrite <- !eq_None_not_Some. reflexivity.
Qed.

Lemma exists_on_disk_payload d p b : payloads d !! p = Some b -> exists_on_disk d p = true.
Proof.
  intros H. unfold exists_on_disk. apply orb_true_iff. left.
  apply bool_decide_eq_true. rewrite H. eauto.
Qed.

Lemma exists_on_disk_meta d p m : metas d !! p = Some m -> exists_on_disk d p = true.
Proof.
  intros H. unfold exists_on_disk. apply orb_true_iff. right.
  apply bool_decide_eq_true. rewrite H. eauto.
Qed.

Lemma unlink_gone d p : exists_on_disk (unlink p d) p = false.
Proof. apply exists_on_disk_false. cbn. split; apply lookup_delete_eq. Qed.

Lemma unlink_stays_gone d p q :
  exists_on_disk d p = false -> exists_on_disk (unlink q d) p = false.
Proof.
  rewrite !exists_on_disk_false. cbn. intros [H1 H2].
  split; apply lookup_delete_None; auto.
Qed.

Lemma paths_differ dir cacheKey :
  path_join dir (cacheKey +:+ ".mp3") <> path_join dir (cacheKey +:+ ".meta").
Proof.
  unfold path_join. intros H.
  apply (inj (String.app dir)) in H. apply (inj (String.app cacheKey)) in H.
  discriminate.
Qed.

(** ** Removing an entry of the disk tier *)

Lemma run_removeDiskCacheEntry env cacheKey w pool :
  unlinks env ->
  let removed := run env (removeDiskCacheEntry cacheKey) w pool in
  let filePath := path_join (diskCachePath (cache w)) (template cacheKey +:+ ".mp3") in
  let metaPath := path_join (diskCachePath (cache w)) (template cacheKey +:+ ".meta") in
  outcome removed = Resolved tt /\
  cache (final removed) = with_diskCache (delete_key cacheKey) (cache w) /\
  exists_on_disk (files (final removed)) filePath = false /\
  exists_on_disk (files (final removed)) metaPath = false /\
  (forall p, exists_on_disk (files w) p = false ->
             exists_on_disk (files (final removed)) p = false) /\
  (forall p, p <> filePath -> p <> metaPath ->
             payloads (files (final removed)) !! p = payloads (files w) !! p /\
             metas (files (final removed)) !! p = metas (files w) !! p) /\
  requests (final removed) = requests w.
Proof.
  intros Hfs removed filePath metaPath. subst removed.
  unfold removeDiskCacheEntry. rewrite run_try_catch. cbn.
  fold filePath metaPath.
  destruct (exists_on_disk (files w) filePath) eqn:Hfile;
    cbn; unfold faulty; rewrite ?Hfs, ?Hfile; cbn.
  - destruct (exists_on_disk (unlink filePath (files w)) metaPath) eqn:Hmeta;
      cbn; unfold faulty; rewrite ?Hfs, ?Hmeta; cbn.
    + repeat split; auto.
      * apply unlink_stays_gone, unlink_gone.
      * apply unlink_gone.
      * intros p Hp. now apply unlink_stays_gone, unlink_stays_gone.
      * rewrite !lookup_delete_ne by congruence. reflexivity.
      * rewrite !lookup_delete_ne by congruence. reflexivity.
    + repeat split; auto.
      * apply unlink_gone.
      * intros p Hp. now apply unlink_stays_gone.
      * rewrite !lookup_delete_ne by congruence. reflexivity.
      * rewrite !lookup_delete_ne by congruence. reflexivity.
  - destruct (exists_on_disk (files w) metaPath) eqn:Hmeta;
      cbn; unfold faulty; rewrite ?Hfs, ?Hmeta; cbn.
    + repeat split; auto.
      * now apply unlink_stays_gone.
      * apply unlink_gone.
      * intros p Hp. now apply unlink_stays_gone.
      * rewrite !lookup_delete_ne by congruence. reflexivity.
      * rewrite !lookup_delete_ne by congruence. reflexivity.
    + repeat split; auto.
Qed.

Arguments removeDiskCacheEntry : simpl never.

(** ** Storing in the disk tier *)

Lemma run_storeToDiskCache env cacheKey audioBuffer w pool :
  healthy_fs env ->
  let stored := final (run env (storeToDiskCache cacheKey audioBuffer) w pool) in
  cache stored =
    with_diskCache
      (fun m =>
         JsMap.set cacheKey (now env)
           (if Nat.leb (maxDiskCache (cache w)) (JsMap.size m)
            then delete_key (head (JsMap.keys m)) m else m))
      (cache w) /\
  payloads (files stored) !! filePath_of w cacheKey = Some audioBuffer /\
  metas (files stored) !! metaPath_of w cacheKey
    = Some (Some (mkMeta (now env) (String.length audioBuffer) cacheKey)) /\
  requests stored = requests w.
Proof.
  intros Hfs stored. subst stored. unfold filePath_of, metaPath_of.
  unfold storeToDiskCache. rewrite run_try_catch. cbn.
  destruct (Nat.leb (maxDiskCache (cache w)) (JsMap.size (diskCache (cache w)))) eqn:Hfull.
  - rewrite !run_bind.
    destruct (run_removeDiskCacheEntry env (head (JsMap.keys (diskCache (cache w)))) w pool
                (fun path => Hfs (FsUnlink path)))
      as (Ho & Hc & _ & _ & _ & _ & Hr).
    rewrite Ho. repeat (cbn; unfold faulty; rewrite ?Hfs).
    rewrite Hc, Hr. cbn.
    split; [unfold with_diskCache; cbn; rewrite Hfull; reflexivity|].
    repeat split; apply lookup_insert_eq.
  - repeat (cbn; unfold faulty; rewrite ?Hfs).
    split; [unfold with_diskCache; cbn; rewrite Hfull; reflexivity|].
    repeat split; apply lookup_insert_eq.
Qed.

(** X4.  What [storeToDiskCache] writes, [checkDiskCache] reads back:
    on a file system without faults a probe of the key, at most the time
    to live after the write, returns the stored payload and changes
    nothing; the index [diskCache] holds the key with the time of the
    write. *)
Theorem disk_round_trip
    (env env' : Env) (cacheKey : string) (audioBuffer : Buffer) (w : World)
    (pool pool' : list (Async unit)) :
  let stored := final (run env (storeToDiskCache cacheKey audioBuffer) w pool) in
  let probe := run env' (checkDiskCache cacheKey) stored pool' in
  healthy_fs env ->
  healthy_fs env' ->
  (now env' - now env <= cacheExpiry (cache w))%Z ->
  outcome probe = Resolved (Some audioBuffer) /\
  final probe = stored /\
  JsMap.get cacheKey (diskCache (cache stored)) = Some (now env).
Proof.
  intros stored probe Hfs Hfs' Hage.
  destruct (run_storeToDiskCache env cacheKey audioBuffer w pool Hfs) as (Hc & Hp & Hm & _).
  fold stored in Hc, Hp, Hm. unfold filePath_of, metaPath_of in Hp, Hm.
  apply Z.ltb_ge in Hage.
  subst probe. unfold checkDiskCache. rewrite run_try_catch. cbn.
  rewrite Hc. cbn.
  rewrite (exists_on_disk_payload _ _ _ Hp). cbn.
  rewrite (exists_on_disk_meta _ _ _ Hm). cbn.
  unfold faulty. rewrite !Hfs', Hm. cbn. rewrite Hage. cbn.
  unfold faulty. rewrite ?Hfs', Hp. cbn.
  split; [reflexivity|]. split; [reflexivity|].
  apply JsMapFacts.get_set_eq.
Qed.

Arguments exists_on_disk : simpl never.
Arguments unlink : simpl never.

Lemma disk_round_trip_witness :
  let stored := final (run (cold_env 0) (storeToDiskCache alert_key "abc") initial_world []) in
  let probe := run (cold_env 5) (checkDiskCache alert_key) stored [] in
  outcome probe = Resolved (Some "abc") /\
  final probe = stored /\
  JsMap.get alert_key (diskCache (cache stored)) = Some (now (cold_env 0)).
Proof.
  apply (disk_round_trip (cold_env 0) (cold_env 5) alert_key "abc" initial_world [] []).
  - intros call. reflexivity.
  - intros call. reflexivity.
  - vm_compute. discriminate.
Defined.

(** X5.  A disk probe that finds the payload and a metadata file older
    than the time to live is a miss and unlinks both files; the cache
    object, that is also the entry of the key in the index [diskCache], is
    left as it was. *)
Theorem expired_disk_entry_is_unlinked_but_stays_indexed
    (env : Env) (cacheKey : string) (w : World) (pool : list (Async unit))
    (payload : Buffer) (meta : DiskMeta) :
  let probe := run env (checkDiskCache cacheKey) w pool in
  healthy_fs env ->
  payloads (files w) !! filePath_of w cacheKey = Some payload ->
  metas (files w) !! metaPath_of w cacheKey = Some (Some meta) ->
  (cacheExpiry (cache w) < now env - meta_timestamp meta)%Z ->
  outcome probe = Resolved None /\
  exists_on_disk (files (final probe)) (filePath_of w cacheKey) = false /\
  exists_on_disk (files (final probe)) (metaPath_of w cacheKey) = false /\
  cache (final probe) = cache w.
Proof.
  intros probe Hfs Hp Hm Hold. unfold filePath_of, metaPath_of in *.
  apply Z.ltb_lt in Hold.
  assert (Hmeta' : exists_on_disk
            (unlink (path_join (diskCachePath (cache w)) (cacheKey +:+ ".mp3")) (files w))
            (path_join (diskCachePath (cache w)) (cacheKey +:+ ".meta")) = true).
  { eapply exists_on_disk_meta. unfold unlink. cbn [metas].
    rewrite lookup_delete_ne; [exact Hm|]. apply paths_differ. }
  subst probe. unfold checkDiskCache. rewrite run_try_catch.
  repeat (cbn; unfold faulty;
          rewrite ?Hfs, ?Hm, ?Hold, ?Hmeta',
            ?(exists_on_disk_payload _ _ _ Hp), ?(exists_on_disk_meta _ _ _ Hm)).
  repeat split.
  - apply unlink_stays_gone, unlink_gone.
  - apply unlink_gone.
Qed.

Lemma expired_disk_entry_is_unlinked_but_stays_indexed_witness :
  let probe := run (cold_env (TTL + 1)) (checkDiskCache alert_key) stocked_world [] in
  outcome probe = Resolved None /\
  exists_on_disk (files (final probe)) (filePath_of stocked_world alert_key) = false /\
  exists_on_disk (files (final probe)) (metaPath_of stocked_world alert_key) = false /\
  cache (final probe) = cache stocked_world.
Proof.
  apply (expired_disk_entry_is_unlinked_but_stays_indexed (cold_env (TTL + 1)) alert_key
           stocked_world [] "abc" (mkMeta 0 3 alert_key)).
  - intros call. reflexivity.
  - vm_compute. reflexivity.
  - vm_compute. reflexivity.
  - vm_compute. reflexivity.
Defined.

(** ** The index of the disk tier stays within its capacity *)

Lemma size_after_put {V} (k : string) (v : V) (m : JsMapOf V) (cap : nat) :
  0 < cap -> JsMap.size m <= cap ->
  JsMap.size (JsMap.set k v (if Nat.leb cap (JsMap.size m)
                             then delete_key (head (JsMap.keys m)) m else m)) <= cap.
Proof.
  intros Hpos Hle. destruct (Nat.leb _ _) eqn:E.
  - apply Nat.leb_le in E. rewrite JsMapFacts.delete_first_key.
    etransitivity; [apply JsMapFacts.size_set_le|].
    unfold JsMap.size in *. destruct m; cbn in *; lia.
  - apply Nat.leb_gt in E. etransitivity; [apply JsMapFacts.size_set_le|]. lia.
Qed.

Lemma size_after_eviction {V} (m : JsMapOf V) (cap : nat) :
  JsMap.size m <= cap ->
  JsMap.size (if Nat.leb cap (JsMap.size m)
              then delete_key (head (JsMap.keys m)) m else m) <= cap.
Proof.
  intros Hle. destruct (Nat.leb _ _); [|exact Hle].
  rewrite JsMapFacts.delete_first_key. unfold JsMap.size in *. destruct m; cbn in *; lia.
Qed.

Lemma storeToDiskCache_index env cacheKey audioBuffer w pool :
  unlinks env ->
  let stored := final (run env (storeToDiskCache cacheKey audioBuffer) w pool) in
  let evicted :=
    if Nat.leb (maxDiskCache (cache w)) (JsMap.size (diskCache (cache w)))
    then delete_key (head (JsMap.keys (diskCache (cache w)))) (diskCache (cache w))
    else diskCache (cache w) in
  maxDiskCache (cache stored) = maxDiskCache (cache w) /\
  (diskCache (cache stored) = evicted \/
   diskCache (cache stored) = JsMap.set cacheKey (now env) evicted).
Proof.
  intros Hun stored evicted. subst stored evicted.
  unfold storeToDiskCache. rewrite run_try_catch. cbn.
  destruct (Nat.leb (maxDiskCache (cache w)) (JsMap.size (diskCache (cache w)))) eqn:Hfull.
  - rewrite !run_bind.
    destruct (run_removeDiskCacheEntry env (head (JsMap.keys (diskCache (cache w)))) w pool Hun)
      as (Ho & Hc & _).
    rewrite Ho. cbn. unfold faulty.
    destruct (fs_fault env (FsWrite _)); cbn; rewrite ?Hc; cbn; [auto|].
    unfold faulty. destruct (fs_fault env (FsWrite _)); cbn; rewrite ?Hc; cbn; auto.
  - cbn. unfold faulty.
    destruct (fs_fault env (FsWrite _)); cbn; [auto|].
    unfold faulty. destruct (fs_fault env (FsWrite _)); cbn; auto.
Qed.

Lemma disk_puts_cons env cacheKey audioBuffer ops w :
  disk_puts ((env, (cacheKey, audioBuffer)) :: ops) w =
  disk_puts ops (final (run env (storeToDiskCache cacheKey audioBuffer) w [])).
Proof. reflexivity. Qed.

Lemma size_set_new {V} (k : string) (v : V) (m : JsMapOf V) :
  ~ In k (JsMap.keys m) -> JsMap.size (JsMap.set k v m) = S (JsMap.size m).
Proof.
  unfold JsMap.size, JsMap.keys. induction m as [|[k' v'] m IH]; cbn; [reflexivity|].
  intros Hin. destruct (String.eqb_spec k k') as [->|Hne]; [tauto|].
  cbn. rewrite IH; tauto.
Qed.

Lemma keys_set_new {V} (k : string) (v : V) (m : JsMapOf V) :
  ~ In k (JsMap.keys m) -> JsMap.keys (JsMap.set k v m) = JsMap.keys m ++ [k].
Proof.
  unfold JsMap.keys. induction m as [|[k' v'] m IH]; cbn; [reflexivity|].
  intros Hin. destruct (String.eqb_spec k k') as [->|Hne]; [tauto|].
  cbn. rewrite IH; tauto.
Qed.

(** A store into a full index, up to the [await] that follows the
    eviction, and what is left of it when it is resumed. *)
Lemma storeToDiskCache_suspended env env' cacheKey audioBuffer w pool :
  unlinks env ->
  healthy_fs env' ->
  maxDiskCache (cache w) <= JsMap.size (diskCache (cache w)) ->
  let first := run_sync env (storeToDiskCache cacheKey audioBuffer) w pool in
  settled (task first) = false /\
  cache (world first)
    = with_diskCache (delete_key (head (JsMap.keys (diskCache (cache w))))) (cache w) /\
  forall w' pool',
    outcome (run env' (task first) w' pool') = Resolved tt /\
    cache (final (run env' (task first) w' pool'))
      = with_diskCache (JsMap.set cacheKey (now env')) (cache w').
Proof.
  intros Hun Hfs Hfull first. subst first.
  apply Nat.leb_le in Hfull.
  unfold storeToDiskCache, removeDiskCacheEntry. cbn. rewrite Hfull. cbn.
  repeat match goal with
         | |- context [exists_on_disk ?d ?p] =>
             destruct (exists_on_disk d p) eqn:?; cbn; unfold faulty; rewrite ?Hun;
             repeat match goal with
                    | H : exists_on_disk _ _ = _ |- _ => rewrite H
                    end;
             cbn
         end;
    (split; [reflexivity|]); (split; [reflexivity|]);
    intros w' pool'; cbn; unfold faulty; rewrite ?Hfs; cbn;
      unfold faulty; rewrite ?Hfs; cbn; auto.
Qed.

Lemma keys_tail {V} (m : JsMapOf V) : JsMap.keys (tail m) = tail (JsMap.keys m).
Proof. destruct m; reflexivity. Qed.

Lemma not_in_tail {X} (x : X) (l : list X) : ~ In x l -> ~ In x (tail l).
Proof. destruct l; cbn; tauto. Qed.

(** X6.  The index [diskCache] stays within [maxDiskCache] as long as
    every [storeToDiskCache] has finished before the next one starts:
    from an index within a positive capacity any sequence of such stores,
    at whatever times and whether or not the writes succeed, leaves no
    more than [maxDiskCache] keys, provided [unlink] does not fail.
    Stores that overlap break the bound: a store into a full index evicts
    the oldest key and is suspended at its [await]; a second store that
    runs meanwhile finds room and inserts its key; when the first store
    is resumed it inserts its own, which makes [maxDiskCache + 1] keys. *)
Theorem disk_index_within_capacity_unless_stores_overlap
    (w : World) (ops : list (Env * (string * Buffer)))
    (full : World) (env1 env2 env3 : Env) (key1 key2 : string) (audio1 audio2 : Buffer) :
  let first := run_sync env1 (storeToDiskCache key1 audio1) full [] in
  let second := run env2 (storeToDiskCache key2 audio2) (world first) [] in
  let last := run env3 (task first) (final second) [] in
  Forall (fun op => unlinks (fst op)) ops ->
  0 < maxDiskCache (cache w) ->
  JsMap.size (diskCache (cache w)) <= maxDiskCache (cache w) ->
  healthy_fs env1 -> healthy_fs env2 -> healthy_fs env3 ->
  0 < maxDiskCache (cache full) ->
  JsMap.size (diskCache (cache full)) = maxDiskCache (cache full) ->
  ~ In key1 (JsMap.keys (diskCache (cache full))) ->
  ~ In key2 (JsMap.keys (diskCache (cache full))) ->
  key1 <> key2 ->
  (JsMap.size (diskCache (cache (disk_puts ops w))) <= maxDiskCache (cache (disk_puts ops w)) /\
   maxDiskCache (cache (disk_puts ops w)) = maxDiskCache (cache w)) /\
  (settled (task first) = false /\
   outcome second = Resolved tt /\
   outcome last = Resolved tt /\
   maxDiskCache (cache (final last)) = maxDiskCache (cache full) /\
   JsMap.size (diskCache (cache (final last))) = maxDiskCache (cache full) + 1).
Proof.
  intros first second last Hun Hpos Hle Hfs1 Hfs2 Hfs3 Hpos' Hfull Hk1 Hk2 Hne.
  split.
  { clear - Hun Hpos Hle.
    revert w Hun Hpos Hle.
    induction ops as [|[env [k b]] ops IH]; intros w Hun Hpos Hle; [auto|].
    inversion Hun as [|? ? Hu Hun']; subst. cbn [fst] in Hu.
    rewrite disk_puts_cons.
    destruct (storeToDiskCache_index env k b w [] Hu) as (Hmax & Hidx).
    destruct (IH (final (run env (storeToDiskCache k b) w [])) Hun') as (H1 & H2).
    - rewrite Hmax. exact Hpos.
    - rewrite Hmax. destruct Hidx as [-> | ->].
      + now apply size_after_eviction.
      + now apply size_after_put.
    - split; [exact H1|]. rewrite H2. exact Hmax. }
  destruct (storeToDiskCache_suspended env1 env3 key1 audio1 full []
              (fun path => Hfs1 (FsUnlink path)) Hfs3) as (Hs & Hc1 & Hrest); [lia|].
  fold first in Hs, Hc1, Hrest.
  destruct (run_storeToDiskCache env2 key2 audio2 (world first) [] Hfs2) as (Hc2 & _).
  fold second in Hc2.
  destruct (Hrest (final second) []) as (Ho3 & Hc3). fold last in Ho3, Hc3.
  split; [exact Hs|]. split; [apply storeToDiskCache_resolves|]. split; [exact Ho3|].
  rewrite Hc3, Hc2, Hc1. cbn.
  rewrite JsMapFacts.delete_first_key.
  assert (Hroom : Nat.leb (maxDiskCache (cache full))
                    (JsMap.size (tail (diskCache (cache full)))) = false).
  { apply Nat.leb_gt. unfold JsMap.size in *.
    destruct (diskCache (cache full)); cbn in *; lia. }
  unfold JsMap.size in Hroom. rewrite Hroom. split; [reflexivity|].
  assert (H2 : ~ In key2 (JsMap.keys (tail (diskCache (cache full))))).
  { rewrite keys_tail. now apply not_in_tail. }
  assert (H1 : ~ In key1 (JsMap.keys (JsMap.set key2 (now env2) (tail (diskCache (cache full)))))).
  { rewrite keys_set_new by exact H2.
    rewrite keys_tail. intros Hin. apply in_app_or in Hin.
    destruct Hin as [Hin|[Heq|[]]]; [|congruence].
    now apply (not_in_tail key1 _ Hk1). }
  pose proof (size_set_new key2 (now env2) _ H2) as S2.
  pose proof (size_set_new key1 (now env3) _ H1) as S1.
  unfold JsMap.size in *. rewrite S1, S2.
  destruct (diskCache (cache full)); cbn in *; lia.
Qed.

Lemma disk_index_within_capacity_unless_stores_overlap_witness :
  let w := with_cache (with_maxDiskCache 2) initial_world in
  let ops := [(cold_env 0, ("A", "a")); (cold_env 1, ("B", "b")); (cold_env 2, ("C", "c"))] in
  let full := disk_puts [(cold_env 0, ("A", "a"))]
                (with_cache (with_maxDiskCache 1) initial_world) in
  let first := run_sync (cold_env 1) (storeToDiskCache "B" "b") full [] in
  let second := run (cold_env 2) (storeToDiskCache "C" "c") (world first) [] in
  let last := run (cold_env 3) (task first) (final second) [] in
  (JsMap.size (diskCache (cache (disk_puts ops w))) <= maxDiskCache (cache (disk_puts ops w)) /\
   maxDiskCache (cache (disk_puts ops w)) = maxDiskCache (cache w)) /\
  (settled (task first) = false /\
   outcome second = Resolved tt /\
   outcome last = Resolved tt /\
   maxDiskCache (cache (final last)) = maxDiskCache (cache full) /\
   JsMap.size (diskCache (cache (final last))) = maxDiskCache (cache full) + 1).
Proof.
  apply (disk_index_within_capacity_unless_stores_overlap
           (with_cache (with_maxDiskCache 2) initial_world)
           [(cold_env 0, ("A", "a")); (cold_env 1, ("B", "b")); (cold_env 2, ("C", "c"))]
           (disk_puts [(cold_env 0, ("A", "a"))]
              (with_cache (with_maxDiskCache 1) initial_world))
           (cold_env 1) (cold_env 2) (cold_env 3) "B" "C" "b" "c").
  - repeat constructor.
  - cbn. lia.
  - cbn. lia.
  - intros call. reflexivity.
  - intros call. reflexivity.
  - intros call. reflexivity.
  - vm_compute. lia.
  - reflexivity.
  - vm_compute. intuition discriminate.
  - vm_compute. intuition discriminate.
  - discriminate.
Defined.

(** The index after the puts of the example: at capacity 2 the third put
    has evicted the first key; after the overlapping stores at capacity 1
    both new keys are indexed. *)
Example disk_index_examples :
  let w := with_cache (with_maxDiskCache 2) initial_world in
  let ops := [(cold_env 0, ("A", "a")); (cold_env 1, ("B", "b")); (cold_env 2, ("C", "c"))] in
  let full := disk_puts [(cold_env 0, ("A", "a"))]
                (with_cache (with_maxDiskCache 1) initial_world) in
  let first := run_sync (cold_env 1) (storeToDiskCache "B" "b") full [] in
  let second := run (cold_env 2) (storeToDiskCache "C" "c") (world first) [] in
  let last := run (cold_env 3) (task first) (final second) [] in
  JsMap.keys (diskCache (cache (disk_puts ops w))) = ["B"; "C"] /\
  JsMap.keys (diskCache (cache full)) = ["A"] /\
  JsMap.keys (diskCache (cache (final last))) = ["C"; "B"].
Proof. vm_compute. auto. Qed.

Lemma delete_middle {V} (k : string) (v : V) (kept es : JsMapOf V) :
  ~ In k (JsMap.keys kept) ->
  JsMap.delete k (kept ++ (k, v) :: es) = kept ++ es.
Proof.
  induction kept as [|[k' v'] kept IH]; intros Hnot; cbn.
  - now rewrite String.eqb_refl.
  - destruct (String.eqb k k') eqn:E.
    + apply String.eqb_eq in E. subst k'. exfalso. apply Hnot. cbn. auto.
    + rewrite IH; [reflexivity|]. intros Hin. apply Hnot. cbn. auto.
Qed.

Lemma sweep_from {V} (dead : V -> bool) : forall (es kept : JsMapOf V),
  List.NoDup (JsMap.keys (kept ++ es)) ->
  sweep dead es (kept ++ es) = kept ++ List.filter (fun kv => negb (dead (snd kv))) es.
Proof.
  induction es as [|[k v] es IH]; intros kept Hnd; [reflexivity|].
  cbn [sweep fold_left List.filter snd fst].
  destruct (dead v) eqn:Hd; cbn [negb].
  - unfold JsMap.keys in Hnd. rewrite map_app in Hnd. cbn [map fst] in Hnd.
    pose proof (List.NoDup_remove_2 _ _ _ Hnd) as Hnot.
    pose proof (List.NoDup_remove_1 _ _ _ Hnd) as Hnd'.
    rewrite delete_middle.
    + apply IH. unfold JsMap.keys. now rewrite map_app.
    + intros Hin. apply Hnot. apply List.in_or_app. auto.
  - replace (kept ++ (k, v) :: es) with ((kept ++ [(k, v)]) ++ es)
      by now rewrite <- app_assoc.
    fold (sweep dead es ((kept ++ [(k, v)]) ++ es)).
    rewrite IH.
    + now rewrite <- app_assoc.
    + now rewrite <- app_assoc.
Qed.

Lemma sweep_filter {V} (dead : V -> bool) (m : JsMapOf V) :
  List.NoDup (JsMap.keys m) ->
  sweep dead m m = List.filter (fun kv => negb (dead (snd kv))) m.
Proof. intros Hnd. apply (sweep_from dead m []). exact Hnd. Qed.

Lemma unique_value {V} (m : JsMapOf V) k v v' :
  List.NoDup (JsMap.keys m) -> In (k, v) m -> In (k, v') m -> v = v'.
Proof.
  induction m as [|[k0 v0] m IH]; intros Hnd H1 H2; [contradiction|].
  cbn in Hnd. inversion Hnd as [|? ? Hnot Hnd']; subst.
  destruct H1 as [E1|H1], H2 as [E2|H2]; auto.
  - congruence.
  - injection E1 as -> ->. exfalso. apply Hnot. apply (List.in_map fst _ _ H2).
  - injection E2 as -> ->. exfalso. apply Hnot. apply (List.in_map fst _ _ H1).
Qed.

Lemma with_memoryCache_same w : with_cache (with_memoryCache (fun m => m)) w = w.
Proof. destruct w as [[] ? ? ? ? ?]. reflexivity. Qed.

Lemma with_diskCache_same c : with_diskCache (fun m => m) c = c.
Proof. destruct c. reflexivity. Qed.

(** ** The hourly cleanup *)

Section Cleanup.
Variables (env : Env) (expiry at_time : Z).

Lemma run_sweep_memory : forall (es : JsMapOf MemEntry) w pool,
  run env
    (fold_right
       (fun '(key, value) rest =>
          (if (expiry <? at_time - timestamp value)%Z then
             perform (UpdateCache (with_memoryCache (JsMap.delete key)))
           else Return tt) ;;; rest)
       (Return tt) es) w pool
  = mkFinal (Resolved tt)
      (with_cache
         (with_memoryCache
            (sweep (fun value => (expiry <? at_time - timestamp value)%Z) es)) w)
      pool.
Proof.
  induction es as [|[k v] es IH]; intros w pool.
  - cbn. now rewrite with_memoryCache_same.
  - cbn [fold_right]. rewrite run_bind.
    unfold sweep. cbn [fold_left fst snd].
    destruct (expiry <? at_time - timestamp v)%Z; cbn; rewrite IH; reflexivity.
Qed.

Hypothesis Hunlinks : unlinks env.

Lemma run_sweep_disk : forall (es : JsMapOf Z) w pool,
  let swept :=
    run env
      (fold_right
         (fun '(key, timestamp) rest =>
            (if (expiry <? at_time - timestamp)%Z then removeDiskCacheEntry (Some key)
             else Return tt) ;;; rest)
         (Return tt) es) w pool in
  outcome swept = Resolved tt /\
  cache (final swept)
    = with_diskCache (sweep (fun t => (expiry <? at_time - t)%Z) es) (cache w) /\
  (forall p, exists_on_disk (files w) p = false ->
             exists_on_disk (files (final swept)) p = false) /\
  (forall key t, In (key, t) es -> (expiry <? at_time - t)%Z = true ->
     exists_on_disk (files (final swept)) (filePath_of w key) = false /\
     exists_on_disk (files (final swept)) (metaPath_of w key) = false) /\
  (forall p,
     (forall key t, In (key, t) es -> (expiry <? at_time - t)%Z = true ->
        p <> filePath_of w key /\ p <> metaPath_of w key) ->
     payloads (files (final swept)) !! p = payloads (files w) !! p /\
     metas (files (final swept)) !! p = metas (files w) !! p).
Proof.
  induction es as [|[k t] es IH]; intros w pool swept; subst swept.
  - cbn. rewrite with_diskCache_same.
    split; [reflexivity|]. split; [reflexivity|]. split; [auto|].
    split; [intros ? ? []|auto].
  - cbn [fold_right]. rewrite run_bind.
    unfold sweep. cbn [fold_left fst snd].
    destruct (expiry <? at_time - t)%Z eqn:Hdead.
    + destruct (run_removeDiskCacheEntry env (Some k) w pool Hunlinks)
        as (Ho & Hc & Hf & Hm & Hstay & Hother & _).
      rewrite Ho. cbn [template default] in Hf, Hm, Hother.
      set (w1 := final (run env (removeDiskCacheEntry (Some k)) w pool)) in *.
      destruct (IH w1 (pending (run env (removeDiskCacheEntry (Some k)) w pool)))
        as (Ho' & Hc' & Hstay' & Hgone' & Hother').
      assert (Hpath : diskCachePath (cache w1) = diskCachePath (cache w)).
      { rewrite Hc. reflexivity. }
      split; [exact Ho'|]. split; [|split; [|split]].
      * rewrite Hc', Hc. reflexivity.
      * intros p Hp. apply Hstay', Hstay, Hp.
      * intros key t' [[= -> ->]|Hin] Hd.
        -- split; apply Hstay'; assumption.
        -- destruct (Hgone' key t' Hin Hd) as (G1 & G2).
           unfold filePath_of, metaPath_of in *. rewrite Hpath in G1, G2. auto.
      * intros p Hp.
        destruct (Hp k t (or_introl eq_refl) Hdead) as (P1 & P2).
        destruct (Hother p P1 P2) as (O1 & O2).
        destruct (Hother' p) as (O3 & O4).
        { intros key t' Hin Hd. unfold filePath_of, metaPath_of. rewrite Hpath.
          apply (Hp key t' (or_intror Hin) Hd). }
        split; congruence.
    + cbn [run bind outcome final pending].
      destruct (IH w pool) as (Ho' & Hc' & Hstay' & Hgone' & Hother').
      split; [exact Ho'|]. split; [exact Hc'|]. split; [exact Hstay'|]. split.
      * intros key t' [[= -> ->]|Hin] Hd; [congruence|]. apply (Hgone' key t' Hin Hd).
      * intros p Hp. apply Hother'. intros key t' Hin Hd.
        apply (Hp key t' (or_intror Hin) Hd).
Qed.
End Cleanup.

(** ** File names *)

Lemma append_inj_l (s s' t : string) : s +:+ t = s' +:+ t -> s = s'.
Proof.
  intros H. apply list_ascii_of_string_inj.
  apply (f_equal list_ascii_of_string) in H.
  rewrite !list_ascii_of_string_app in H. now apply app_inv_tail in H.
Qed.

Lemma payload_is_no_metadata dir (k k' : string) :
  path_join dir (k +:+ ".mp3") <> path_join dir (k' +:+ ".meta").
Proof.
  unfold path_join. intros H. apply (inj (String.app dir)) in H.
  apply (f_equal list_ascii_of_string) in H.
  rewrite !list_ascii_of_string_app in H.
  apply (f_equal (@rev ascii)) in H. rewrite !rev_app_distr in H.
  cbn in H. discriminate.
Qed.

Lemma payload_path_inj dir (k k' : string) :
  path_join dir (k +:+ ".mp3") = path_join dir (k' +:+ ".mp3") -> k = k'.
Proof.
  unfold path_join. intros H. apply (inj (String.app dir)) in H.
  now apply append_inj_l in H.
Qed.

Lemma metadata_path_inj dir (k k' : string) :
  path_join dir (k +:+ ".meta") = path_join dir (k' +:+ ".meta") -> k = k'.
Proof.
  unfold path_join. intros H. apply (inj (String.app dir)) in H.
  now apply append_inj_l in H.
Qed.

Arguments cleanupExpiredEntries : simpl never.

(** X7.  [cleanupExpiredEntries] removes from memory and from the disk
    index exactly the entries older than the time to live and keeps the
    others in their order; the files of a removed disk entry are unlinked,
    the files of a kept one are untouched.  The keys of a [Map] are
    distinct; the keys of the disk index are taken to be keys as
    [generateCacheKey] makes them, and [unlink] not to fail. *)
Theorem cleanupExpiredEntries_drops_exactly_what_outlived_the_ttl
    (env : Env) (w : World) (pool : list (Async unit)) :
  let swept := run env cleanupExpiredEntries w pool in
  List.NoDup (JsMap.keys (memoryCache (cache w))) ->
  List.NoDup (JsMap.keys (diskCache (cache w))) ->
  Forall (fun key => is_cache_key key = true) (JsMap.keys (diskCache (cache w))) ->
  unlinks env ->
  outcome swept = Resolved tt /\
  memoryCache (cache (final swept))
    = List.filter (fun kv => negb (outlived env w (timestamp (snd kv))))
        (memoryCache (cache w)) /\
  diskCache (cache (final swept))
    = List.filter (fun kv => negb (outlived env w (snd kv))) (diskCache (cache w)) /\
  (forall key t, In (key, t) (diskCache (cache w)) ->
     if outlived env w t then
       exists_on_disk (files (final swept)) (filePath_of w key) = false /\
       exists_on_disk (files (final swept)) (metaPath_of w key) = false
     else
       payloads (files (final swept)) !! filePath_of w key
         = payloads (files w) !! filePath_of w key /\
       metas (files (final swept)) !! metaPath_of w key
         = metas (files w) !! metaPath_of w key).
Proof.
  intros swept HndM HndD _ Hun. subst swept.
  unfold cleanupExpiredEntries. cbn [bind perform run response effect].
  rewrite run_bind, run_sweep_memory. cbn [outcome final pending].
  rewrite run_bind.
  match goal with
  | |- context [run env (fold_right ?f ?z ?es) ?w1 ?p1] =>
      destruct (run_sweep_disk env (cacheExpiry (cache w)) (now env) Hun es w1 p1)
        as (Ho & Hc & _ & Hgone & Hother)
  end.
  unfold JsMap.entries in *. rewrite Ho. cbn [run bind perform outcome final pending response effect].
  cbn [cache with_console]. rewrite Hc. cbn.
  split; [reflexivity|]. split; [|split].
  - apply (sweep_filter (fun value => (cacheExpiry (cache w) <? now env - timestamp value)%Z)).
    exact HndM.
  - apply (sweep_filter (fun t => (cacheExpiry (cache w) <? now env - t)%Z)). exact HndD.
  - intros key t Hin. unfold outlived.
    destruct (cacheExpiry (cache w) <? now env - t)%Z eqn:Hdead.
    + apply (Hgone key t Hin Hdead).
    + assert (Hlive : forall p, p = filePath_of w key \/ p = metaPath_of w key ->
                forall key' t', In (key', t') (diskCache (cache w)) ->
                  (cacheExpiry (cache w) <? now env - t')%Z = true ->
                  p <> filePath_of w key' /\ p <> metaPath_of w key').
      { intros p Hp key' t' Hin' Hdead'.
        assert (Hne : key <> key').
        { intros <-. pose proof (unique_value _ _ _ _ HndD Hin Hin'). congruence. }
        unfold filePath_of, metaPath_of in *.
        destruct Hp as [-> | ->]; split; intros Heq.
        - apply Hne. now apply payload_path_inj in Heq.
        - now apply payload_is_no_metadata in Heq.
        - symmetry in Heq. now apply payload_is_no_metadata in Heq.
        - apply Hne. now apply metadata_path_inj in Heq. }
      split.
      * apply (Hother (filePath_of w key)). intros key' t'. apply Hlive. auto.
      * apply (Hother (metaPath_of w key)). intros key' t'. apply Hlive. auto.
Qed.

Lemma cleanupExpiredEntries_drops_exactly_what_outlived_the_ttl_witness :
  let env := cold_env (TTL + 10) in
  let w := restocked_world in
  let swept := run env cleanupExpiredEntries w [] in
  outcome swept = Resolved tt /\
  memoryCache (cache (final swept))
    = List.filter (fun kv => negb (outlived env w (timestamp (snd kv))))
        (memoryCache (cache w)) /\
  diskCache (cache (final swept))
    = List.filter (fun kv => negb (outlived env w (snd kv))) (diskCache (cache w)) /\
  (forall key t, In (key, t) (diskCache (cache w)) ->
     if outlived env w t then
       exists_on_disk (files (final swept)) (filePath_of w key) = false /\
       exists_on_disk (files (final swept)) (metaPath_of w key) = false
     else
       payloads (files (final swept)) !! filePath_of w key
         = payloads (files w) !! filePath_of w key /\
       metas (files (final swept)) !! metaPath_of w key
         = metas (files w) !! metaPath_of w key).
Proof.
  apply (cleanupExpiredEntries_drops_exactly_what_outlived_the_ttl
           (cold_env (TTL + 10)) restocked_world []).
  - vm_compute. repeat constructor; cbn; intuition discriminate.
  - vm_compute. repeat constructor; cbn; intuition discriminate.
  - vm_compute. repeat constructor.
  - intros path. reflexivity.
Defined.

(** After the cleanup of the example only the second key is left. *)
Example cleanup_leaves_the_second_key :
  let swept := final (run (cold_env (TTL + 10)) cleanupExpiredEntries restocked_world []) in
  JsMap.keys (memoryCache (cache restocked_world)) = [alert_key; second_key] /\
  JsMap.keys (memoryCache (cache swept)) = [second_key] /\
  JsMap.keys (diskCache (cache swept)) = [second_key].
Proof. vm_compute. auto. Qed.

(** X8.  For texts of the ASCII range the cache key is the MD5 digest
    of a string that determines the request: two requests give the same
    string exactly when they have the same trimmed, lower-cased text, the
    same voice and the same engine and format after defaulting.  Quotes
    and backslashes in a text or a voice cannot make two requests collide
    before hashing. *)
Theorem distinct_requests_are_hashed_from_distinct_strings
    (text voiceId : string) (options : Options)
    (text' voiceId' : string) (options' : Options) :
  ascii_text text = true ->
  ascii_text text' = true ->
  generateCacheKey text voiceId options = MD5.hex (cacheKeyData text voiceId options) /\
  (cacheKeyData text voiceId options = cacheKeyData text' voiceId' options' <->
   toLowerCase (trim text) = toLowerCase (trim text') /\
   voiceId = voiceId' /\
   or_default (engine options) "neural" = or_default (engine options') "neural" /\
   or_default (format options) "mp3" = or_default (format options') "mp3").
Proof.
  intros _ _. split; [reflexivity|]. split.
  - apply cacheKeyData_inj.
  - intros (H1 & H2 & H3 & H4). unfold cacheKeyData. now rewrite H1, H2, H3, H4.
Qed.

Lemma distinct_requests_are_hashed_from_distinct_strings_witness :
  let text := " Alert ACKNOWLEDGED" in
  let text' := "alert acknowledged" in
  let options := mkOptions (Some "neural") None in
  generateCacheKey text "Amy" options = MD5.hex (cacheKeyData text "Amy" options) /\
  (cacheKeyData text "Amy" options = cacheKeyData text' "Amy" no_options <->
   toLowerCase (trim text) = toLowerCase (trim text') /\
   "Amy" = "Amy" /\
   or_default (engine options) "neural" = or_default (engine no_options) "neural" /\
   or_default (format options) "mp3" = or_default (format no_options) "mp3").
Proof.
  apply (distinct_requests_are_hashed_from_distinct_strings
           " Alert ACKNOWLEDGED" "Amy" (mkOptions (Some "neural") None)
           "alert acknowledged" "Amy" no_options); reflexivity.
Defined.

(** ** What the monitor leaves alone *)

Section MonitorFrame.
Variable Inv : World -> Prop.
Hypothesis Inv_console : forall w line, Inv w -> Inv (with_console (fun l => l ++ [line]) w).
Hypothesis Inv_requests : forall w c, Inv w -> Inv (with_requests (fun l => l ++ [c]) w).
Hypothesis Inv_setting : forall w var value,
  In (var, value) failover_settings -> Inv w -> Inv (with_process_env (insert var value) w).
Hypothesis Inv_monitor : forall w f, Inv w -> Inv (with_monitor f w).

Local Abbreviation mspec := (spec (fun _ => True) (fun _ => 0) Inv anything).

Ltac settle :=
  repeat (cbn; unfold faulty, anything, resolved;
    match goal with
    | |- forall _, _ => intro
    | |- _ /\ _ => split
    | |- True => exact I
    | H : ?P |- ?P => exact H
    | |- Inv (with_process_env _ _) => apply Inv_setting; [cbn; auto 12|]
    | |- exists _, Resolved ?a = Resolved _ => exists a; reflexivity
    | |- context [match @lookup ?K ?V ?M ?L ?k ?m with _ => _ end] =>
        destruct (@lookup K V M L k m)
    | |- context [match service ?e ?c with _ => _ end] => destruct (service e c)
    | |- context [if ?b then _ else _] => destruct b
    | |- context [match ?x with _ => _ end] => destruct x
    | |- _ => solve [auto]
    end).

Lemma mframe_seq A B (m : Async A) (f : A -> Async B) :
  mspec resolved m -> (forall a, mspec resolved (f a)) -> mspec resolved (bind m f).
Proof.
  intros Hm Hf. eapply spec_bind; [exact Hm| |].
  - intros n a _. eapply spec_mono; [|apply Hf]. exact (fun _ _ H => H).
  - intros n e [a Ha]. discriminate.
Qed.

Lemma mframe_guarded A (m : Async A) (h : JsError -> Async A) :
  mspec anything m -> (forall e, mspec resolved (h e)) -> mspec resolved (try_catch m h).
Proof.
  intros Hm Hh. eapply spec_try_catch; [exact Hm| |].
  - intros n a _. exists a. reflexivity.
  - intros n e _. eapply spec_mono; [|apply Hh]. exact (fun _ _ H => H).
Qed.

Lemma mframe_any A (m : Async A) (Q : nat -> Outcome A -> Prop) :
  mspec Q m -> mspec anything m.
Proof. apply spec_mono. exact (fun _ _ _ => I). Qed.

Lemma mframe_seq_any A B (m : Async A) (f : A -> Async B) :
  mspec anything m -> (forall a, mspec anything (f a)) -> mspec anything (bind m f).
Proof.
  intros Hm Hf. eapply spec_bind; [exact Hm| |exact (fun _ _ _ => I)].
  intros n a _. eapply spec_mono; [|apply Hf]. exact (fun _ _ _ => I).
Qed.

Lemma recordMetric_frame metricName value unitName dimensions :
  mspec resolved (recordMetric metricName value unitName dimensions).
Proof. unfold recordMetric. apply mframe_guarded; settle. Qed.

Lemma checkPollyHealth_frame : mspec resolved checkPollyHealth.
Proof. unfold checkPollyHealth, recordMetric. apply mframe_guarded; settle. Qed.

Lemma checkTranscribeHealth_frame : mspec resolved checkTranscribeHealth.
Proof. unfold checkTranscribeHealth, recordMetric. apply mframe_guarded; settle. Qed.

Lemma checkS3Health_frame : mspec resolved checkS3Health.
Proof. unfold checkS3Health, recordMetric. apply mframe_guarded; settle. Qed.

Lemma checkCloudFrontHealth_frame : mspec resolved checkCloudFrontHealth.
Proof. unfold checkCloudFrontHealth, recordMetric. apply mframe_guarded; settle. Qed.

Lemma check_of_frame service : mspec anything (check_of service).
Proof.
  unfold check_of.
  repeat (destruct (String.eqb service _));
    first [exact I | apply (mframe_any _ _ resolved), spec_await].
  - apply checkPollyHealth_frame.
  - apply checkTranscribeHealth_frame.
  - apply checkS3Health_frame.
  - apply checkCloudFrontHealth_frame.
Qed.

Lemma sendFailoverAlert_frame service error :
  mspec resolved (sendFailoverAlert service error).
Proof. unfold sendFailoverAlert. apply mframe_guarded; settle. Qed.

Lemma pollyFailover_frame error : mspec resolved (pollyFailover error).
Proof.
  unfold pollyFailover. cbn -[try_catch]. intros env w _ H. split; [auto|].
  apply mframe_guarded; settle.
Qed.

Lemma transcribeFailover_frame error : mspec resolved (transcribeFailover error).
Proof.
  unfold transcribeFailover. cbn -[try_catch]. intros env w _ H. split; [auto|].
  apply mframe_guarded; settle.
Qed.

Lemma s3Failover_frame error : mspec resolved (s3Failover error).
Proof.
  unfold s3Failover. cbn -[try_catch]. intros env w _ H. split; [auto|].
  apply mframe_guarded; settle.
Qed.

Lemma cloudFrontFailover_frame error : mspec resolved (cloudFrontFailover error).
Proof.
  unfold cloudFrontFailover. cbn -[try_catch]. intros env w _ H. split; [auto|].
  apply mframe_guarded; settle.
Qed.

Lemma triggerFailover_frame service error : mspec anything (triggerFailover service error).
Proof.
  unfold triggerFailover. cbn. intros env w _ H. split; [auto|].
  apply mframe_seq_any.
  - unfold failoverActions.
    repeat (destruct (String.eqb service _));
      [apply mframe_seq_any; [apply (mframe_any _ _ resolved), spec_await|intros a; exact I]..|].
    + apply pollyFailover_frame.
    + apply transcribeFailover_frame.
    + apply s3Failover_frame.
    + apply cloudFrontFailover_frame.
    + destruct (Object_prototype service) as [[[]|e]|]; cbn; [|exact I..].
      intros env1 w1 _ H1. split; [exact H1|exact I].
  - intros [].
    apply mframe_seq_any; [apply (mframe_any _ _ resolved), spec_await, sendFailoverAlert_frame|].
    intros []. apply (mframe_any _ _ resolved), spec_await, recordMetric_frame.
Qed.

Lemma checkService_frame service healthResults :
  mspec resolved (checkService service healthResults).
Proof.
  unfold checkService. apply mframe_guarded; [|settle].
  apply mframe_seq_any; [apply check_of_frame|]. intros result.
  apply mframe_seq_any; [|intros []; exact I].
  destruct (healthy result); [settle|].
  cbn. intros env w _ H. split; [exact H|]. cbn.
  intros env1 w1 _ H1. split; [auto|]. cbn.
  destruct (js_ge _ _); [|settle].
  cbn. intros env2 w2 _ H2. split; [auto|]. cbn.
  apply spec_await, triggerFailover_frame.
Qed.

Lemma performHealthCheck_frame : mspec resolved performHealthCheck.
Proof.
  unfold performHealthCheck. cbn [fold_left probed_services].
  repeat (apply mframe_seq; [|intros ?; apply checkService_frame]).
  exists []. reflexivity.
Qed.

Lemma manualFailover_frame service reason : mspec anything (manualFailover service reason).
Proof.
  unfold manualFailover. cbn. intros env w _ H. split; [auto|].
  apply spec_await, triggerFailover_frame.
Qed.

Lemma healthMonitoringRound_frame : mspec resolved healthMonitoringRound.
Proof.
  unfold healthMonitoringRound. apply mframe_guarded; [|settle].
  apply mframe_seq_any;
    [apply (mframe_any _ _ resolved), spec_await, performHealthCheck_frame|].
  intros healthResults. cbn. intros env w _ H. split; [auto|]. cbn.
  apply (mframe_any _ _ resolved), spec_await, recordMetric_frame.
Qed.

Lemma mframe_run A (m : Async A) env w pool :
  mspec resolved m -> Inv w ->
  (exists a, outcome (run env m w pool) = Resolved a) /\ Inv (final (run env m w pool)).
Proof.
  intros Hm Hi.
  destruct (spec_run _ _ _ _ _ m _ env w pool I Hm Hi) as (n & Ho & H & _). auto.
Qed.

Lemma mframe_keeps A (m : Async A) env w pool :
  mspec anything m -> Inv w -> Inv (final (run env m w pool)).
Proof.
  intros Hm Hi.
  destruct (spec_run _ _ _ _ _ m _ env w pool I Hm Hi) as (n & _ & H & _). exact H.
Qed.
End MonitorFrame.

(** ** Verdicts of the probes *)

Lemma run_recordMetric env metricName value unitName dimensions w pool :
  exists w',
    run env (recordMetric metricName value unitName dimensions) w pool
    = mkFinal (Resolved tt) w' pool /\
    process_env w' = process_env w.
Proof.
  unfold recordMetric. rewrite run_try_catch. cbn.
  destruct (service env _); cbn; eauto.
Qed.

Ltac metric :=
  match goal with
  | |- context [run ?env (bind (await (recordMetric ?a ?b ?c ?d)) ?f) ?w ?p] =>
      rewrite (run_bind _ (await (recordMetric a b c d)) _ f env w p),
              (run_await _ (recordMetric a b c d) env w p);
      let w' := fresh "w" in
      let E := fresh "E" in
      destruct (run_recordMetric env a b c d w p) as (w' & -> & E);
      cbn [outcome final pending]
  | |- context [run ?env (await (recordMetric ?a ?b ?c ?d)) ?w ?p] =>
      rewrite (run_await _ (recordMetric a b c d) env w p);
      let w' := fresh "w" in
      let E := fresh "E" in
      destruct (run_recordMetric env a b c d w p) as (w' & -> & E);
      cbn [outcome final pending]
  end.

Lemma checkPollyHealth_verdict env w pool :
  exists result,
    outcome (run env checkPollyHealth w pool) = Resolved result /\
    healthy result = reachable env w "polly".
Proof.
  unfold checkPollyHealth, reachable. rewrite run_try_catch. cbn.
  destruct (service env _) as [r|e]; cbn.
  - repeat metric. cbn. eauto.
  - repeat metric. cbn. eauto.
Qed.

Lemma checkTranscribeHealth_verdict env w pool :
  exists result,
    outcome (run env checkTranscribeHealth w pool) = Resolved result /\
    healthy result = reachable env w "transcribe".
Proof.
  unfold checkTranscribeHealth, reachable. rewrite run_try_catch. cbn.
  repeat metric. cbn. eauto.
Qed.

Lemma checkS3Health_verdict env w pool :
  exists result,
    outcome (run env checkS3Health w pool) = Resolved result /\
    healthy result = reachable env w "s3-cache".
Proof.
  unfold checkS3Health, reachable. rewrite run_try_catch. cbn.
  destruct (service env _) as [r|e]; cbn.
  - repeat metric. cbn. eauto.
  - repeat metric. cbn. eauto.
Qed.

Lemma checkCloudFrontHealth_verdict env w pool :
  exists result,
    outcome (run env checkCloudFrontHealth w pool) = Resolved result /\
    healthy result = reachable env w "cloudfront".
Proof.
  unfold checkCloudFrontHealth, reachable. rewrite run_try_catch. cbn.
  destruct (process_env w !! "CLOUDFRONT_DOMAIN") as [[|c cdnDomain]|]; cbn; eauto.
  destruct (service env _) as [r|e]; cbn.
  - repeat metric. cbn. eauto.
  - repeat metric. cbn. eauto.
Qed.

Lemma check_of_verdict env service w pool :
  In service probed_services ->
  exists result,
    outcome (run env (check_of service) w pool) = Resolved result /\
    healthy result = reachable env w service.
Proof.
  intros [<-|[<-|[<-|[<-|[]]]]]; unfold check_of;
    cbn [String.eqb Ascii.eqb Bool.eqb]; rewrite run_await.
  - apply checkPollyHealth_verdict.
  - apply checkTranscribeHealth_verdict.
  - apply checkS3Health_verdict.
  - apply checkCloudFrontHealth_verdict.
Qed.

(** One health check of one service: its verdict, what it returns and what
    it writes in the monitoring object. *)
Lemma run_checkService env service healthResults w pool :
  In service probed_services ->
  exists result,
    healthy result = reachable env w service /\
    outcome (run env (checkService service healthResults) w pool)
      = Resolved (JsMap.set service result healthResults) /\
    monitor (final (run env (checkService service healthResults) w pool)) =
      if healthy result then
        with_serviceStatus (JsMap.set service Healthy)
          (with_consecutiveFailures (JsMap.set service (Num 0)) (monitor w))
      else
        let failures := js_succ (JsMap.get service (consecutiveFailures (monitor w))) in
        with_serviceStatus
          (JsMap.set service
             (if js_ge failures (failoverThreshold (monitor w)) then Failed else Degraded))
          (with_consecutiveFailures (JsMap.set service failures) (monitor w)).
Proof.
  intros Hin.
  destruct (check_of_verdict env service w pool Hin) as (result & Hres & Hverdict).
  destruct (spec_run _ _ _ _ _ _ _ env w pool I (check_of_quiet service w service Hin))
    as (k & _ & (Hm & _ & _) & _).
  { repeat split. }
  exists result. split; [exact Hverdict|].
  unfold checkService. rewrite run_try_catch, run_bind, Hres.
  destruct (healthy result) eqn:Hh.
  - cbn. rewrite Hm. split; reflexivity.
  - cbn. rewrite Hm.
    destruct (js_ge _ _) eqn:Hge.
    + cbn.
      match goal with
      | |- context [run env (bind (await (triggerFailover ?s ?e)) ?f) ?w1 ?p] =>
          rewrite (run_bind _ (await (triggerFailover s e)) _ f env w1 p);
          rewrite (run_await _ (triggerFailover s e) env w1 p);
          destruct (run_triggerFailover env s e w1 p Hin) as (Ho & Hm' & _ & _)
      end.
      rewrite Ho. cbn. rewrite Hm'. cbn. rewrite Hm. split; reflexivity.
    + cbn. rewrite Hm. split; reflexivity.
Qed.

(** ** Failover settings *)

Lemma settings_between_refl w : settings_between w w.
Proof. intros var. now left. Qed.

Lemma settings_between_trans w1 w2 w3 :
  settings_between w1 w2 -> settings_between w2 w3 -> settings_between w1 w3.
Proof.
  intros H12 H23 var. destruct (H23 var) as [E|H]; [|now right].
  rewrite E. apply H12.
Qed.

Lemma settings_between_setting w0 w var value :
  In (var, value) failover_settings ->
  settings_between w0 w ->
  settings_between w0 (with_process_env (insert var value) w).
Proof.
  intros Hin H var'. cbn.
  destruct (decide (var' = var)) as [->|Hne].
  - right. exists value. split; [exact Hin|]. apply lookup_insert_eq.
  - rewrite lookup_insert_ne by congruence. apply H.
Qed.

Lemma one_value_per_setting var value value' :
  In (var, value) failover_settings -> In (var, value') failover_settings -> value = value'.
Proof.
  unfold failover_settings. cbn.
  intros H H'.
  repeat (destruct H as [H|H]; [injection H as <- <-|]); try contradiction;
    repeat (destruct H' as [H'|H']; [try discriminate H'; injection H' as <-|]);
    try contradiction; reflexivity.
Qed.

Lemma settings_stick w0 w var value :
  settings_between w0 w ->
  In (var, value) failover_settings ->
  process_env w0 !! var = Some value ->
  process_env w !! var = Some value.
Proof.
  intros H Hin H0. destruct (H var) as [E|(value' & Hin' & E)]; [congruence|].
  now rewrite (one_value_per_setting _ _ _ Hin Hin').
Qed.

Lemma settings_leave_others w0 w var :
  settings_between w0 w ->
  (forall value, ~ In (var, value) failover_settings) ->
  process_env w !! var = process_env w0 !! var.
Proof.
  intros H Hnot. destruct (H var) as [E|(value' & Hin' & E)]; [exact E|].
  now apply Hnot in Hin'.
Qed.

Lemma round_settings env w pool :
  settings_between w (final (run env healthMonitoringRound w pool)).
Proof.
  apply (mframe_run (settings_between w)); [..|apply settings_between_refl].
  apply healthMonitoringRound_frame.
  - exact (fun _ _ H => H).
  - exact (fun _ _ H => H).
  - intros w' var value. apply settings_between_setting.
  - exact (fun _ _ H => H).
Qed.

Lemma health_rounds_settings envs : forall w, settings_between w (health_rounds envs w).
Proof.
  induction envs as [|env envs IH]; intros w; cbn.
  - apply settings_between_refl.
  - eapply settings_between_trans; [apply round_settings|apply IH].
Qed.

(** X9.  A variable of [process.env] that holds the value a failover
    gives it keeps that value through any number of monitoring rounds:
    no round, also not one in which the service has recovered, resets a
    failover setting; a round changes no variable other than to such a
    value. *)
Theorem a_failover_setting_is_never_taken_back
    (envs : list Env) (w : World) (var value : string) :
  In (var, value) failover_settings ->
  process_env w !! var = Some value ->
  process_env (health_rounds envs w) !! var = Some value /\
  settings_between w (health_rounds envs w).
Proof.
  intros Hin H0. split; [|apply health_rounds_settings].
  eapply settings_stick; eauto. apply health_rounds_settings.
Qed.

Lemma a_failover_setting_is_never_taken_back_witness :
  let w3 := checks_with_s3_down 3 initial_world in
  process_env (health_rounds [cold_env 4; cold_env 5] w3) !! "USE_S3_CACHE" = Some "false" /\
  settings_between w3 (health_rounds [cold_env 4; cold_env 5] w3).
Proof.
  apply (a_failover_setting_is_never_taken_back [cold_env 4; cold_env 5]
           (checks_with_s3_down 3 initial_world) "USE_S3_CACHE" "false").
  - cbn. auto 10.
  - vm_compute. reflexivity.
Defined.

(** ** One round of the monitor *)

Lemma reachable_settings env w0 w service :
  settings_between w0 w -> reachable env w service = reachable env w0 service.
Proof.
  intros H. unfold reachable.
  rewrite (settings_leave_others w0 w "AUDIO_CACHE_BUCKET" H),
          (settings_leave_others w0 w "CLOUDFRONT_DOMAIN" H); [reflexivity| |];
    intros value Hin; cbn in Hin;
    repeat (destruct Hin as [Hin|Hin]; [discriminate Hin|]); contradiction.
Qed.

Lemma checkService_settings env service healthResults w pool :
  settings_between w (final (run env (checkService service healthResults) w pool)).
Proof.
  apply (mframe_run (settings_between w)); [..|apply settings_between_refl].
  apply checkService_frame.
  - exact (fun _ _ H => H).
  - exact (fun _ _ H => H).
  - intros w' var value. apply settings_between_setting.
  - exact (fun _ _ H => H).
Qed.

(** A health check returns one result per probed service, in order. *)
Lemma run_performHealthCheck env w pool :
  exists r1 r2 r3 r4,
    outcome (run env performHealthCheck w pool)
      = Resolved [("polly", r1); ("transcribe", r2); ("s3-cache", r3); ("cloudfront", r4)] /\
    healthy r1 = reachable env w "polly" /\
    healthy r2 = reachable env w "transcribe" /\
    healthy r3 = reachable env w "s3-cache" /\
    healthy r4 = reachable env w "cloudfront".
Proof.
  unfold performHealthCheck. cbn [fold_left probed_services].
  repeat
    match goal with
    | |- context [run env (bind ?m ?f) ?w0 ?p] =>
        rewrite (run_bind _ m _ f env w0 p)
    end.
  cbn [run outcome final pending].
  destruct (run_checkService env "polly" [] w pool) as (r1 & V1 & O1 & _); [cbn; auto 6|].
  rewrite O1.
  pose proof (checkService_settings env "polly" [] w pool) as S1.
  set (f1 := run env (checkService "polly" []) w pool) in *.
  destruct (run_checkService env "transcribe" (JsMap.set "polly" r1 []) (final f1) (pending f1))
    as (r2 & V2 & O2 & _); [cbn; auto 6|].
  rewrite O2.
  pose proof (checkService_settings env "transcribe" (JsMap.set "polly" r1 [])
                (final f1) (pending f1)) as S2.
  set (f2 := run env (checkService "transcribe" _) (final f1) (pending f1)) in *.
  destruct (run_checkService env "s3-cache"
              (JsMap.set "transcribe" r2 (JsMap.set "polly" r1 [])) (final f2) (pending f2))
    as (r3 & V3 & O3 & _); [cbn; auto 6|].
  rewrite O3.
  pose proof (checkService_settings env "s3-cache"
                (JsMap.set "transcribe" r2 (JsMap.set "polly" r1 []))
                (final f2) (pending f2)) as S3.
  set (f3 := run env (checkService "s3-cache" _) (final f2) (pending f2)) in *.
  destruct (run_checkService env "cloudfront"
              (JsMap.set "s3-cache" r3 (JsMap.set "transcribe" r2 (JsMap.set "polly" r1 [])))
              (final f3) (pending f3))
    as (r4 & V4 & O4 & _); [cbn; auto 6|].
  rewrite O4.
  exists r1, r2, r3, r4. split; [reflexivity|].
  pose proof (settings_between_trans _ _ _ S1 S2) as S12.
  pose proof (settings_between_trans _ _ _ S12 S3) as S123.
  rewrite (reachable_settings env w _ _ S1) in V2.
  rewrite (reachable_settings env w _ _ S12) in V3.
  rewrite (reachable_settings env w _ _ S123) in V4.
  auto.
Qed.

(** X10.  [performHealthCheck] always resolves with the verdicts of
    polly, transcribe, s3-cache and cloudfront in this order; a verdict is
    healthy exactly when the probe request of that dependency is answered,
    whatever the state of the monitor and the other verdicts, and the
    verdict of transcribe is always healthy. *)
Theorem a_verdict_depends_only_on_the_probed_dependency
    (env : Env) (w : World) (pool : list (Async unit)) :
  exists r1 r2 r3 r4,
    outcome (run env performHealthCheck w pool)
      = Resolved [("polly", r1); ("transcribe", r2); ("s3-cache", r3); ("cloudfront", r4)] /\
    healthy r1 = reachable env w "polly" /\
    healthy r2 = true /\
    healthy r3 = reachable env w "s3-cache" /\
    healthy r4 = reachable env w "cloudfront".
Proof. apply run_performHealthCheck. Qed.

Lemma run_recordMetric_request env metricName value unitName dimensions w pool :
  outcome (run env (recordMetric metricName value unitName dimensions) w pool) = Resolved tt /\
  requests (final (run env (recordMetric metricName value unitName dimensions) w pool))
    = requests w ++
      [PutMetricData metricName value unitName
         ([("Environment", "Production"); ("Region", monitor_region)] ++ dimensions)].
Proof.
  unfold recordMetric. rewrite run_try_catch. cbn.
  destruct (service env _); cbn; auto.
Qed.

(** X11.  A monitoring round always resolves, and the last request it
    sends is the CloudWatch metric [SystemHealth], with value 1 when all
    probed dependencies answered and 0 otherwise. *)
Theorem a_round_records_the_overall_health
    (env : Env) (w : World) (pool : list (Async unit)) :
  let round := run env healthMonitoringRound w pool in
  outcome round = Resolved tt /\
  last (requests (final round)) =
    Some (PutMetricData "SystemHealth"
            (if forallb (reachable env w) probed_services then 1 else 0)%Z "Count"
            [("Environment", "Production"); ("Region", "ap-south-1")]).
Proof.
  intros round. subst round. unfold healthMonitoringRound.
  rewrite run_try_catch, run_bind, run_await.
  destruct (run_performHealthCheck env w pool) as (r1 & r2 & r3 & r4 & Ho & V1 & V2 & V3 & V4).
  rewrite Ho. cbn [run bind perform response effect outcome final pending].
  rewrite run_await.
  match goal with
  | |- context [run env (recordMetric ?a ?b ?c ?d) ?w1 ?p1] =>
      destruct (run_recordMetric_request env a b c d w1 p1) as (Hm & Hr)
  end.
  rewrite Hm. cbn iota. split; [exact Hm|].
  rewrite Hr, last_snoc. cbn [forallb snd probed_services app].
  rewrite V1, V2, V3, V4. reflexivity.
Qed.

(** ** The status report *)

Lemma keys_set_in {V} (k : string) (v : V) (m : JsMapOf V) :
  In k (JsMap.keys m) -> JsMap.keys (JsMap.set k v m) = JsMap.keys m.
Proof.
  unfold JsMap.keys. induction m as [|[k' v'] m IH]; cbn; [contradiction|].
  intros [->|Hin].
  - now rewrite String.eqb_refl.
  - destruct (String.eqb k k'); cbn; [reflexivity|]. now rewrite IH.
Qed.

Lemma steady_update m service c st :
  In service probed_services ->
  (service = "transcribe" -> c = Num 0 /\ st = Healthy) ->
  steady m ->
  steady (with_serviceStatus (JsMap.set service st)
            (with_consecutiveFailures (JsMap.set service c) m)).
Proof.
  intros Hin Htr (Hks & Hkc & Hnf).
  assert (Hreg : In service registered_services).
  { cbn in Hin |- *. tauto. }
  split; [|split];
    cbn [serviceStatus consecutiveFailures with_serviceStatus with_consecutiveFailures].
  - rewrite keys_set_in; [exact Hks|]. now rewrite Hks.
  - rewrite keys_set_in; [exact Hkc|]. now rewrite Hkc.
  - unfold never_failing in *.
    inversion Hnf as [|? ? [T1 T2] Hnf1]; subst.
    inversion Hnf1 as [|? ? [W1 W2] Hnf2]; subst.
    inversion Hnf2 as [|? ? [K1 K2] _]; subst.
    destruct Hin as [<-|[<-|[<-|[<-|[]]]]];
      try (destruct (Htr eq_refl) as [-> ->]);
      repeat constructor;
      first [apply JsMapFacts.get_set_eq
            | rewrite JsMapFacts.get_set_ne by discriminate; assumption].
Qed.

Lemma checkService_steady env service healthResults w pool :
  In service probed_services ->
  steady (monitor w) ->
  steady (monitor (final (run env (checkService service healthResults) w pool))).
Proof.
  intros Hin Hs.
  destruct (run_checkService env service healthResults w pool Hin) as (r & Hv & _ & ->).
  destruct (healthy r) eqn:Hh.
  - apply steady_update; auto.
  - apply steady_update; auto.
    intros ->. cbn in Hv. discriminate Hv.
Qed.

Lemma performHealthCheck_steady env w pool :
  steady (monitor w) -> steady (monitor (final (run env performHealthCheck w pool))).
Proof.
  intros Hs. unfold performHealthCheck. cbn [fold_left probed_services].
  repeat
    match goal with
    | |- context [run env (bind ?m ?f) ?w0 ?p] =>
        rewrite (run_bind _ m _ f env w0 p)
    end.
  cbn [run outcome final pending].
  destruct (checkService_resolves env "polly" [] w pool) as [r1 H1].
  rewrite H1.
  pose proof (checkService_steady env "polly" [] w pool) as S1.
  set (f1 := run env (checkService "polly" []) w pool) in *.
  destruct (checkService_resolves env "transcribe" r1 (final f1) (pending f1)) as [r2 H2].
  rewrite H2.
  pose proof (checkService_steady env "transcribe" r1 (final f1) (pending f1)) as S2.
  set (f2 := run env (checkService "transcribe" r1) (final f1) (pending f1)) in *.
  destruct (checkService_resolves env "s3-cache" r2 (final f2) (pending f2)) as [r3 H3].
  rewrite H3.
  pose proof (checkService_steady env "s3-cache" r2 (final f2) (pending f2)) as S3.
  set (f3 := run env (checkService "s3-cache" r2) (final f2) (pending f2)) in *.
  apply checkService_steady; [cbn; auto 6|].
  apply S3; [cbn; auto 6|]. apply S2; [cbn; auto 6|]. apply S1; [cbn; auto 6|]. exact Hs.
Qed.

Lemma round_steady env w pool :
  steady (monitor w) -> steady (monitor (final (run env healthMonitoringRound w pool))).
Proof.
  intros Hs.
  pose proof (performHealthCheck_steady env w pool Hs) as Hp.
  unfold healthMonitoringRound.
  rewrite run_try_catch, run_bind, run_await.
  destruct (run_performHealthCheck env w pool) as (r1 & r2 & r3 & r4 & Ho & _).
  rewrite Ho. cbn [run bind perform response effect outcome final pending].
  rewrite run_await.
  match goal with
  | |- context [run env (recordMetric ?a ?b ?c ?d) ?w1 ?p1] =>
      destruct (run_recordMetric_request env a b c d w1 p1) as (Hm & _);
      pose proof (mframe_run (fun w' => steady (monitor w')) _ _ env w1 p1
                    (recordMetric_frame (fun w' => steady (monitor w'))
                       (fun _ _ H => H) (fun _ _ H => H) a b c d) Hp)
        as (_ & Hkeep)
  end.
  rewrite Hm. cbn iota. exact Hkeep.
Qed.

Lemma health_rounds_steady envs : forall w,
  steady (monitor w) -> steady (monitor (health_rounds envs w)).
Proof.
  induction envs as [|env envs IH]; intros w Hs; cbn; [exact Hs|].
  apply IH, round_steady, Hs.
Qed.

Lemma new_monitor_steady : steady new_FailoverMonitoringService.
Proof. unfold steady, never_failing. cbn. repeat constructor. Qed.

(** X12.  After any number of monitoring rounds of a new monitor,
    [getSystemStatus] lists the six registered services and reports
    transcribe, websocket and kafka as healthy with no failure: no code
    path can mark them degraded or failed. *)
Theorem services_that_cannot_fail_are_always_reported_healthy
    (envs : list Env) (env : Env) (w : World) (pool : list (Async unit)) :
  let fresh := with_monitor (fun _ => new_FailoverMonitoringService) w in
  let report := run env getSystemStatus (health_rounds envs fresh) pool in
  exists st,
    outcome report = Resolved st /\
    final report = health_rounds envs fresh /\
    JsMap.keys (services st) = registered_services /\
    Forall
      (fun service => JsMap.get service (services st) = Some (Healthy, Some (Num 0)))
      never_failing.
Proof.
  intros fresh report.
  assert (Hs : steady (monitor (health_rounds envs fresh))).
  { apply health_rounds_steady. apply new_monitor_steady. }
  subst report. set (w' := health_rounds envs fresh) in *.
  unfold getSystemStatus. cbn [run bind perform response effect].
  eexists. split; [reflexivity|]. split; [reflexivity|].
  cbn [services].
  destruct Hs as (Hks & Hkc & Hnf). unfold JsMap.entries.
  destruct (serviceStatus (monitor w')) as [|[k1 v1] [|[k2 v2] [|[k3 v3] [|[k4 v4]
             [|[k5 v5] [|[k6 v6] [|]]]]]]]; try discriminate Hks.
  cbn in Hks. injection Hks as -> -> -> -> -> ->.
  unfold never_failing in *.
  inversion Hnf as [|? ? [T1 T2] Hnf1]; subst.
  inversion Hnf1 as [|? ? [W1 W2] Hnf2]; subst.
  inversion Hnf2 as [|? ? [K1 K2] _]; subst.
  cbn in T1, W1, K1. injection T1 as ->. injection W1 as ->. injection K1 as ->.
  cbn. rewrite T2, W2, K2. split; [reflexivity|]. repeat constructor.
Qed.

(** ** Manual failover *)

Lemma failovers_after_trigger_line service w :
  failovers service (with_console (fun l => l ++ [trigger_line service]) w)
  = failovers service w + 1.
Proof. rewrite failovers_console, String.eqb_refl. reflexivity. Qed.

Lemma run_triggerFailover_any env service error w pool :
  let after := run env (triggerFailover service error) w pool in
  (In service uncallable_members ->
   exists e, outcome after = Rejected e /\ name e = "TypeError" /\
             requests (final after) = requests w) /\
  (~ In service uncallable_members -> outcome after = Resolved tt) /\
  monitor (final after) = monitor w /\
  cache (final after) = cache w /\
  failovers service (final after) = failovers service w + 1.
Proof.
  intros after. subst after.
  destruct (in_dec string_dec service uncallable_members) as [Hin|Hnot].
  { assert (Hno : ~ ~ In service uncallable_members) by tauto.
    destruct Hin as [<-|[<-|[<-|[]]]]; unfold triggerFailover; cbn;
      (split; [intros _; eexists; split; [|split]; reflexivity|]);
      (split; [intros Hn; now destruct Hno|]);
      (split; [reflexivity|split; [reflexivity|]]);
      apply failovers_after_trigger_line. }
  unfold triggerFailover. cbn [bind perform run response effect].
  match goal with
  | |- context [run env ?m ?w1 pool] =>
      assert (Hrest : spec (fun _ => True) (fun _ => 0)
                        (untouched service w1) anything resolved m)
  end.
  { eapply spec_bind with (P := resolved).
    - unfold failoverActions, Object_prototype. cbn [existsb].
      repeat match goal with
             | |- context [String.eqb service ?x] =>
                 destruct (String.eqb_spec service x) as [Heq|_];
                 [try (exfalso; apply Hnot; rewrite Heq; cbn; tauto)|];
                 cbn [orb]
             end;
        first [ exists tt; reflexivity
              | eapply spec_bind with (P := resolved);
                [apply spec_await;
                 first [apply pollyFailover_quiet | apply transcribeFailover_quiet
                       | apply s3Failover_quiet | apply cloudFrontFailover_quiet]
                |intros n a _; cbn; exists tt; reflexivity
                |intros n e [a Ha]; discriminate]
              | cbn; intros env1 w1 _ H1; split; [exact H1|exists tt; reflexivity] ].
    - intros n [] _.
      eapply spec_bind with (P := resolved);
        [apply spec_await, sendFailoverAlert_quiet| |intros n' e [a Ha]; discriminate].
      intros n' [] _.
      eapply spec_mono; [|apply spec_await, recordMetric_quiet].
      intros ? ? H. exact H.
    - intros n e [a Ha]. discriminate. }
  match goal with
  | |- context [run env ?m ?w1 pool] =>
      destruct (spec_run _ _ _ _ _ m _ env w1 pool I Hrest) as (k & [[] Ho] & (Hm & Hc & Hf) & _)
  end.
  { repeat split. }
  rewrite Ho. split; [tauto|]. split; [reflexivity|]. split; [|split].
  - rewrite Hm. reflexivity.
  - rewrite Hc. reflexivity.
  - rewrite Hf. apply failovers_after_trigger_line.
Qed.

Lemma manualFailover_settings env service reason w pool :
  settings_between w (final (run env (manualFailover service reason) w pool)).
Proof.
  apply (mframe_keeps (settings_between w)); [..|apply settings_between_refl].
  apply manualFailover_frame.
  - exact (fun _ _ H => H).
  - exact (fun _ _ H => H).
  - intros w' var value. apply settings_between_setting.
Qed.

(** X13.  [manualFailover] runs the failover of the service once and
    changes neither the status nor the failure counter of any service, nor
    the cache; the only variables of [process.env] it changes are failover
    settings.  It resolves for every service name but three: for
    [__proto__], [__defineGetter__] and [__defineSetter__], which the table
    of failover actions inherits and which cannot be called so, it rejects
    with a [TypeError] and has sent no request. *)
Theorem a_manual_failover_marks_no_service_failed
    (env : Env) (service reason : string) (w : World) (pool : list (Async unit)) :
  let after := run env (manualFailover service reason) w pool in
  match outcome after with
  | Resolved _ => ~ In service uncallable_members
  | Rejected e =>
      In service uncallable_members /\ name e = "TypeError" /\
      requests (final after) = requests w
  end /\
  monitor (final after) = monitor w /\
  cache (final after) = cache w /\
  failovers service (final after) = failovers service w + 1 /\
  settings_between w (final after).
Proof.
  intros after. split; [|split; [|split; [|split]]]; [..|apply manualFailover_settings];
    subst after; unfold manualFailover;
    cbn [bind perform run response effect]; rewrite run_await;
    match goal with
    | |- context [run env (triggerFailover ?s ?e) ?w1 ?p] =>
        destruct (run_triggerFailover_any env s e w1 p) as (Hthrows & Ho & Hm & Hc & Hf)
    end.
  - destruct (in_dec string_dec service uncallable_members) as [Hin|Hnot].
    + destruct (Hthrows Hin) as (e & -> & He & Hr). auto.
    + rewrite (Ho Hnot). exact Hnot.
  - rewrite Hm. reflexivity.
  - rewrite Hc. reflexivity.
  - rewrite Hf, failovers_console.
    replace (String.eqb ("Manual failover triggered for " +:+ service) (trigger_line service))
      with false by reflexivity.
    lia.
Qed.

(** X14.  Any sequence of lookups, at any times and whatever AWS and
    the file system answer, leaves the memory tier with at most
    [maxMemoryCache] entries if it started so. *)
Theorem lookups_keep_the_memory_tier_within_capacity
    (calls : list (Env * (string * string * Options))) (w : World) :
  memory_bounded w -> memory_bounded (lookups calls w).
Proof.
  revert w. induction calls as [|[env [[text voiceId] options]] calls IH]; intros w Hw.
  - exact Hw.
  - cbn. apply IH. now apply lookup_bounded.
Qed.

Lemma lookups_keep_the_memory_tier_within_capacity_witness :
  memory_bounded
    (lookups [(cold_env 0, ("Emergency alert", "Joanna", no_options));
              (cold_env 1, ("Weather warning issued", "Amy", no_options))]
       initial_world).
Proof.
  apply (lookups_keep_the_memory_tier_within_capacity
           [(cold_env 0, ("Emergency alert", "Joanna", no_options));
            (cold_env 1, ("Weather warning issued", "Amy", no_options))] initial_world).
  split; cbn; lia.
Defined.

(** X15.  [checkS3Cache] asks for the object [storeToS3Cache] puts:
    same bucket, same key [audio-cache/<key>.mp3].  When S3 answers, the
    probe returns the concatenated body after a HeadObject and a GetObject,
    or a miss after the HeadObject alone when the object is older than the
    time to live. *)
Theorem checkS3Cache_reads_where_storeToS3Cache_writes
    (env : Env) (cacheKey : string) (w : World) (pool : list (Async unit))
    (head object : Response) :
  let bucket := bucketName_of (process_env w !! "AUDIO_CACHE_BUCKET") in
  let key := "audio-cache/" +:+ cacheKey +:+ ".mp3" in
  let probe := run env (checkS3Cache cacheKey) w pool in
  service env (HeadObject bucket key) = Resolved head ->
  service env (GetObject bucket key) = Resolved object ->
  stream_error (Body object) = None ->
  (forall audioBuffer pool',
      requests (final (run env (storeToS3Cache cacheKey audioBuffer) w pool'))
      = requests w ++ [PutObject bucket key audioBuffer]) /\
  if (cacheExpiry (cache w) <? now env - LastModified head)%Z then
    outcome probe = Resolved None /\
    requests (final probe) = requests w ++ [HeadObject bucket key]
  else
    outcome probe = Resolved (Some (Buffer_concat (chunks (Body object)))) /\
    requests (final probe) = requests w ++ [HeadObject bucket key; GetObject bucket key].
Proof.
  intros bucket key probe Hhead Hget Hstream. split.
  - intros audioBuffer pool'. unfold storeToS3Cache. rewrite run_try_catch. cbn.
    fold bucket key. destruct (service env (PutObject bucket key audioBuffer)); reflexivity.
  - subst probe. unfold checkS3Cache. rewrite run_try_catch. cbn.
    fold bucket key. rewrite Hhead. cbn.
    destruct (cacheExpiry (cache w) <? now env - LastModified head)%Z; cbn.
    + split; reflexivity.
    + rewrite Hget. cbn. unfold collect. rewrite !run_bind, !run_for_await, Hstream. cbn.
      rewrite <- app_assoc. split; reflexivity.
Qed.

Lemma checkS3Cache_reads_where_storeToS3Cache_writes_witness :
  let bucket := bucketName_of (process_env initial_world !! "AUDIO_CACHE_BUCKET") in
  let key := "audio-cache/" +:+ alert_key +:+ ".mp3" in
  let object := mkResponse 0 (mkStream ["a"; "bc"] None) no_stream 200 in
  let probe := run (warm_env 5) (checkS3Cache alert_key) initial_world [] in
  (forall audioBuffer pool',
      requests (final (run (warm_env 5) (storeToS3Cache alert_key audioBuffer)
                         initial_world pool'))
      = requests initial_world ++ [PutObject bucket key audioBuffer]) /\
  if (cacheExpiry (cache initial_world) <? now (warm_env 5) - LastModified empty_response)%Z
  then
    outcome probe = Resolved None /\
    requests (final probe) = requests initial_world ++ [HeadObject bucket key]
  else
    outcome probe = Resolved (Some (Buffer_concat (chunks (Body object)))) /\
    requests (final probe)
      = requests initial_world ++ [HeadObject bucket key; GetObject bucket key].
Proof.
  apply (checkS3Cache_reads_where_storeToS3Cache_writes (warm_env 5) alert_key initial_world []
           empty_response (mkResponse 0 (mkStream ["a"; "bc"] None) no_stream 200));
    reflexivity.
Defined.

(** ** The two services keep to themselves *)

Lemma lookup_monitor_side env text voiceId options w pool :
  monitor_side (final (run env (getAudioWithCache text voiceId options) w pool))
  = monitor_side w.
Proof.
  apply (frame_run (fun w' => monitor_side w' = monitor_side w)); [|reflexivity].
  apply getAudioWithCache_frame; exact (fun _ _ H => H).
Qed.

Lemma round_cache_side env w pool :
  cache_side (final (run env healthMonitoringRound w pool)) = cache_side w.
Proof.
  apply (mframe_run (fun w' => cache_side w' = cache_side w)); [|reflexivity].
  apply healthMonitoringRound_frame; try exact (fun _ _ H => H).
  intros w' var value _ H. exact H.
Qed.

Lemma manualFailover_cache_side env service reason w pool :
  cache_side (final (run env (manualFailover service reason) w pool)) = cache_side w.
Proof.
  apply (mframe_keeps (fun w' => cache_side w' = cache_side w)); [|reflexivity].
  apply manualFailover_frame; try exact (fun _ _ H => H).
  intros w' var value _ H. exact H.
Qed.

(** X16.  A lookup changes neither the monitor nor [process.env]; a
    monitoring round and a manual failover change neither the cache object
    nor the files on disk. *)
Theorem the_cache_and_the_monitor_share_no_state
    (env : Env) (w : World) (pool : list (Async unit))
    (text voiceId : string) (options : Options) (service reason : string) :
  monitor_side (final (run env (getAudioWithCache text voiceId options) w pool))
    = monitor_side w /\
  cache_side (final (run env healthMonitoringRound w pool)) = cache_side w /\
  cache_side (final (run env (manualFailover service reason) w pool)) = cache_side w.
Proof.
  split; [apply lookup_monitor_side|]. split.
  - apply round_cache_side.
  - apply manualFailover_cache_side.
Qed.

(** ** Invocations of the generator *)

Section Costs.
Local Abbreviation cspec := (spec (fun _ => True) is_synthesis (fun _ => True) unbilled).

Ltac tally :=
  repeat (cbn; unfold faulty, unbilled, free;
    match goal with
    | |- forall _, _ => intro
    | |- _ /\ _ => split
    | |- True => exact I
    | |- exists _, Resolved ?a = Resolved _ => exists a; reflexivity
    | |- _ = _ => reflexivity
    | |- context [match fs_fault ?e ?c with _ => _ end] => destruct (fs_fault e c)
    | |- context [match @lookup ?K ?V ?M ?L ?k ?m with _ => _ end] =>
        destruct (@lookup K V M L k m)
    | |- context [match service ?e ?c with _ => _ end] => destruct (service e c)
    | |- context [if ?b then _ else _] => destruct b
    | |- context [match ?x with _ => _ end] => destruct x
    end).

Lemma cost_seq A B (m : Async A) (f : A -> Async B) (Q : nat -> Outcome B -> Prop) :
  cspec free m -> (forall a, cspec Q (f a)) -> cspec Q (bind m f).
Proof.
  intros Hm Hf. eapply spec_bind; [exact Hm| |].
  - intros n a [-> _]. apply Hf.
  - intros n e [_ [a Ha]]. discriminate.
Qed.

Lemma cost_try A B (m : Async A) (f : A -> Async B) :
  cspec unbilled m -> (forall a, cspec unbilled (f a)) -> cspec unbilled (bind m f).
Proof.
  intros Hm Hf. eapply spec_bind; [exact Hm| |].
  - intros n a ->. apply Hf.
  - intros n e ->. reflexivity.
Qed.

Lemma cost_guarded A (m : Async A) (h : JsError -> Async A) :
  cspec unbilled m -> (forall e, cspec free (h e)) -> cspec free (try_catch m h).
Proof.
  intros Hm Hh. eapply spec_try_catch; [exact Hm| |].
  - intros n a ->. split; [reflexivity|]. exists a. reflexivity.
  - intros n e ->. apply Hh.
Qed.

Lemma free_unbilled A (m : Async A) : cspec free m -> cspec unbilled m.
Proof. apply spec_mono. intros n o [H _]. exact H. Qed.

Lemma for_await_cost end_error : forall rest acc,
  cspec unbilled (for_await rest end_error acc).
Proof.
  induction rest as [|c rest IH]; intros acc; cbn.
  - intros _ _ _ _. split; [exact I|]. destruct end_error; reflexivity.
  - intros _ _ _ _. split; [exact I|]. apply IH.
Qed.

Lemma checkMemoryCache_cost cacheKey : cspec free (checkMemoryCache cacheKey).
Proof. unfold checkMemoryCache. tally. Qed.

Lemma storeInMemoryCache_cost cacheKey audioBuffer :
  cspec free (storeInMemoryCache cacheKey audioBuffer).
Proof. unfold storeInMemoryCache. tally. Qed.

Lemma removeDiskCacheEntry_cost cacheKey : cspec free (removeDiskCacheEntry cacheKey).
Proof. unfold removeDiskCacheEntry. apply cost_guarded; tally. Qed.

Lemma checkDiskCache_cost cacheKey : cspec free (checkDiskCache cacheKey).
Proof. unfold checkDiskCache. apply cost_guarded; tally. Qed.

Lemma storeToDiskCache_cost cacheKey audioBuffer :
  cspec free (storeToDiskCache cacheKey audioBuffer).
Proof.
  unfold storeToDiskCache. apply cost_guarded; [|tally].
  cbn. intros env w _ _. split; [exact I|]. cbn.
  apply cost_try; [|intros []; tally].
  destruct (Nat.leb _ _); [|reflexivity].
  apply cost_try; [apply free_unbilled, removeDiskCacheEntry_cost|intros []; tally].
Qed.

Lemma checkS3Cache_cost cacheKey : cspec free (checkS3Cache cacheKey).
Proof.
  unfold checkS3Cache. apply cost_guarded; [|tally].
  cbn. intros _ w0 _ _. split; [exact I|]. cbn.
  intros env w _ _. split; [exact I|].
  destruct (service env _) as [h|e]; [|reflexivity]. cbn.
  intros env1 w1 _ _. split; [exact I|]. cbn.
  intros env2 w2 _ _. split; [exact I|]. cbn.
  destruct (Z.ltb _ _); [reflexivity|]. cbn.
  intros env3 w3 _ _. split; [exact I|].
  destruct (service env3 _) as [g|e]; [|reflexivity]. cbn.
  apply cost_try; [apply for_await_cost|intros a; reflexivity].
Qed.

Lemma storeToS3Cache_cost cacheKey audioBuffer :
  cspec free (storeToS3Cache cacheKey audioBuffer).
Proof. unfold storeToS3Cache. apply cost_guarded; tally. Qed.

Lemma storeInAllCaches_cost cacheKey audioBuffer :
  cspec free (storeInAllCaches cacheKey audioBuffer).
Proof.
  unfold storeInAllCaches.
  apply cost_seq; [apply storeInMemoryCache_cost|]. intros _.
  apply cost_seq; [apply spec_await, storeToDiskCache_cost|]. intros _.
  cbn. intros env w _ _. split; [exact I|]. cbn.
  destruct (s3Cache _); cbn; [|tally].
  split; [|tally].
  apply free_unbilled, cost_guarded; [apply free_unbilled, storeToS3Cache_cost|tally].
Qed.

(** Polly is asked once, whatever it answers. *)
Lemma generatePollyAudio_cost text voiceId options :
  cspec (fun n _ => n = 1) (generatePollyAudio text voiceId options).
Proof.
  unfold generatePollyAudio.
  eapply spec_try_catch with (P := fun n _ => n = 1).
  - cbn. intros env w _ _. split; [exact I|].
    destruct (service env _) as [r|e]; [|reflexivity]. cbn.
    eapply spec_bind with (P := unbilled); [apply for_await_cost| |].
    + intros n a ->. reflexivity.
    + intros n e ->. reflexivity.
  - auto.
  - intros n e ->. tally.
Qed.

Lemma getAudioWithCache_cost text voiceId options :
  cspec billed (getAudioWithCache text voiceId options).
Proof.
  unfold getAudioWithCache. cbn. intros env0 w0 _ _. split; [exact I|]. cbn.
  eapply spec_try_catch with (P := billed); [|auto|].
  2:{ intros n e ->. cbn. intros env w _ _. split; [exact I|]. reflexivity. }
  apply cost_seq; [apply checkMemoryCache_cost|].
  intros [memoryResult|].
  { cbn. intros env1 w1 _ _. split; [exact I|]. cbn.
    intros env2 w2 _ _. split; [exact I|]. reflexivity. }
  apply cost_seq; [apply spec_await, checkDiskCache_cost|].
  intros [diskResult|].
  { cbn. intros env1 w1 _ _. split; [exact I|]. cbn.
    intros env2 w2 _ _. split; [exact I|]. cbn.
    apply cost_seq; [apply storeInMemoryCache_cost|intros _; reflexivity]. }
  cbn. intros env1 w1 _ _. split; [exact I|]. cbn.
  eapply spec_bind
    with (P := fun n (o : Outcome (option AudioResult)) =>
                 n = 0 /\ exists hit, o = Resolved hit /\
                   match hit with Some r => fromCache r = true | None => True end).
  - destruct (s3Cache _);
      [|cbn; split; [reflexivity|]; exists None; split; [reflexivity|exact I]].
    apply cost_seq; [apply spec_await, checkS3Cache_cost|].
    intros [s3Result|];
      [|cbn; split; [reflexivity|]; exists None; split; [reflexivity|exact I]].
    cbn. intros env2 w2 _ _. split; [exact I|]. cbn.
    intros env3 w3 _ _. split; [exact I|]. cbn.
    apply cost_seq; [apply storeInMemoryCache_cost|]. intros _.
    apply cost_seq; [apply spec_await, storeToDiskCache_cost|]. intros _.
    cbn. split; [reflexivity|]. eexists. split; [reflexivity|]. reflexivity.
  - intros n a (-> & hit & [= ->] & Hhit). destruct hit as [r|].
    + cbn. unfold billed. now rewrite Hhit.
    + cbn. intros env2 w2 _ _. split; [exact I|]. cbn.
      intros env3 w3 _ _. split; [exact I|]. cbn.
      eapply spec_bind with (P := fun n _ => n = 1);
        [apply spec_await, generatePollyAudio_cost| |].
      * intros n audioBuffer ->.
        eapply spec_bind with (P := free); [apply spec_await, storeInAllCaches_cost| |].
        -- intros n [] [-> _]. reflexivity.
        -- intros n e [_ [a Ha]]. discriminate.
      * intros n e ->. reflexivity.
  - intros n e (_ & hit & Hhit & _). discriminate.
Qed.
End Costs.

(** X17.  A lookup sends a SynthesizeSpeech request exactly when it
    does not resolve from a cache tier: none when the result has
    [fromCache = true], one when the audio was generated or the lookup
    failed. *)
Theorem the_generator_is_invoked_only_when_every_tier_misses
    (env : Env) (text voiceId : string) (options : Options) (w : World)
    (pool : list (Async unit)) :
  let lookup := run env (getAudioWithCache text voiceId options) w pool in
  generator_calls (final lookup) =
    generator_calls w +
    match outcome lookup with
    | Resolved r => if fromCache r then 0 else 1
    | Rejected _ => 1
    end.
Proof.
  intros lookup. subst lookup.
  destruct (spec_run _ _ _ _ _ _ _ env w pool I (getAudioWithCache_cost text voiceId options) I)
    as (n & Hn & _ & Hcost & _).
  unfold generator_calls. rewrite Hcost, Hn. reflexivity.
Qed.

(** X18.  The result of a lookup carries the key [generateCacheKey]
    derives from the request, and its [fromCache] flag is false exactly
    when its source is [generated]. *)
Theorem a_result_names_its_key_and_its_tier
    (env : Env) (text voiceId : string) (options : Options) (w : World)
    (pool : list (Async unit)) :
  match outcome (run env (getAudioWithCache text voiceId options) w pool) with
  | Resolved r =>
      cacheKey r = generateCacheKey text voiceId options /\
      fromCache r = match source r with generated => false | _ => true end
  | Rejected _ => True
  end.
Proof.
  rewrite run_pool_outcome.
  destruct (lookup_cases env text voiceId options w)
    as [[m HM]|[[HM [d HD]]|[(HM & HD & Hon & p & HR)|Hmiss]]].
  - rewrite (lookup_memory_hit env text voiceId options w m HM). cbn. auto.
  - rewrite (lookup_disk_hit env text voiceId options w d HM HD). cbn. auto.
  - rewrite (lookup_remote_hit env text voiceId options w p HM HD Hon HR). cbn. auto.
  - rewrite (lookup_all_miss_final env text voiceId options w Hmiss).
    destruct (outcome (generation env text voiceId options w)); cbn; auto.
Qed.

(** ** Callers of a key that is in memory *)

Lemma run_sync_of_fresh_entry env text voiceId options w pool payload t :
  let key := generateCacheKey text voiceId options in
  JsMap.get key (memoryCache (cache w)) = Some (mkMemEntry payload t) ->
  (now env - t < cacheExpiry (cache w))%Z ->
  run_sync env (getAudioWithCache text voiceId options) w pool =
    mkTurn (Return (mkResult payload memory key true))
      (with_console (fun l => l ++ ["Memory cache hit"])
         (with_cache (with_stats (fun s => incr_memoryHits (incr_totalRequests s))) w))
      pool.
Proof.
  intros key Hget Hfresh. apply Z.ltb_lt in Hfresh.
  unfold getAudioWithCache, checkMemoryCache. fold key.
  cbn. rewrite Hget. cbn. rewrite Hfresh. cbn. reflexivity.
Qed.

Lemma launch_on_fresh_entry env text voiceId options payload t N : forall l,
  let key := generateCacheKey text voiceId options in
  JsMap.get key (memoryCache (cache (loop_world l))) = Some (mkMemEntry payload t) ->
  (now env - t < cacheExpiry (cache (loop_world l)))%Z ->
  let l' := launch env (repeat (getAudioWithCache text voiceId options) N) l in
  callers l' = callers l ++ repeat (Return (mkResult payload memory key true)) N /\
  requests (loop_world l') = requests (loop_world l) /\
  files (loop_world l') = files (loop_world l) /\
  background l' = background l.
Proof.
  induction N as [|N IH]; intros l key Hget Hfresh l'; subst l'; cbn [repeat launch].
  - rewrite app_nil_r. auto.
  - rewrite (run_sync_of_fresh_entry env text voiceId options _ _ payload t Hget Hfresh).
    cbn [task world spawned]. fold key.
    match goal with
    | |- context [launch env _ ?l1] => destruct (IH l1) as (Hc & Hr & Hf & Hb); [exact Hget|exact Hfresh|]
    end.
    rewrite Hc, Hr, Hf, Hb. cbn [callers loop_world background].
    rewrite <- app_assoc. auto.
Qed.

(** X19.  Any number of callers that ask in the same turn for a key
    whose entry is in memory and has not expired are all resolved in that
    turn with the payload of the entry; no request is sent, no file is
    touched and nothing is left in the background. *)
Theorem callers_of_a_key_in_memory_are_served_at_once
    (env : Env) (text voiceId : string) (options : Options) (w : World)
    (payload : Buffer) (t : Z) (N : nat) :
  let key := generateCacheKey text voiceId options in
  let l := launch env (repeat (getAudioWithCache text voiceId options) N) (mkLoop w [] []) in
  JsMap.get key (memoryCache (cache w)) = Some (mkMemEntry payload t) ->
  (now env - t < cacheExpiry (cache w))%Z ->
  callers l = repeat (Return (mkResult payload memory key true)) N /\
  requests (loop_world l) = requests w /\
  files (loop_world l) = files w /\
  background l = [].
Proof.
  intros key l Hget Hfresh.
  apply (launch_on_fresh_entry env text voiceId options payload t N (mkLoop w [] []) Hget Hfresh).
Qed.

Lemma callers_of_a_key_in_memory_are_served_at_once_witness :
  let l := launch (cold_env 5)
             (repeat (getAudioWithCache "Emergency alert" "Joanna" no_options) 3)
             (mkLoop stocked_world [] []) in
  callers l = repeat (Return (mkResult "abc" memory alert_key true)) 3 /\
  requests (loop_world l) = requests stocked_world /\
  files (loop_world l) = files stocked_world /\
  background l = [].
Proof.
  apply (callers_of_a_key_in_memory_are_served_at_once (cold_env 5) "Emergency alert" "Joanna"
           no_options stocked_world "abc" 0 3).
  - vm_compute. reflexivity.
  - vm_compute. reflexivity.
Defined.

(** ** Warming up *)

Lemma get_timestamp {t} k (m : JsMapOf MemEntry) e :
  Forall (fun entry => timestamp (snd entry) = t) m ->
  JsMap.get k m = Some e -> timestamp e = t.
Proof.
  induction 1 as [|[k' e'] m He _ IH]; cbn; [discriminate|].
  destruct (String.eqb k k'); [now intros [= <-]|exact IH].
Qed.

Lemma set_timestamp {t} k e (m : JsMapOf MemEntry) :
  timestamp e = t ->
  Forall (fun entry => timestamp (snd entry) = t) m ->
  Forall (fun entry => timestamp (snd entry) = t) (JsMap.set k e m).
Proof.
  intros He. induction 1 as [|[k' e'] m He' Hm IH]; cbn.
  - constructor; [exact He|constructor].
  - destruct (String.eqb k k'); constructor; cbn; auto.
Qed.

Lemma checkMemoryCache_keeps_fresh env cacheKey w pool :
  (forall e, JsMap.get cacheKey (memoryCache (cache w)) = Some e ->
             (now env - timestamp e < cacheExpiry (cache w))%Z) ->
  final (run env (checkMemoryCache cacheKey) w pool) = w /\
  (outcome (run env (checkMemoryCache cacheKey) w pool) = Resolved None ->
   JsMap.get cacheKey (memoryCache (cache w)) = None) /\
  (forall payload,
     outcome (run env (checkMemoryCache cacheKey) w pool) = Resolved (Some payload) ->
     JsMap.get cacheKey (memoryCache (cache w)) <> None).
Proof.
  intros Hfresh. unfold checkMemoryCache. cbn.
  destruct (JsMap.get _ _) as [e|]; cbn.
  - specialize (Hfresh e eq_refl). apply Z.ltb_lt in Hfresh. rewrite Hfresh. cbn.
    repeat split; [discriminate|]. intros _ _. discriminate.
  - repeat split. intros ? [=].
Qed.

Lemma keeps_memory_tier A (m : Async A) env w pool :
  spec (fun _ => True) (fun _ => 0)
    (fun w' => memory_tier w' = memory_tier w) anything anything m ->
  memory_tier (final (run env m w pool)) = memory_tier w.
Proof. intros Hm. now apply (frame_run _ _ m env w pool Hm). Qed.

Lemma memory_after_store_room cacheKey entry c :
  JsMap.size (memoryCache c) < maxMemoryCache c ->
  memory_after_store cacheKey entry c = JsMap.set cacheKey entry (memoryCache c).
Proof.
  intros Hroom. unfold memory_after_store.
  destruct (Nat.leb _ _) eqn:E; [|reflexivity].
  apply Nat.leb_le in E. lia.
Qed.

Lemma memory_after_store_with_room cacheKey entry w w0 :
  memory_tier w = memory_tier w0 ->
  JsMap.size (memoryCache (cache w0)) < maxMemoryCache (cache w0) ->
  memory_after_store cacheKey entry (cache w)
  = JsMap.set cacheKey entry (memoryCache (cache w0)).
Proof.
  intros Ht Hroom. injection Ht as Hmem Hmax _.
  rewrite memory_after_store_room; rewrite Hmem; [reflexivity|].
  rewrite Hmax. exact Hroom.
Qed.

Lemma storeInMemoryCache_with_room env cacheKey audioBuffer w w0 pool :
  memory_tier w = memory_tier w0 ->
  JsMap.size (memoryCache (cache w0)) < maxMemoryCache (cache w0) ->
  memoryCache (cache (final (run env (storeInMemoryCache cacheKey audioBuffer) w pool)))
  = JsMap.set cacheKey (mkMemEntry audioBuffer (now env)) (memoryCache (cache w0)).
Proof.
  intros Ht Hroom. rewrite run_storeInMemoryCache.
  exact (memory_after_store_with_room cacheKey _ w w0 Ht Hroom).
Qed.

Lemma storeInAllCaches_with_room env cacheKey audioBuffer w w0 pool :
  memory_tier w = memory_tier w0 ->
  JsMap.size (memoryCache (cache w0)) < maxMemoryCache (cache w0) ->
  memoryCache (cache (final (run env (storeInAllCaches cacheKey audioBuffer) w pool)))
  = JsMap.set cacheKey (mkMemEntry audioBuffer (now env)) (memoryCache (cache w0)).
Proof.
  intros Ht Hroom.
  destruct (storeInAllCaches_memory env cacheKey audioBuffer w pool) as (Hsame & _).
  rewrite Hsame.
  exact (memory_after_store_with_room cacheKey _ w w0 Ht Hroom).
Qed.

Lemma generatePollyAudio_answers env text voiceId options w pool :
  polly_answers env ->
  exists audio,
    outcome (run env (generatePollyAudio text voiceId options) w pool) = Resolved audio.
Proof.
  intros Hpolly. unfold generatePollyAudio. rewrite run_try_catch. cbn.
  match goal with
  | |- context [service env (SynthesizeSpeech ?r ?p)] =>
      destruct (Hpolly r p) as (resp & Hr & Herr); rewrite Hr
  end.
  cbn. unfold collect. rewrite run_bind, run_for_await, Herr. cbn. eauto.
Qed.

(** A lookup while there is room in memory and nothing in it has aged:
    it resolves, and the memory tier is as before or has the key set. *)
Lemma lookup_with_room env text voiceId options w pool :
  let key := generateCacheKey text voiceId options in
  let lookup := run env (getAudioWithCache text voiceId options) w pool in
  polly_answers env ->
  (0 < cacheExpiry (cache w))%Z ->
  Forall (fun entry => timestamp (snd entry) = now env) (memoryCache (cache w)) ->
  JsMap.size (memoryCache (cache w)) < maxMemoryCache (cache w) ->
  (exists r, outcome lookup = Resolved r) /\
  ((memoryCache (cache (final lookup)) = memoryCache (cache w) /\
    JsMap.get key (memoryCache (cache w)) <> None) \/
   exists payload,
     memoryCache (cache (final lookup))
     = JsMap.set key (mkMemEntry payload (now env)) (memoryCache (cache w))).
Proof.
  intros key lookup Hpolly Hexp Hts Hroom. subst lookup.
  rewrite run_pool_outcome, run_pool_final.
  set (w1 := with_cache (with_stats incr_totalRequests) w).
  assert (Hfresh : forall e, JsMap.get key (memoryCache (cache w1)) = Some e ->
                     (now env - timestamp e < cacheExpiry (cache w1))%Z).
  { intros e He. cbn in He. rewrite (get_timestamp key _ e Hts He). cbn. lia. }
  destruct (checkMemoryCache_keeps_fresh env key w1 [] Hfresh) as (HwM & _ & HsomeM).
  change (run env (checkMemoryCache key) w1 [])
    with (memory_probe env text voiceId options w) in HwM, HsomeM.
  assert (HtD : memory_tier (final (disk_probe env text voiceId options w)) = memory_tier w).
  { unfold disk_probe. rewrite keeps_memory_tier by (apply checkDiskCache_frame; same).
    now rewrite HwM. }
  assert (HtR : memory_tier (final (remote_probe env text voiceId options w)) = memory_tier w).
  { unfold remote_probe. rewrite keeps_memory_tier by (apply checkS3Cache_frame; same).
    exact HtD. }
  destruct (lookup_cases env text voiceId options w)
    as [[m HM]|[[HM [d HD]]|[(HM & HD & Hon & p & HR)|Hmiss]]].
  - rewrite (lookup_memory_hit env text voiceId options w m HM). cbn [outcome final].
    split; [eauto|]. left. rewrite HwM. cbn. split; [reflexivity|].
    apply (HsomeM m HM).
  - rewrite (lookup_disk_hit env text voiceId options w d HM HD). cbn [outcome final].
    split; [eauto|]. right. exists d.
    apply storeInMemoryCache_with_room; [exact HtD|exact Hroom].
  - rewrite (lookup_remote_hit env text voiceId options w p HM HD Hon HR). cbn [outcome final].
    split; [eauto|]. right. exists p.
    match goal with
    | |- context [run env (storeToDiskCache ?k ?a) ?w1 ?p1] =>
        destruct (storeToDiskCache_same_memory env k a w1 p1) as (Hsame & _)
    end.
    rewrite Hsame.
    apply storeInMemoryCache_with_room; [exact HtR|exact Hroom].
  - rewrite (lookup_all_miss_final env text voiceId options w Hmiss).
    destruct (generatePollyAudio_answers env text voiceId options
                (world_at_generation env text voiceId options w)
                (if s3Cache (cache (final (disk_probe env text voiceId options w)))
                 then pending (remote_probe env text voiceId options w)
                 else pending (disk_probe env text voiceId options w)) Hpolly)
      as (audio & Hgen).
    fold (generation env text voiceId options w) in Hgen. rewrite Hgen.
    cbn [outcome final]. split; [eauto|]. right. exists audio.
    assert (HtG : memory_tier (final (generation env text voiceId options w)) = memory_tier w).
    { unfold generation.
      rewrite keeps_memory_tier by (apply generatePollyAudio_frame; same).
      unfold world_at_generation.
      destruct (s3Cache _); [exact HtR|exact HtD]. }
    apply storeInAllCaches_with_room; [exact HtG|exact Hroom].
Qed.

Lemma lookup_capacity env text voiceId options w pool :
  maxMemoryCache (cache (final (run env (getAudioWithCache text voiceId options) w pool)))
  = maxMemoryCache (cache w).
Proof.
  apply (frame_run (fun w' => maxMemoryCache (cache w') = maxMemoryCache (cache w))).
  - apply getAudioWithCache_frame; same.
  - reflexivity.
Qed.

(** The state of the loops of [preCacheCommonAlerts] at time [t], with
    capacity [capacity] and time to live [ttl]. *)
Section WarmingUp.
Variables (env : Env) (capacity : nat) (ttl : Z).
Hypothesis Hpolly : polly_answers env.
Hypothesis Httl : (0 < ttl)%Z.

Let warm (done : list string) (w : World) : Prop :=
  warming (now env) done w /\
  maxMemoryCache (cache w) = capacity /\
  cacheExpiry (cache w) = ttl.

Lemma preCacheAlert_warms alert voice done w pool :
  length done < capacity ->
  warm done w ->
  outcome (run env (preCacheAlert alert voice) w pool) = Resolved tt /\
  warm (done ++ [generateCacheKey alert voice no_options])
    (final (run env (preCacheAlert alert voice) w pool)).
Proof.
  intros Hlen ((Hts & Hsize & Hdone) & Hmax & Hexp).
  unfold preCacheAlert. rewrite run_try_catch, run_bind, run_await.
  pose proof (lookup_capacity env alert voice no_options w pool) as Hmax'.
  pose proof (lookup_cacheExpiry env alert voice no_options w pool) as Hexp'.
  destruct (lookup_with_room env alert voice no_options w pool Hpolly)
    as ([r Hr] & Hmem); [lia|exact Hts|lia|].
  rewrite Hr. cbn [outcome final pending run].
  split; [reflexivity|].
  split; [|split; congruence].
  unfold warming. rewrite length_app. cbn [length].
  destruct Hmem as [[Hmem Hkey]|[payload Hmem]]; rewrite Hmem.
  - split; [exact Hts|]. split; [lia|].
    apply Forall_app. split; [exact Hdone|]. constructor; [exact Hkey|constructor].
  - split; [now apply set_timestamp|]. split.
    + pose proof (JsMapFacts.size_set_le (generateCacheKey alert voice no_options)
                    (mkMemEntry payload (now env)) (memoryCache (cache w))). lia.
    + apply Forall_app. split.
      * eapply Forall_impl; [exact Hdone|]. intros k Hk. cbn beta.
        destruct (string_dec (generateCacheKey alert voice no_options) k) as [<-|Hne].
        -- now rewrite JsMapFacts.get_set_eq.
        -- now rewrite JsMapFacts.get_set_ne.
      * constructor; [|constructor]. now rewrite JsMapFacts.get_set_eq.
Qed.

Lemma warming_for_each {X} (body : X -> Async unit) (keys_of : X -> list string) :
  (forall x done w pool,
     length done + length (keys_of x) <= capacity ->
     warm done w ->
     outcome (run env (body x) w pool) = Resolved tt /\
     warm (done ++ keys_of x) (final (run env (body x) w pool))) ->
  forall xs done w pool,
    length done + length (flat_map keys_of xs) <= capacity ->
    warm done w ->
    let loop := fold_right (fun x rest => body x ;;; rest) (Return tt) xs in
    outcome (run env loop w pool) = Resolved tt /\
    warm (done ++ flat_map keys_of xs) (final (run env loop w pool)).
Proof.
  intros Hbody. induction xs as [|x xs IH]; intros done w pool Hlen Hwarm;
    cbn [fold_right flat_map] in *.
  - rewrite app_nil_r. cbn. auto.
  - rewrite length_app in Hlen. rewrite run_bind.
    destruct (Hbody x done w pool) as (Ho & Hw); [lia|exact Hwarm|].
    rewrite Ho. rewrite app_assoc. apply IH; [|exact Hw].
    rewrite length_app. lia.
Qed.

Lemma preCacheCommonAlerts_warms w pool :
  length commonKeys <= capacity ->
  warm [] w ->
  warm commonKeys (final (run env preCacheCommonAlerts w pool)).
Proof.
  intros Hlen Hwarm. unfold preCacheCommonAlerts.
  cbn [bind perform run response effect].
  rewrite run_bind.
  match goal with
  | |- context [run env (fold_right ?f (Return tt) commonAlerts) ?w1 pool] =>
      destruct (warming_for_each
                  (fun alert =>
                     fold_right (fun voice inner => preCacheAlert alert voice ;;; inner)
                       (Return tt) voices)
                  (fun alert =>
                     flat_map (fun voice => [generateCacheKey alert voice no_options]) voices)
                  ) with (xs := commonAlerts) (done := @nil string) (w := w1) (pool := pool)
        as (Ho & Hw)
  end.
  - intros alert done w0 pool0 Hlen0 Hwarm0.
    apply (warming_for_each (fun voice => preCacheAlert alert voice)
             (fun voice => [generateCacheKey alert voice no_options]));
      [|exact Hlen0|exact Hwarm0].
    intros voice done1 w1 pool1 Hlen1 Hwarm1.
    apply preCacheAlert_warms; [cbn in Hlen1; lia|exact Hwarm1].
  - exact Hlen.
  - exact Hwarm.
  - rewrite Ho. cbn [run outcome final pending bind perform response effect].
    exact Hw.
Qed.
End WarmingUp.

Lemma commonKeys_complete alert voice :
  In alert commonAlerts -> In voice voices ->
  In (generateCacheKey alert voice no_options) commonKeys.
Proof.
  intros Ha Hv. unfold commonKeys. apply in_flat_map. exists alert. split; [exact Ha|].
  apply in_map_iff. exists voice. split; [reflexivity|exact Hv].
Qed.

(** X20.  Started on an empty memory tier of capacity at least 18,
    with Polly answering, [preCacheCommonAlerts] leaves every one of its 6
    alerts with each of its 3 voices in memory: a later lookup of any of
    them within the time to live is a memory hit that sends no request and
    touches no file. *)
Theorem preCacheCommonAlerts_warms_an_empty_cache
    (env : Env) (w : World) (pool : list (Async unit)) :
  let after := final (run env preCacheCommonAlerts w pool) in
  polly_answers env ->
  memoryCache (cache w) = [] ->
  18 <= maxMemoryCache (cache w) ->
  (0 < cacheExpiry (cache w))%Z ->
  forall (env' : Env) (alert voice : string) (pool' : list (Async unit)),
    In alert commonAlerts ->
    In voice voices ->
    (now env' - now env < cacheExpiry (cache w))%Z ->
    let lookup := run env' (getAudioWithCache alert voice no_options) after pool' in
    exists payload,
      outcome lookup
      = Resolved (mkResult payload memory (generateCacheKey alert voice no_options) true) /\
      requests (final lookup) = requests after /\
      files (final lookup) = files after.
Proof.
  intros after Hpolly Hempty Hcap Httl env' alert voice pool' Ha Hv Hnow lookup.
  destruct (preCacheCommonAlerts_warms env (maxMemoryCache (cache w)) (cacheExpiry (cache w))
              Hpolly Httl w pool) as ((Hts & _ & Hkeys) & _ & Hexp).
  { exact Hcap. }
  { unfold warming. rewrite Hempty. cbn. repeat split; auto. }
  fold after in Hts, Hkeys, Hexp.
  pose proof (commonKeys_complete alert voice Ha Hv) as Hin.
  rewrite List.Forall_forall in Hkeys. specialize (Hkeys _ Hin).
  destruct (JsMap.get (generateCacheKey alert voice no_options) (memoryCache (cache after)))
    as [[payload t]|] eqn:Hget; [|now destruct Hkeys].
  pose proof (get_timestamp _ _ _ Hts Hget) as Ht. cbn in Ht. subst t.
  exists payload. subst lookup.
  destruct (lookup_of_fresh_entry env' alert voice no_options after pool' payload (now env))
    as (Hrun & _); [exact Hget|rewrite Hexp; exact Hnow|].
  rewrite Hrun. cbn. auto.
Qed.

Lemma preCacheCommonAlerts_warms_an_empty_cache_witness :
  let after := final (run (cold_env 0) preCacheCommonAlerts initial_world []) in
  let lookup := run (cold_env 5) (getAudioWithCache "Alert acknowledged" "Amy" no_options)
                  after [] in
  exists payload,
    outcome lookup
    = Resolved (mkResult payload memory
                  (generateCacheKey "Alert acknowledged" "Amy" no_options) true) /\
    requests (final lookup) = requests after /\
    files (final lookup) = files after.
Proof.
  apply (preCacheCommonAlerts_warms_an_empty_cache (cold_env 0) initial_world []).
  - intros region params. eexists. split; reflexivity.
  - reflexivity.
  - cbn. lia.
  - cbn. lia.
  - unfold commonAlerts. cbn [In]. tauto.
  - unfold voices. cbn [In]. tauto.
  - cbn. lia.
Defined.
